(** * The chat store of chat-with-gpt: a shallow embedding of
      [src/chat-manager.ts] (classes [ChatManager] and [Search]).

    Chat objects live in a heap and the [chats] map holds references to
    them, as in the source, where the stream handlers of a reply turn and
    the map share one object.  Calls to the host ([uuidv4], [Date.now],
    MiniSearch, the durable store, the completion transport) are inputs. *)

From Stdlib Require Import ZArith Ascii.
From stdpp Require Import base list strings sorting.

(** ** JavaScript strings

    A string is a sequence of 8-bit code units. *)
Module Js.

(** [!!s] for a string: only the empty string is falsy. *)
Definition truthy (s : string) : bool :=
  match s with
  | EmptyString => false
  | String _ _ => true
  end.

(** [!!s] for [s : string | undefined]. *)
Definition truthy_opt (o : option string) : bool :=
  match o with
  | Some s => truthy s
  | None => false
  end.

(** [o || ''] *)
Definition or_empty (o : option string) : string :=
  match o with
  | Some s => if truthy s then s else ""
  | None => ""
  end.

(** White space and line terminators of ECMAScript among the 8-bit code
    units: TAB, LF, VT, FF, CR, SP and NBSP. *)
Definition is_white (c : ascii) : bool :=
  match nat_of_ascii c with
  | 9 | 10 | 11 | 12 | 13 | 32 | 160 => true
  | _ => false
  end.

Fixpoint trimStart (s : string) : string :=
  match s with
  | EmptyString => EmptyString
  | String c r => if is_white c then trimStart r else s
  end.

Fixpoint trimEnd (s : string) : string :=
  match s with
  | EmptyString => EmptyString
  | String c r =>
      match trimEnd r with
      | EmptyString => if is_white c then EmptyString else String c EmptyString
      | r' => String c r'
      end
  end.

(** [String.prototype.trim] *)
Definition trim (s : string) : string := trimEnd (trimStart s).

(** The line feed, and [xs.join(sep)]. *)
Definition LF : string := String (ascii_of_nat 10) EmptyString.

Fixpoint join (sep : string) (xs : list string) : string :=
  match xs with
  | [] => ""
  | [x] => x
  | x :: r => x +:+ sep +:+ join sep r
  end.

End Js.

(** Modelled from the spec: the "ellipsis marker" of [ellipsize]. *)
Definition ellipsis : string := "...".

(** Modelled from the spec: [ellipsize] of [./utils], which is not among
    the sources.  The spec has a description "truncated to a fixed length
    with an ellipsis marker": a text longer than [maxLength] keeps its
    first [maxLength] code units followed by the marker, a shorter one is
    returned as it is. *)
Definition ellipsize (text : string) (maxLength : nat) : string :=
  if decide (maxLength < String.length text)
  then String.substring 0 maxLength text +:+ ellipsis
  else text.

(** ** Messages *)

(** Modelled from the spec: the roles of [Message] in [./types], which is
    not among the sources: "role ∈ {user, assistant, system}". *)
Inductive Role := user | assistant | system.

Module Message.

(** Modelled from the spec: [Message] of [./types]: "{id, chatID, parentID
    (nullable), role, content: text, timestamp, done: bool}".  The source
    builds its messages with these fields. *)
Record t := mk {
  id : string;
  chatID : string;
  parentID : option string;
  timestamp : Z;
  role : Role;
  content : string;
  done : bool;
}.

Definition with_content (s : string) (m : t) : t :=
  mk (id m) (chatID m) (parentID m) (timestamp m) (role m) s (done m).

Definition with_done (b : bool) (m : t) : t :=
  mk (id m) (chatID m) (parentID m) (timestamp m) (role m) (content m) b.

End Message.

#[global] Instance Role_eq_dec : EqDecision Role.
Proof. solve_decision. Defined.

#[global] Instance Message_eq_dec : EqDecision Message.t.
Proof. solve_decision. Defined.

(** ** The message tree *)
Module MessageTree.

(** Modelled from the spec: [MessageTree] of [./message-tree], which is not
    among the sources.  The spec gives a tree of messages owned by one
    chat, indexed by message id, whose nodes carry a parent reference; it
    supports insertion, update in place of the mutable fields [content] and
    [done], the path from the effective root to a node, the [first]
    accessor and flattening to a sequence in insertion order.  The nodes
    are kept in insertion order; a node's parent reference is its
    [parentID]. *)
Record t := mk { nodes : list Message.t }.

(** Modelled from the spec: "the tree starts empty". *)
Definition empty : t := mk [].

(** Modelled from the spec: the node under an id ("node identities are
    unique within a tree"). *)
Definition get (i : string) (tr : t) : option Message.t :=
  List.find (fun n => String.eqb (Message.id n) i) (nodes tr).

Definition has (i : string) (tr : t) : bool :=
  match get i tr with
  | Some _ => true
  | None => false
  end.

(** Modelled from the spec: [addMessage] "inserts a new node; fails (or is
    caller-guarded) if [m.id] already exists": an id that is present
    leaves the tree as it is. *)
Definition addMessage (m : Message.t) (tr : t) : t :=
  if has (Message.id m) tr then tr else mk (nodes tr ++ [m]).

(** Modelled from the spec: [updateMessage] "overwrites the existing
    node's mutable fields by id; no-ops if the id is absent", "without
    altering tree topology"; the mutable fields are [content] and [done]. *)
Definition updateMessage (m : Message.t) (tr : t) : t :=
  mk (List.map
        (fun n =>
           if String.eqb (Message.id n) (Message.id m)
           then Message.with_done (Message.done m)
                  (Message.with_content (Message.content m) n)
           else n)
        (nodes tr)).

(** Modelled from the spec: the parent link of a node, the node its
    [parentID] names. *)
Definition parent (n : Message.t) (tr : t) : option Message.t :=
  match Message.parentID n with
  | Some p => if Js.truthy p then get p tr else None
  | None => None
  end.

(** Modelled from the spec: the walk of [getMessageChainTo] up the parent
    links from [i], each node put in front. *)
Fixpoint chain_up (fuel : nat) (tr : t) (i : string) (acc : list Message.t)
  : list Message.t :=
  match fuel with
  | O => acc
  | S fuel' =>
      match get i tr with
      | None => acc
      | Some n =>
          match Message.parentID n with
          | Some p =>
              if Js.truthy p then chain_up fuel' tr p (n :: acc) else n :: acc
          | None => n :: acc
          end
      end
  end.

(** Modelled from the spec: [getMessageChainTo] "returns the ordered
    sequence of messages from the tree's effective root to (and
    including) [id], in root-to-leaf order".  A path visits each node at
    most once, so the number of nodes bounds the walk. *)
Definition getMessageChainTo (i : string) (tr : t) : list Message.t :=
  chain_up (length (nodes tr)) tr i [].

(** Modelled from the spec: [first], "the effective root's message": the
    first inserted node without a parent. *)
Definition first (tr : t) : option Message.t :=
  List.find (fun n => negb (Js.truthy_opt (Message.parentID n))) (nodes tr).

(** Modelled from the spec: [serialize] "yields a flat ordered sequence":
    the messages in insertion order. *)
Definition serialize (tr : t) : list Message.t := nodes tr.

End MessageTree.

(** ** Chats *)
Module Chat.

(** Modelled from the spec: [Chat] of [./types], which is not among the
    sources: "{id, title (nullable until generated), messages:
    MessageTree, created, updated}".  The source builds its chats with
    these fields. *)
Record t := mk {
  id : string;
  title : option string;
  messages : MessageTree.t;
  created : Z;
  updated : Z;
}.

Definition with_title (o : option string) (c : t) : t :=
  mk (id c) o (messages c) (created c) (updated c).

Definition with_messages (tr : MessageTree.t) (c : t) : t :=
  mk (id c) (title c) tr (created c) (updated c).

Definition with_updated (z : Z) (c : t) : t :=
  mk (id c) (title c) (messages c) (created c) z.

End Chat.

(** ** [Map<string, V>]: an association list in insertion order

    [set] on a key that is present keeps the key's position, as the
    iteration order of a JavaScript [Map] does. *)
Module JsMap.

Definition t (V : Type) : Type := list (string * V).

Fixpoint get {V : Type} (k : string) (m : t V) : option V :=
  match m with
  | [] => None
  | (k', v) :: r => if String.eqb k' k then Some v else get k r
  end.

Fixpoint set {V : Type} (k : string) (v : V) (m : t V) : t V :=
  match m with
  | [] => [(k, v)]
  | (k', v') :: r =>
      if String.eqb k' k then (k, v) :: r else (k', v') :: set k v r
  end.

Definition has {V : Type} (k : string) (m : t V) : bool :=
  match get k m with
  | Some _ => true
  | None => false
  end.

Definition keys {V : Type} (m : t V) : list string := List.map fst m.

Definition values {V : Type} (m : t V) : list V := List.map snd m.

End JsMap.

(** [Array.prototype.sort] with a comparator: the sort is stable, so for a
    consistent comparator the result is the one insertion sort computes. *)
Fixpoint sort_insert {A : Type} (cmp : A -> A -> Z) (a : A) (l : list A)
  : list A :=
  match l with
  | [] => [a]
  | b :: r =>
      if (cmp a b <=? 0)%Z then a :: b :: r else b :: sort_insert cmp a r
  end.

Definition js_sort {A : Type} (cmp : A -> A -> Z) (l : list A) : list A :=
  foldr (sort_insert cmp) [] l.

(** ** The world: the chat manager, the heap of chat objects, the host *)

(** A reference to a chat object. *)
Definition loc := nat.

(** What [emit] passes to the listeners. *)
Inductive Payload :=
  | NoArgs
  | Messages (ms : list Message.t)
  | Title (chatID title : string).

Record Emitted := mkEmitted { ev_name : string; ev_args : Payload }.

(** An envelope of the replication channel; [data] is a snapshot. *)
Inductive Envelope := ChatUpdate (data : Chat.t).

(** A chat as [save] stores it: the spread of the chat with [messages]
    replaced by the serialized tree. *)
Record SerializedChat := mkSerialized {
  s_id : string;
  s_title : option string;
  s_messages : list Message.t;
  s_created : Z;
  s_updated : Z;
}.

(** The options of [MiniSearch.search]: [{ fuzzy: 0.2 }], [{ prefix: true }]. *)
Inductive SearchMode := Fuzzy | Prefix.

(** The host: the result of the k-th call of [uuidv4] and of [Date.now],
    and MiniSearch's [search] over the indexed documents (the ids of the
    hits, best first).  [uuidv4] returns an identifier in the textual form
    of RFC 4122, which has 36 characters. *)
Record Host := mkHost {
  uuid_at : nat -> string;
  time_at : nat -> Z;
  minisearch : JsMap.t string -> string -> SearchMode -> list string;
  uuid_shape : forall n, String.length (uuid_at n) = 36;
}.

Record World := mkWorld {
  host : Host;
  uuids : nat;                          (* calls of [uuidv4] so far *)
  clock : nat;                          (* calls of [Date.now] so far *)
  heap : list Chat.t;                   (* the chat objects *)
  chats : JsMap.t loc;                  (* [ChatManager.chats] *)
  index : JsMap.t string;               (* [Search.index]: id -> value *)
  loaded : bool;
  changed : bool;
  emitted : list Emitted;               (* the events emitted, oldest first *)
  posted : list Envelope;               (* [channel.postMessage], oldest first *)
  store : option (list SerializedChat); (* the slot 'chats' of the durable store *)
  idb_calls : list (list SerializedChat); (* the calls of [idb.set] *)
  loop_alive : bool;                    (* the background loop has not ended *)
}.

Definition set_uuids (n : nat) (w : World) : World :=
  mkWorld (host w) n (clock w) (heap w) (chats w) (index w) (loaded w)
    (changed w) (emitted w) (posted w) (store w) (idb_calls w) (loop_alive w).

Definition set_clock (n : nat) (w : World) : World :=
  mkWorld (host w) (uuids w) n (heap w) (chats w) (index w) (loaded w)
    (changed w) (emitted w) (posted w) (store w) (idb_calls w) (loop_alive w).

Definition set_heap (h : list Chat.t) (w : World) : World :=
  mkWorld (host w) (uuids w) (clock w) h (chats w) (index w) (loaded w)
    (changed w) (emitted w) (posted w) (store w) (idb_calls w) (loop_alive w).

Definition set_chats (m : JsMap.t loc) (w : World) : World :=
  mkWorld (host w) (uuids w) (clock w) (heap w) m (index w) (loaded w)
    (changed w) (emitted w) (posted w) (store w) (idb_calls w) (loop_alive w).

Definition set_index (i : JsMap.t string) (w : World) : World :=
  mkWorld (host w) (uuids w) (clock w) (heap w) (chats w) i (loaded w)
    (changed w) (emitted w) (posted w) (store w) (idb_calls w) (loop_alive w).

Definition set_loaded (b : bool) (w : World) : World :=
  mkWorld (host w) (uuids w) (clock w) (heap w) (chats w) (index w) b
    (changed w) (emitted w) (posted w) (store w) (idb_calls w) (loop_alive w).

Definition set_changed (b : bool) (w : World) : World :=
  mkWorld (host w) (uuids w) (clock w) (heap w) (chats w) (index w) (loaded w)
    b (emitted w) (posted w) (store w) (idb_calls w) (loop_alive w).

Definition set_emitted (e : list Emitted) (w : World) : World :=
  mkWorld (host w) (uuids w) (clock w) (heap w) (chats w) (index w) (loaded w)
    (changed w) e (posted w) (store w) (idb_calls w) (loop_alive w).

Definition set_posted (p : list Envelope) (w : World) : World :=
  mkWorld (host w) (uuids w) (clock w) (heap w) (chats w) (index w) (loaded w)
    (changed w) (emitted w) p (store w) (idb_calls w) (loop_alive w).

Definition set_store (s : option (list SerializedChat)) (w : World) : World :=
  mkWorld (host w) (uuids w) (clock w) (heap w) (chats w) (index w) (loaded w)
    (changed w) (emitted w) (posted w) s (idb_calls w) (loop_alive w).

Definition set_idb_calls (c : list (list SerializedChat)) (w : World) : World :=
  mkWorld (host w) (uuids w) (clock w) (heap w) (chats w) (index w) (loaded w)
    (changed w) (emitted w) (posted w) (store w) c (loop_alive w).

Definition set_loop_alive (b : bool) (w : World) : World :=
  mkWorld (host w) (uuids w) (clock w) (heap w) (chats w) (index w) (loaded w)
    (changed w) (emitted w) (posted w) (store w) (idb_calls w) b.

(** ** Computations: state and exceptions *)

(** What a computation throws.  [BadReference] stands for the use of a
    reference that names no object; JavaScript cannot forge one, and no
    run from a well-formed world reaches it. *)
Inductive Thrown :=
  | ChatNotFound      (* [new Error('Chat not found')] *)
  | TypeError         (* a property read on [undefined] *)
  | UnhandledError    (* [emit('error')] without a listener for 'error' *)
  | StoreRejected     (* the promise of [idb.set] was rejected *)
  | BadReference.

Inductive Outcome (A : Type) :=
  | Returned (a : A) (w : World)
  | Threw (e : Thrown) (w : World).

Arguments Returned {A} a w.
Arguments Threw {A} e w.

Definition M (A : Type) : Type := World -> Outcome A.

Definition ret {A : Type} (a : A) : M A := fun w => Returned a w.

Definition bind {A B : Type} (c : M A) (k : A -> M B) : M B :=
  fun w =>
    match c w with
    | Returned a w' => k a w'
    | Threw e w' => Threw e w'
    end.

Definition throw {A : Type} (e : Thrown) : M A := fun w => Threw e w.

Definition gets {A : Type} (f : World -> A) : M A := fun w => Returned (f w) w.

Definition modify (f : World -> World) : M unit := fun w => Returned tt (f w).

Declare Scope js_scope.
Delimit Scope js_scope with js.
Notation "x <- c ;; k" := (bind c (fun x => k))
  (at level 100, c at next level, right associativity) : js_scope.
Notation "c ;; k" := (bind c (fun _ => k))
  (at level 100, right associativity) : js_scope.
Local Open Scope js_scope.

(** The world an outcome ends in, whether it returned or threw. *)
Definition world_of {A : Type} (o : Outcome A) : World :=
  match o with
  | Returned _ w => w
  | Threw _ w => w
  end.

(** *** Objects *)
Definition deref (l : loc) : M Chat.t :=
  fun w =>
    match heap w !! l with
    | Some c => Returned c w
    | None => Threw BadReference w
    end.

(** [chat.field = ...] on the object [l]. *)
Definition assign (l : loc) (f : Chat.t -> Chat.t) : M unit :=
  c <- deref l ;;
  modify (fun w => set_heap (<[l := f c]> (heap w)) w).

(** A new object. *)
Definition alloc (c : Chat.t) : M loc :=
  l <- gets (fun w => length (heap w)) ;;
  modify (fun w => set_heap (heap w ++ [c]) w) ;;
  ret l.

Fixpoint deref_all (ls : list loc) : M (list (loc * Chat.t)) :=
  match ls with
  | [] => ret []
  | l :: r =>
      c <- deref l ;;
      cs <- deref_all r ;;
      ret ((l, c) :: cs)
  end.

(** *** The host *)
Definition uuidv4 : M string :=
  n <- gets uuids ;;
  modify (set_uuids (S n)) ;;
  gets (fun w => uuid_at (host w) n).

Definition Date_now : M Z :=
  n <- gets clock ;;
  modify (set_clock (S n)) ;;
  gets (fun w => time_at (host w) n).

(** [this.emit(name, ...args)] of [EventEmitter].  The manager registers
    one listener, for 'update' ([this.on('update', () => { this.changed =
    true })]), and none for 'error': [EventEmitter] throws when 'error' is
    emitted and nothing listens to it.  Every other name reaches the
    listeners there are; those of the user interface are not part of the
    world, [emitted] keeps what they were told. *)
Definition emit (name : string) (args : Payload) : M unit :=
  if String.eqb name "error"
  then throw UnhandledError
  else
    modify (fun w => set_emitted (emitted w ++ [mkEmitted name args]) w) ;;
    if String.eqb name "update" then modify (set_changed true) else ret tt.

(** [channel.postMessage({ type: 'chat-update', data: chat })] *)
Definition postMessage (chat : loc) : M unit :=
  c <- deref chat ;;
  modify (fun w => set_posted (posted w ++ [ChatUpdate c]) w).

(** ** [class Search] *)

(** [Search.update(chat)]: the document of a chat is its title and the
    contents of all its messages, joined by blank lines.  An absent title
    prints as [undefined]. *)
Definition search_document (c : Chat.t) : string :=
  let messages :=
    Js.join (Js.LF +:+ Js.LF)
      (List.map Message.content (MessageTree.serialize (Chat.messages c))) in
  match Chat.title c with
  | Some s => s
  | None => "undefined"
  end +:+ (Js.LF +:+ Js.LF) +:+ messages.

Definition search_update (chat : loc) : M unit :=
  c <- deref chat ;;
  modify (fun w => set_index (JsMap.set (Chat.id c) (search_document c) (index w)) w).

(** What [processSearchResults] pushes. *)
Record SearchOutput := mkOutput {
  out_chatID : string;
  out_title : string;
  out_description : string;
}.

(** An element of [SearchResult[] | Chat[]]: a chat object or a hit of the
    index; both have an [id]. *)
Inductive Item :=
  | ChatItem (chat : loc)
  | Hit (id : string).

Definition item_id (it : Item) : M string :=
  match it with
  | ChatItem l => c <- deref l ;; ret (Chat.id c)
  | Hit i => ret i
  end.

(** One round of the loop of [processSearchResults]: [None] is [continue],
    [Some o] is [output.push(o)]. *)
Definition processSearchResult (item : Item) : M (option SearchOutput) :=
  chatID <- item_id item ;;
  found <- gets (fun w => JsMap.get chatID (chats w)) ;;
  match found with
  | None => ret None
  | Some stored =>
      (* chat = { ...chat } *)
      c <- deref stored ;;
      chat <- alloc c ;;
      c0 <- deref chat ;;
      let description :=
        Js.or_empty (Message.content <$> MessageTree.first (Chat.messages c0)) in
      let description := ellipsize description 400 in
      (if negb (Js.truthy_opt (Chat.title c0))
       then assign chat (Chat.with_title (Some (ellipsize description 100)))
       else ret tt) ;;
      c1 <- deref chat ;;
      if negb (Js.truthy_opt (Chat.title c1)) || negb (Js.truthy description)
      then ret None
      else ret (Some (mkOutput chatID (Js.or_empty (Chat.title c1)) description))
  end.

Fixpoint processSearchResults_loop (items : list Item) (output : list SearchOutput)
  : M (list SearchOutput) :=
  match items with
  | [] => ret output
  | item :: rest =>
      r <- processSearchResult item ;;
      match r with
      | None => processSearchResults_loop rest output
      | Some o => processSearchResults_loop rest (output ++ [o])
      end
  end.

Definition processSearchResults (searchResults : list Item) : M (list SearchOutput) :=
    processSearchResults_loop searchResults [].

(** [(a, b) => b.updated - a.updated] *)
Definition by_updated_desc (a b : loc * Chat.t) : Z :=
  (Chat.updated (snd b) - Chat.updated (snd a))%Z.

(** [Array.from(this.chats.values()).sort(...).slice(0, 10)] *)
Definition recent_chats : M (list (loc * Chat.t)) :=
  ls <- gets (fun w => JsMap.values (chats w)) ;;
  cs <- deref_all ls ;;
  ret (take 10 (js_sort by_updated_desc cs)).

Definition index_search (query : string) (mode : SearchMode) : M (list Item) :=
  gets (fun w => List.map Hit (minisearch (host w) (index w) query mode)).

Definition query (q : string) : M (list SearchOutput) :=
  if decide (String.length (Js.trim q) = 0)
  then
    searchResults <- recent_chats ;;
    processSearchResults (List.map (fun p => ChatItem (fst p)) searchResults)
  else
    searchResults <- index_search q Fuzzy ;;
    output <- processSearchResults searchResults ;;
    match output with
    | [] =>
        searchResults <- index_search q Prefix ;;
        processSearchResults searchResults
    | _ => ret output
    end.

(** ** [class ChatManager] *)

(** [channel.onmessage] *)
Definition onmessage (message : Envelope) : M unit :=
  match message with
  | ChatUpdate data =>
      let id := Chat.id data in
      received <- alloc data ;;
      modify (fun w => set_chats (JsMap.set id received (chats w)) w) ;;
      emit id NoArgs
  end.

Definition createChat : M string :=
  id <- uuidv4 ;;
  created <- Date_now ;;
  updated <- Date_now ;;
  chat <- alloc (Chat.mk id None MessageTree.empty created updated) ;;
  modify (fun w => set_chats (JsMap.set id chat (chats w)) w) ;;
  search_update chat ;;
  postMessage chat ;;
  ret id.

(** [UserSubmittedMessage]; the requested parameters only travel on to the
    completion transport. *)
Record UserSubmittedMessage := mkSubmission {
  sub_chatID : string;
  sub_parentID : option string;
  sub_content : string;
}.

(** One reply turn, as the closures of [getReply] hold it: the [reply]
    object, the [chat] object, and the context the completion was asked
    for. *)
Record Turn := mkTurn {
  reply : Message.t;
  turn_chat : loc;
  context : list Message.t;
}.

Definition with_reply (r : Message.t) (t : Turn) : Turn :=
  mkTurn r (turn_chat t) (context t).

(** [getReply], up to the request of the completion. *)
Definition getReply (messages : list Message.t) : M Turn :=
  match last messages with
  | None => throw TypeError
  | Some latestMessage =>
      found <- gets (fun w => JsMap.get (Message.chatID latestMessage) (chats w)) ;;
      match found with
      | None => throw ChatNotFound
      | Some chat =>
          id <- uuidv4 ;;
          timestamp <- Date_now ;;
          let reply :=
            Message.mk id (Message.chatID latestMessage)
              (Some (Message.id latestMessage)) timestamp assistant "" false in
          assign chat (fun c =>
            Chat.with_messages (MessageTree.addMessage reply (Chat.messages c)) c) ;;
          now <- Date_now ;;
          assign chat (Chat.with_updated now) ;;
          c <- deref chat ;;
          emit (Chat.id c) NoArgs ;;
          postMessage chat ;;
          ret (mkTurn reply chat messages)
      end
  end.

Definition sendMessage (message : UserSubmittedMessage) : M Turn :=
  found <- gets (fun w => JsMap.get (sub_chatID message) (chats w)) ;;
  match found with
  | None => throw ChatNotFound
  | Some chat =>
      c <- deref chat ;;
      id <- uuidv4 ;;
      timestamp <- Date_now ;;
      let newMessage :=
        Message.mk id (Chat.id c) (sub_parentID message) timestamp user
          (sub_content message) true in
      assign chat (fun c =>
        Chat.with_messages (MessageTree.addMessage newMessage (Chat.messages c)) c) ;;
      now <- Date_now ;;
      assign chat (Chat.with_updated now) ;;
      emit (Chat.id c) NoArgs ;;
      emit "messages" (Messages [newMessage]) ;;
      postMessage chat ;;
      c' <- deref chat ;;
      let messages :=
        match sub_parentID message with
        | Some p =>
            if Js.truthy p
            then MessageTree.getMessageChainTo p (Chat.messages c')
            else []
        | None => []
        end in
      getReply (messages ++ [newMessage])
  end.

Definition regenerate (message : Message.t) : M Turn :=
  found <- gets (fun w => JsMap.get (Message.chatID message) (chats w)) ;;
  match found with
  | None => throw ChatNotFound
  | Some chat =>
      c <- deref chat ;;
      let messages :=
        match Message.parentID message with
        | Some p =>
            if Js.truthy p
            then MessageTree.getMessageChainTo p (Chat.messages c)
            else []
        | None => []
        end in
      getReply messages
  end.

(** [ChatManager.get]: the chat object under an id, if any. *)
Definition get (id : string) : M (option loc) :=
  gets (fun w => JsMap.get id (chats w)).

(** The fixed apology text, and the literal the error handler appends to
    the reply: the text after two line feeds. *)
Definition apology : string :=
  "I'm sorry, I'm having trouble connecting to OpenAI. Please make sure you've entered your OpenAI API key correctly and try again.".

Definition apology_appended : string := Js.LF +:+ Js.LF +:+ apology.

(** [response.on('error', ...)] *)
Definition on_error (t : Turn) : M Turn :=
  if negb (Js.truthy (Message.content (reply t)))
  then
    let r := Message.with_content (Message.content (reply t) +:+ apology_appended) (reply t) in
    let r := Message.with_content (Js.trim (Message.content r)) r in
    let r := Message.with_done true r in
    assign (turn_chat t) (fun c =>
      Chat.with_messages (MessageTree.updateMessage r (Chat.messages c)) c) ;;
    now <- Date_now ;;
    assign (turn_chat t) (Chat.with_updated now) ;;
    c <- deref (turn_chat t) ;;
    emit (Chat.id c) NoArgs ;;
    emit "messages" (Messages [r]) ;;
    postMessage (turn_chat t) ;;
    ret (with_reply r t)
  else ret t.

(** [response.on('data', ...)] *)
Definition on_data (data : string) (t : Turn) : M Turn :=
  let r := Message.with_content data (reply t) in
  assign (turn_chat t) (fun c =>
    Chat.with_messages (MessageTree.updateMessage r (Chat.messages c)) c) ;;
  c <- deref (turn_chat t) ;;
  emit (Chat.id c) NoArgs ;;
  postMessage (turn_chat t) ;;
  ret (with_reply r t).

(** [response.on('done', ...)], up to the request of a title; the result
    tells whether a title was requested ([!chat.title]).  The refresh of
    the search index that the handler schedules with [setTimeout] runs
    later, as [search_update]. *)
Definition on_done (t : Turn) : M (Turn * bool) :=
  let r := Message.with_done true (reply t) in
  assign (turn_chat t) (fun c =>
    Chat.with_messages (MessageTree.updateMessage r (Chat.messages c)) c) ;;
  now <- Date_now ;;
  assign (turn_chat t) (Chat.with_updated now) ;;
  c <- deref (turn_chat t) ;;
  emit (Chat.id c) NoArgs ;;
  emit "messages" (Messages [r]) ;;
  emit "update" NoArgs ;;
  postMessage (turn_chat t) ;;
  ret (with_reply r t, negb (Js.truthy_opt (Chat.title c))).

(** The rest of the done handler, once [createTitle] has answered. *)
Definition on_title (created_title : option string) (t : Turn) : M unit :=
  assign (turn_chat t) (Chat.with_title created_title) ;;
  c <- deref (turn_chat t) ;;
  match Chat.title c with
  | Some title =>
      if Js.truthy title
      then
        emit (Chat.id c) NoArgs ;;
        emit "title" (Title (Chat.id c) title) ;;
        emit "update" NoArgs ;;
        postMessage (turn_chat t)
      else ret tt
  | None => ret tt
  end.

(** *** Persistence *)

(** [{ ...c, messages: c.messages.serialize() }] *)
Definition serialize_chat (c : Chat.t) : SerializedChat :=
  mkSerialized (Chat.id c) (Chat.title c)
    (MessageTree.serialize (Chat.messages c)) (Chat.created c) (Chat.updated c).

(** How the promise of [idb.set] settles. *)
Inductive IdbAnswer := Ack | Rejected.

(** [save]: the snapshot is taken before [idb.set] is awaited. *)
Definition save (answer : IdbAnswer) : M unit :=
  ls <- gets (fun w => JsMap.values (chats w)) ;;
  cs <- deref_all ls ;;
  let serialized := List.map (fun p => serialize_chat (snd p)) cs in
  modify (fun w => set_idb_calls (idb_calls w ++ [serialized]) w) ;;
  match answer with
  | Ack => modify (set_store (Some serialized))
  | Rejected => throw StoreRejected
  end.

(** The loop of [load] over the stored messages of one chat:
    [for (const m of chat.messages) messages.addMessage(m)]. *)
Definition reconstruct (ms : list Message.t) : MessageTree.t :=
  fold_left (fun messages m => MessageTree.addMessage m messages) ms
    MessageTree.empty.

Definition loadChat (chat : loc) : M unit :=
  c <- deref chat ;;
  if negb (Js.truthy (Chat.id c))
  then ret tt
  else
    modify (fun w => set_chats (JsMap.set (Chat.id c) chat (chats w)) w) ;;
    search_update chat ;;
    emit (Chat.id c) NoArgs.

Fixpoint load_each (serialized : list SerializedChat) : M unit :=
  match serialized with
  | [] => ret tt
  | chat :: rest =>
      let messages := reconstruct (s_messages chat) in
      l <- alloc (Chat.mk (s_id chat) (s_title chat) messages
                    (s_created chat) (s_updated chat)) ;;
      loadChat l ;;
      load_each rest
  end.

Definition load : M unit :=
  serialized <- gets store ;;
  match serialized with
  | Some stored => load_each stored ;; emit "update" NoArgs
  | None => ret tt
  end ;;
  modify (set_loaded true).

(** The body of the background loop, after [await sleep(100)]. *)
Definition loop_body (answer : IdbAnswer) : M unit :=
  l <- gets loaded ;;
  c <- gets changed ;;
  if l && c
  then modify (set_changed false) ;; save answer
  else ret tt.

(** One wake-up of the loop.  The loop is the body of an async function
    with no handler around it: an exception leaves [while (true)] and
    ends the function. *)
Definition wake (answer : IdbAnswer) (w : World) : World :=
  if loop_alive w
  then
    match loop_body answer w with
    | Returned _ w' => w'
    | Threw _ w' => set_loop_alive false w'
    end
  else w.

(** What happens around the loop: it wakes up, an event is emitted
    ('update' marks the manager dirty), the initial load completes. *)
Inductive Event :=
  | Wake (answer : IdbAnswer)
  | Emit (name : string)
  | Load.

Definition step (e : Event) (w : World) : World :=
  match e with
  | Wake answer => wake answer w
  | Emit name => world_of (emit name NoArgs w)
  | Load => world_of (load w)
  end.

Definition run (es : list Event) (w : World) : World :=
  fold_left (fun w e => step e w) es w.

(** *** The events of one reply turn *)
Inductive StreamEvent :=
  | Data (cumulativeText : string)
  | Error.

Definition deliver (e : StreamEvent) (t : Turn) : M Turn :=
  match e with
  | Data d => on_data d t
  | Error => on_error t
  end.

(** The events of a stream, each handed to its handler.  The delivery
    ends with the first handler that throws: the transport ([./openai]) is
    not among the sources, and what it does after a listener threw is not
    known. *)
Fixpoint deliver_all (es : list StreamEvent) (t : Turn) : M Turn :=
  match es with
  | [] => ret t
  | e :: r => t' <- deliver e t ;; deliver_all r t'
  end.

(** ** Well-formed worlds and trees *)

(** Every reference of the map names an object. *)
Definition refs_ok (w : World) : Prop :=
  Forall (fun l => l < length (heap w)) (JsMap.values (chats w)).

(** The ids of a tree, in insertion order. *)
Definition tree_ids (tr : MessageTree.t) : list string :=
  List.map Message.id (MessageTree.nodes tr).

(** A valid insertion: a non-empty id that is new, under no parent or
    under a node of the tree. *)
Definition valid_insertion (m : Message.t) (tr : MessageTree.t) : Prop :=
  Js.truthy (Message.id m) = true /\
  MessageTree.has (Message.id m) tr = false /\
  match Message.parentID m with
  | Some p => Js.truthy p = true -> MessageTree.has p tr = true
  | None => True
  end.

(** The trees built from the empty one by valid insertions and updates
    in place. *)
Inductive built : MessageTree.t -> Prop :=
  | built_empty : built MessageTree.empty
  | built_add m tr :
      built tr -> valid_insertion m tr -> built (MessageTree.addMessage m tr)
  | built_update m tr :
      built tr -> built (MessageTree.updateMessage m tr).

(** ** What the statements are about *)

(** The world after [emit name args], for a name other than 'error': the
    listeners were told, and 'update' marked the manager dirty. *)
Definition after_emit (name : string) (args : Payload) (w : World) : World :=
  let w' := set_emitted (emitted w ++ [mkEmitted name args]) w in
  if String.eqb name "update" then set_changed true w' else w'.

(** The description [processSearchResults] derives for a chat, and the
    copy it works on once the fallback title was assigned to it. *)
Definition described (c : Chat.t) : string :=
  ellipsize
    (Js.or_empty (Message.content <$> MessageTree.first (Chat.messages c))) 400.

Definition titled_copy (c : Chat.t) : Chat.t :=
  if Js.truthy_opt (Chat.title c) then c
  else Chat.with_title (Some (ellipsize (described c) 100)) c.

(** The world grew: objects were added to the heap, nothing else moved. *)
Definition grows (w w' : World) : Prop :=
  exists extra, w' = set_heap (heap w ++ extra) w.

(** A world with another search index and another MiniSearch. *)
Definition with_search (idx : JsMap.t string)
  (ms : JsMap.t string -> string -> SearchMode -> list string) (w : World)
  : World :=
  mkWorld (mkHost (uuid_at (host w)) (time_at (host w)) ms (uuid_shape (host w)))
    (uuids w) (clock w) (heap w) (chats w) idx (loaded w) (changed w)
    (emitted w) (posted w) (store w) (idb_calls w) (loop_alive w).

Definition outcome_map {A : Type} (f : World -> World) (o : Outcome A)
  : Outcome A :=
  match o with
  | Returned a w => Returned a (f w)
  | Threw e w => Threw e (f w)
  end.

(** What a computation returned, if it did. *)
Definition result_of {A : Type} (o : Outcome A) : option A :=
  match o with
  | Returned a _ => Some a
  | Threw _ _ => None
  end.

(** [c] only moves the world along [P], whether it returns or throws. *)
Definition keeps (P : World -> World -> Prop) {A : Type} (c : M A) : Prop :=
  forall w, P w (world_of (c w)).

(** [c] does not look at what [f] changes: running it after [f] is
    running it before. *)
Definition commutes (f : World -> World) {A : Type} (c : M A) : Prop :=
  forall w, c (f w) = outcome_map f (c w).

(** The persistence side of a world: what was handed to [idb.set], what
    the store holds, and whether the loop still runs. *)
Definition same_persistence (w w' : World) : Prop :=
  idb_calls w' = idb_calls w /\ store w' = store w /\
  loop_alive w' = loop_alive w.

(** For a comparator [cmp], [a] may stand before [b]. *)
Definition before {A : Type} (cmp : A -> A -> Z) (a b : A) : Prop :=
  (cmp a b <= 0)%Z.

(** The path from a root of the tree down to [n]: it starts at a message
    without parent link, each message is followed by one whose parent link
    names it, and it ends in [n]. *)
Inductive chain_to (tr : MessageTree.t) : Message.t -> list Message.t -> Prop :=
  | chain_root n :
      MessageTree.get (Message.id n) tr = Some n ->
      MessageTree.parent n tr = None ->
      chain_to tr n [n]
  | chain_step n p ms :
      MessageTree.get (Message.id n) tr = Some n ->
      MessageTree.parent n tr = Some p ->
      chain_to tr p ms ->
      chain_to tr n (ms ++ [n]).

(** Parents come first: a node with a parent reference stands after the
    node the reference names. *)
Definition parents_first (tr : MessageTree.t) : Prop :=
  forall k n p,
    MessageTree.nodes tr !! k = Some n ->
    Message.parentID n = Some p ->
    Js.truthy p = true ->
    exists j pn,
      j < k /\ MessageTree.nodes tr !! j = Some pn /\ Message.id pn = p.

(** ** Sample data *)

(** The identifiers of the sample host; from the fifth call on it repeats
    itself. *)
Definition sample_uuid (n : nat) : string :=
  match n with
  | 0 => "00000000-0000-4000-8000-000000000000"
  | 1 => "00000000-0000-4000-8000-000000000001"
  | 2 => "00000000-0000-4000-8000-000000000002"
  | 3 => "00000000-0000-4000-8000-000000000003"
  | _ => "00000000-0000-4000-8000-00000000000f"
  end.

(** A host whose clock starts at 1000 and whose search finds nothing. *)
Definition sample_host : Host :=
  mkHost sample_uuid
    (fun n => (1000 + Z.of_nat n)%Z)
    (fun _ _ _ => [])
    (fun n =>
       match n return String.length (sample_uuid n) = 36 with
       | 0 | 1 | 2 | 3 => eq_refl
       | _ => eq_refl
       end).

(** The world of a manager that was just constructed. *)
Definition blank_world (h : Host) : World :=
  mkWorld h 0 0 [] [] [] false false [] [] None [] true.

(** A user message at the root of a chat. *)
Definition opening (id chatID content : string) : Message.t :=
  Message.mk id chatID None 1 user content true.

(** A chat that holds one opening message. *)
Definition chat_with (id : string) (title : option string) (content : string)
  (updated : Z) : Chat.t :=
  Chat.mk id title
    (MessageTree.addMessage (opening (id +:+ "/1") id content) MessageTree.empty)
    0 updated.

(** A world whose map holds the given chats, in this order. *)
Definition world_with (cs : list Chat.t) : World :=
  mkWorld sample_host 0 0 cs
    (imap (fun l c => (Chat.id c, l)) cs) [] true false [] [] None [] true.

(** A chat in the middle of a turn: the opening message and the pending
    reply under it, and the turn as [getReply] left it. *)
Definition pending_reply : Message.t :=
  Message.mk "r1" "c1" (Some "c1/1") 2 assistant "" false.

Definition talk : Chat.t :=
  Chat.mk "c1" None
    (MessageTree.addMessage pending_reply
       (MessageTree.addMessage (opening "c1/1" "c1" "Hello") MessageTree.empty))
    0 5.

Definition pending_turn : Turn :=
  mkTurn pending_reply 0 [opening "c1/1" "c1" "Hello"].

(** A chat with a title whose opening message has no content. *)
Definition titled_empty_chat : Chat.t := chat_with "c1" (Some "Plans") "" 5.

(** Four chats with the [updated] timestamps 5, 3, 8 and 1. *)
Definition four_chats : list Chat.t :=
  [chat_with "five" (Some "Five") "e" 5; chat_with "three" None "c" 3;
   chat_with "eight" (Some "Eight") "h" 8; chat_with "one" None "a" 1].
(** * Further notions *)

(** Two nodes that differ at most in [content] and [done]. *)
Definition same_identity (n n' : Message.t) : Prop :=
  Message.id n' = Message.id n /\
  Message.chatID n' = Message.chatID n /\
  Message.parentID n' = Message.parentID n /\
  Message.timestamp n' = Message.timestamp n /\
  Message.role n' = Message.role n.

(** The chat object [load] makes of a stored chat. *)
Definition restore (s : SerializedChat) : Chat.t :=
  Chat.mk (s_id s) (s_title s) (reconstruct (s_messages s))
    (s_created s) (s_updated s).

(** The map and the index after [load] went through the stored chats,
    the first of them allocated at [base]. *)
Fixpoint registered (base : nat) (ss : list SerializedChat) (m : JsMap.t loc)
  : JsMap.t loc :=
  match ss with
  | [] => m
  | s :: r =>
      registered (S base) r
        (if Js.truthy (s_id s) then JsMap.set (s_id s) base m else m)
  end.

Fixpoint documented (ss : list SerializedChat) (idx : JsMap.t string)
  : JsMap.t string :=
  match ss with
  | [] => idx
  | s :: r =>
      documented r
        (if Js.truthy (s_id s)
         then JsMap.set (s_id s) (search_document (restore s)) idx
         else idx)
  end.

(** Every entry of the map names a chat object that carries the entry's
    id, a non-empty one, and whose tree was built from valid insertions. *)
Definition savable (w : World) : Prop :=
  Forall (fun p => exists c, heap w !! snd p = Some c /\ Chat.id c = fst p /\
                             fst p <> "" /\ built (Chat.messages c))
    (chats w).

(** A result that stands for a chat of the map: it carries the
    description derived from the chat, a non-empty one, and the chat's
    title or, when the chat has none, the fallback title. *)
Definition result_of_chat (w : World) (o : SearchOutput) : Prop :=
  exists l c,
    JsMap.get (out_chatID o) (chats w) = Some l /\
    heap w !! l = Some c /\
    out_description o = described c /\
    out_description o <> "" /\
    out_title o <> "" /\
    out_title o =
      (if Js.truthy_opt (Chat.title c) then Js.or_empty (Chat.title c)
       else ellipsize (described c) 100).

(** Every entry of the map names a chat object that carries the entry's
    id. *)
Definition coherent (w : World) : Prop :=
  Forall (fun p => exists c, heap w !! snd p = Some c /\ Chat.id c = fst p)
    (chats w).

(** What can happen to a manager: the calls of its public methods, the
    events of the replication channel, of the loop and of the streams of
    its turns, and the deferred refresh of the search index. *)
Inductive Action :=
  | CreateChat
  | SendMessage (message : UserSubmittedMessage)
  | Regenerate (message : Message.t)
  | Receive (message : Envelope)
  | LoadChat (chat : Chat.t)
  | InitialLoad
  | Query (q : string)
  | WakeUp (answer : IdbAnswer)
  | Stream (e : StreamEvent) (t : Turn)
  | StreamDone (t : Turn)
  | TitleAnswer (answer : option string) (t : Turn)
  | RefreshIndex (chat : loc).

Definition perform (a : Action) (w : World) : World :=
  match a with
  | CreateChat => world_of (createChat w)
  | SendMessage message => world_of (sendMessage message w)
  | Regenerate message => world_of (regenerate message w)
  | Receive message => world_of (onmessage message w)
  | LoadChat chat => world_of ((l <- alloc chat ;; loadChat l) w)
  | InitialLoad => world_of (load w)
  | Query q => world_of (query q w)
  | WakeUp answer => wake answer w
  | Stream e t => world_of (deliver e t w)
  | StreamDone t => world_of (on_done t w)
  | TitleAnswer answer t => world_of (on_title answer t w)
  | RefreshIndex chat => world_of (search_update chat w)
  end.

Definition perform_all (actions : list Action) (w : World) : World :=
  fold_left (fun w a => perform a w) actions w.

(** The chat objects and the map are the same. *)
Definition same_chats (w w' : World) : Prop :=
  heap w' = heap w /\ chats w' = chats w.


(** * Proofs *)

(** ** Strings *)
Lemma truthy_false (s : string) : Js.truthy s = false <-> s = "".
Proof. destruct s; simpl; split; congruence. Qed.

Lemma truthy_true (s : string) : Js.truthy s = true <-> s <> "".
Proof. destruct s; simpl; split; congruence. Qed.

Lemma trim_apology : Js.trim ("" +:+ apology_appended) = apology.
Proof. reflexivity. Qed.

(** ** Maps in insertion order *)
Lemma get_set_eq {V} (k : string) (v : V) (m : JsMap.t V) :
  JsMap.get k (JsMap.set k v m) = Some v.
Proof.
  induction m as [|[k' v'] m IH]; simpl.
  - by rewrite String.eqb_refl.
  - destruct (String.eqb k' k) eqn:E; simpl.
    + by rewrite String.eqb_refl.
    + by rewrite E.
Qed.

Lemma get_set_ne {V} (k k0 : string) (v : V) (m : JsMap.t V) :
  k0 <> k -> JsMap.get k0 (JsMap.set k v m) = JsMap.get k0 m.
Proof.
  intros Hne. induction m as [|[k' v'] m IH]; simpl.
  - destruct (String.eqb k k0) eqn:E; [|done].
    apply String.eqb_eq in E. congruence.
  - destruct (String.eqb k' k) eqn:E; simpl.
    + apply String.eqb_eq in E. subst k'.
      destruct (String.eqb k k0) eqn:E0; [|done].
      apply String.eqb_eq in E0. congruence.
    + by rewrite IH.
Qed.

Lemma keys_set_present {V} (k : string) (v v0 : V) (m : JsMap.t V) :
  JsMap.get k m = Some v0 -> JsMap.keys (JsMap.set k v m) = JsMap.keys m.
Proof.
  induction m as [|[k' v'] m IH]; simpl; [done|].
  destruct (String.eqb k' k) eqn:E; simpl.
  - apply String.eqb_eq in E. by subst.
  - intros H. unfold JsMap.keys in *. simpl. f_equal. by apply IH.
Qed.

(** ** Running the primitives *)
Lemma run_deref l c w : heap w !! l = Some c -> deref l w = Returned c w.
Proof. intros H. unfold deref. by rewrite H. Qed.

Lemma run_assign l f c w :
  heap w !! l = Some c ->
  assign l f w = Returned tt (set_heap (<[l := f c]> (heap w)) w).
Proof. intros H. unfold assign, bind. by rewrite (run_deref l c w H). Qed.

Lemma run_postMessage l c w :
  heap w !! l = Some c ->
  postMessage l w = Returned tt (set_posted (posted w ++ [ChatUpdate c]) w).
Proof. intros H. unfold postMessage, bind. by rewrite (run_deref l c w H). Qed.

Lemma heap_assigned l (c : Chat.t) (h : list Chat.t) x :
  h !! l = Some c -> <[l := x]> h !! l = Some x.
Proof. intros H. apply list_lookup_insert_eq. by eapply lookup_lt_Some. Qed.

Lemma run_emit name args w :
  name <> "error" -> emit name args w = Returned tt (after_emit name args w).
Proof.
  intros H. apply String.eqb_neq in H.
  unfold emit, after_emit, bind, modify, ret. rewrite H.
  by destruct (String.eqb name "update").
Qed.

Lemma emit_outcome name args w :
  emit name args w =
  if String.eqb name "error" then Threw UnhandledError w
  else Returned tt (after_emit name args w).
Proof.
  destruct (String.eqb_spec name "error") as [->|H]; [done|].
  by apply run_emit.
Qed.

Lemma heap_after_emit name args w : heap (after_emit name args w) = heap w.
Proof. unfold after_emit. by destruct (String.eqb name "update"). Qed.

Lemma chats_after_emit name args w : chats (after_emit name args w) = chats w.
Proof. unfold after_emit. by destruct (String.eqb name "update"). Qed.

Lemma posted_after_emit name args w : posted (after_emit name args w) = posted w.
Proof. unfold after_emit. by destruct (String.eqb name "update"). Qed.

Lemma clock_after_emit name args w : clock (after_emit name args w) = clock w.
Proof. unfold after_emit. by destruct (String.eqb name "update"). Qed.

Lemma host_after_emit name args w : host (after_emit name args w) = host w.
Proof. unfold after_emit. by destruct (String.eqb name "update"). Qed.

Lemma uuids_after_emit name args w : uuids (after_emit name args w) = uuids w.
Proof. unfold after_emit. by destruct (String.eqb name "update"). Qed.

Lemma index_after_emit name args w : index (after_emit name args w) = index w.
Proof. unfold after_emit. by destruct (String.eqb name "update"). Qed.

Lemma loaded_after_emit name args w : loaded (after_emit name args w) = loaded w.
Proof. unfold after_emit. by destruct (String.eqb name "update"). Qed.

Lemma store_after_emit name args w : store (after_emit name args w) = store w.
Proof. unfold after_emit. by destruct (String.eqb name "update"). Qed.

Lemma idb_calls_after_emit name args w :
  idb_calls (after_emit name args w) = idb_calls w.
Proof. unfold after_emit. by destruct (String.eqb name "update"). Qed.

Lemma loop_alive_after_emit name args w :
  loop_alive (after_emit name args w) = loop_alive w.
Proof. unfold after_emit. by destruct (String.eqb name "update"). Qed.

Lemma onmessage_outcome data w :
  let w1 := set_chats (JsMap.set (Chat.id data) (length (heap w)) (chats w))
              (set_heap (heap w ++ [data]) w) in
  onmessage (ChatUpdate data) w =
  if String.eqb (Chat.id data) "error" then Threw UnhandledError w1
  else Returned tt (after_emit (Chat.id data) NoArgs w1).
Proof. unfold onmessage, bind. cbn -[emit]. by rewrite emit_outcome. Qed.

Lemma onmessage_runs data w :
  Chat.id data <> "error" ->
  onmessage (ChatUpdate data) w =
  Returned tt
    (after_emit (Chat.id data) NoArgs
       (set_chats (JsMap.set (Chat.id data) (length (heap w)) (chats w))
          (set_heap (heap w ++ [data]) w))).
Proof.
  intros H. apply String.eqb_neq in H. by rewrite onmessage_outcome, H.
Qed.

(** ** Unknown chats *)

(** C2.  [sendMessage] on a chat id that the map does not hold throws
    'Chat not found' and leaves the world as it was: no tree and no
    [updated] of any chat object changes, and nothing is posted on the
    replication channel. *)
Theorem sendMessage_unknown_chat (message : UserSubmittedMessage) (w : World) :
  JsMap.get (sub_chatID message) (chats w) = None ->
  sendMessage message w = Threw ChatNotFound w.
Proof. intros H. unfold sendMessage, bind, gets. by rewrite H. Qed.

Lemma sendMessage_unknown_chat_witness :
  let w := world_with [chat_with "c1" None "Hello" 5] in
  let message := mkSubmission "c2" None "Anyone?" in
  sendMessage message w = Threw ChatNotFound w /\
  heap (world_of (sendMessage message w)) = heap w /\
  posted (world_of (sendMessage message w)) = [].
Proof.
  intros w message.
  pose proof (sendMessage_unknown_chat message w eq_refl) as H.
  rewrite H. repeat split.
Defined.

(** ** The replication channel *)

(** C3.  A 'chat-update' envelope for a chat id that the map holds makes
    the map hold the received chat under that id, whatever the [updated]
    of the received chat and of the local one: nothing in the handler
    compares them.  The other entries and the order of the keys stay.
    The handler ends by emitting the id: for a chat whose id is the event
    name 'error' that throws, after the map was written, so the map holds
    the received chat then too. *)
Theorem onmessage_last_applied_wins (data : Chat.t) (w : World) (l : loc) :
  JsMap.get (Chat.id data) (chats w) = Some l ->
  exists (w' : World) (l' : loc),
    onmessage (ChatUpdate data) w =
      (if String.eqb (Chat.id data) "error" then Threw UnhandledError w'
       else Returned tt w') /\
    JsMap.get (Chat.id data) (chats w') = Some l' /\
    heap w' !! l' = Some data /\
    JsMap.keys (chats w') = JsMap.keys (chats w) /\
    (forall k, k <> Chat.id data ->
               JsMap.get k (chats w') = JsMap.get k (chats w)).
Proof.
  intros Hget.
  exists (world_of (onmessage (ChatUpdate data) w)), (length (heap w)).
  rewrite onmessage_outcome.
  destruct (String.eqb (Chat.id data) "error"); cbn [world_of];
    (split; [reflexivity|]);
    rewrite ?chats_after_emit, ?heap_after_emit; cbn; repeat split;
    try apply get_set_eq;
    try (rewrite lookup_app_r, Nat.sub_diag; [done|lia]);
    try (by eapply keys_set_present);
    intros k Hk; by apply get_set_ne.
Qed.

Lemma onmessage_last_applied_wins_witness :
  let local := chat_with "c1" (Some "Plans") "Hello" 9 in
  let incoming := chat_with "c1" None "Older text" 2 in
  let w := world_with [local] in
  (Chat.updated incoming < Chat.updated local)%Z /\
  exists w' l',
    onmessage (ChatUpdate incoming) w = Returned tt w' /\
    JsMap.get "c1" (chats w') = Some l' /\
    heap w' !! l' = Some incoming.
Proof.
  intros local incoming w. split; [done|].
  destruct (onmessage_last_applied_wins incoming w 0 eq_refl)
    as (w' & l' & Hrun & Hget & Hheap & _).
  exists w', l'. split; [exact Hrun|]. auto.
Defined.

(** ** Symbolic execution of the handlers *)
Ltac heap_lookup :=
  cbn [heap set_uuids set_clock set_heap set_chats set_index set_loaded
       set_changed set_emitted set_posted set_store set_idb_calls
       set_loop_alive];
  rewrite ?heap_after_emit;
  cbn [heap set_uuids set_clock set_heap set_chats set_index set_loaded
       set_changed set_emitted set_posted set_store set_idb_calls
       set_loop_alive];
  repeat first [eassumption | eapply heap_assigned].

Ltac fields :=
  repeat progress
    (rewrite ?heap_after_emit, ?chats_after_emit, ?posted_after_emit,
       ?clock_after_emit, ?host_after_emit, ?uuids_after_emit,
       ?index_after_emit, ?loaded_after_emit, ?store_after_emit,
       ?idb_calls_after_emit, ?loop_alive_after_emit;
     cbn [host uuids clock heap chats index loaded changed emitted posted
          store idb_calls loop_alive
          set_uuids set_clock set_heap set_chats set_index set_loaded
          set_changed set_emitted set_posted set_store set_idb_calls
          set_loop_alive]).

Lemma bind_deref {A} l c (k : Chat.t -> M A) w :
  heap w !! l = Some c -> bind (deref l) k w = k c w.
Proof. intros H. unfold bind. by rewrite (run_deref l c w H). Qed.

Lemma bind_assign {A} l f c (k : unit -> M A) w :
  heap w !! l = Some c ->
  bind (assign l f) k w = k tt (set_heap (<[l := f c]> (heap w)) w).
Proof. intros H. unfold bind. by rewrite (run_assign l f c w H). Qed.

Lemma bind_postMessage {A} l c (k : unit -> M A) w :
  heap w !! l = Some c ->
  bind (postMessage l) k w =
  k tt (set_posted (posted w ++ [ChatUpdate c]) w).
Proof. intros H. unfold bind. by rewrite (run_postMessage l c w H). Qed.

Lemma bind_emit {A} name args (k : unit -> M A) w :
  name <> "error" -> bind (emit name args) k w = k tt (after_emit name args w).
Proof. intros H. unfold bind. by rewrite run_emit. Qed.

Lemma bind_emit_error {A} name args (k : unit -> M A) w :
  name = "error" -> bind (emit name args) k w = Threw UnhandledError w.
Proof. intros ->. reflexivity. Qed.

(** The name of an event is, or is not, 'error'. *)
Ltac emit_name :=
  cbn [Chat.id Chat.with_updated Chat.with_messages Chat.with_title];
  first [assumption | discriminate | congruence].

Lemma bind_uuidv4 {A} (k : string -> M A) w :
  bind uuidv4 k w = k (uuid_at (host w) (uuids w)) (set_uuids (S (uuids w)) w).
Proof. reflexivity. Qed.

Lemma bind_Date_now {A} (k : Z -> M A) w :
  bind Date_now k w = k (time_at (host w) (clock w)) (set_clock (S (clock w)) w).
Proof. reflexivity. Qed.

Lemma bind_gets {A B} (f : World -> A) (k : A -> M B) w :
  bind (gets f) k w = k (f w) w.
Proof. reflexivity. Qed.

Lemma bind_modify {A} (f : World -> World) (k : unit -> M A) w :
  bind (modify f) k w = k tt (f w).
Proof. reflexivity. Qed.

Ltac run_step :=
  first
    [ erewrite bind_assign by heap_lookup
    | erewrite bind_deref by heap_lookup
    | erewrite bind_postMessage by heap_lookup
    | rewrite bind_emit by emit_name
    | rewrite bind_uuidv4
    | rewrite bind_Date_now
    | rewrite bind_gets
    | rewrite bind_modify ];
  fields.

Ltac settle :=
  eexists; split; [reflexivity|];
  repeat (fields; rewrite ?list_insert_insert_eq);
  repeat split.

Lemma on_error_empty_runs t w c :
  heap w !! turn_chat t = Some c ->
  Message.content (reply t) = "" ->
  Chat.id c <> "error" ->
  let r := Message.with_done true (Message.with_content apology (reply t)) in
  let c' := Chat.with_updated (time_at (host w) (clock w))
              (Chat.with_messages
                 (MessageTree.updateMessage r (Chat.messages c)) c) in
  exists w',
    on_error t w = Returned (with_reply r t) w' /\
    heap w' = <[turn_chat t := c']> (heap w) /\
    chats w' = chats w /\
    host w' = host w /\
    clock w' = S (clock w) /\
    posted w' = posted w ++ [ChatUpdate c'].
Proof.
  intros Hc Hempty Hid r c'.
  unfold on_error. rewrite Hempty. cbn [Js.truthy negb].
  cbn [Message.content Message.with_content]. rewrite trim_apology.
  do 7 run_step. settle.
Qed.

(** What a handler leaves when the chat's id is the event name 'error':
    it throws at [this.emit(chat.id)], after its assignments and before
    anything is emitted or posted. *)
Lemma on_error_empty_throws t w c :
  heap w !! turn_chat t = Some c ->
  Message.content (reply t) = "" ->
  Chat.id c = "error" ->
  let r := Message.with_done true (Message.with_content apology (reply t)) in
  let c' := Chat.with_updated (time_at (host w) (clock w))
              (Chat.with_messages
                 (MessageTree.updateMessage r (Chat.messages c)) c) in
  on_error t w =
  Threw UnhandledError
    (set_heap (<[turn_chat t := c']> (heap w)) (set_clock (S (clock w)) w)).
Proof.
  intros Hc Hempty Hid r c'.
  unfold on_error. rewrite Hempty. cbn [Js.truthy negb].
  cbn [Message.content Message.with_content]. rewrite trim_apology.
  do 4 run_step. rewrite bind_emit_error by emit_name.
  by rewrite list_insert_insert_eq.
Qed.

Lemma on_error_ignored t w :
  Message.content (reply t) <> "" -> on_error t w = Returned t w.
Proof.
  intros H. apply truthy_true in H. unfold on_error. by rewrite H.
Qed.

Lemma on_data_runs d t w c :
  heap w !! turn_chat t = Some c ->
  Chat.id c <> "error" ->
  let r := Message.with_content d (reply t) in
  let c' := Chat.with_messages
              (MessageTree.updateMessage r (Chat.messages c)) c in
  exists w',
    on_data d t w = Returned (with_reply r t) w' /\
    heap w' = <[turn_chat t := c']> (heap w) /\
    chats w' = chats w /\
    host w' = host w /\
    clock w' = clock w /\
    posted w' = posted w ++ [ChatUpdate c'].
Proof.
  intros Hc Hid r c'. unfold on_data. do 4 run_step. settle.
Qed.

Lemma on_data_throws d t w c :
  heap w !! turn_chat t = Some c ->
  Chat.id c = "error" ->
  let r := Message.with_content d (reply t) in
  let c' := Chat.with_messages
              (MessageTree.updateMessage r (Chat.messages c)) c in
  on_data d t w =
  Threw UnhandledError (set_heap (<[turn_chat t := c']> (heap w)) w).
Proof.
  intros Hc Hid r c'. unfold on_data. do 2 run_step.
  by rewrite bind_emit_error by emit_name.
Qed.

Lemma on_done_runs t w c :
  heap w !! turn_chat t = Some c ->
  Chat.id c <> "error" ->
  let r := Message.with_done true (reply t) in
  let c' := Chat.with_updated (time_at (host w) (clock w))
              (Chat.with_messages
                 (MessageTree.updateMessage r (Chat.messages c)) c) in
  exists w',
    on_done t w =
      Returned (with_reply r t, negb (Js.truthy_opt (Chat.title c))) w' /\
    heap w' = <[turn_chat t := c']> (heap w) /\
    chats w' = chats w /\
    host w' = host w /\
    clock w' = S (clock w) /\
    changed w' = true /\
    posted w' = posted w ++ [ChatUpdate c'].
Proof.
  intros Hc Hid r c'. unfold on_done.
  do 8 run_step. settle.
Qed.

Lemma on_done_throws t w c :
  heap w !! turn_chat t = Some c ->
  Chat.id c = "error" ->
  let r := Message.with_done true (reply t) in
  let c' := Chat.with_updated (time_at (host w) (clock w))
              (Chat.with_messages
                 (MessageTree.updateMessage r (Chat.messages c)) c) in
  on_done t w =
  Threw UnhandledError
    (set_heap (<[turn_chat t := c']> (heap w)) (set_clock (S (clock w)) w)).
Proof.
  intros Hc Hid r c'. unfold on_done. do 4 run_step.
  rewrite bind_emit_error by emit_name.
  by rewrite list_insert_insert_eq.
Qed.

Lemma getReply_runs messages latest w l c :
  last messages = Some latest ->
  JsMap.get (Message.chatID latest) (chats w) = Some l ->
  heap w !! l = Some c ->
  Chat.id c <> "error" ->
  let r := Message.mk (uuid_at (host w) (uuids w)) (Message.chatID latest)
             (Some (Message.id latest)) (time_at (host w) (clock w))
             assistant "" false in
  let c' := Chat.with_updated (time_at (host w) (S (clock w)))
              (Chat.with_messages
                 (MessageTree.addMessage r (Chat.messages c)) c) in
  exists w',
    getReply messages w = Returned (mkTurn r l messages) w' /\
    heap w' = <[l := c']> (heap w) /\
    chats w' = chats w /\
    host w' = host w /\
    clock w' = S (S (clock w)) /\
    posted w' = posted w ++ [ChatUpdate c'].
Proof.
  intros Hlast Hget Hc Hid r c'. unfold getReply. rewrite Hlast.
  run_step. rewrite Hget. do 8 run_step. settle.
Qed.

Lemma getReply_throws messages latest w l c :
  last messages = Some latest ->
  JsMap.get (Message.chatID latest) (chats w) = Some l ->
  heap w !! l = Some c ->
  Chat.id c = "error" ->
  let r := Message.mk (uuid_at (host w) (uuids w)) (Message.chatID latest)
             (Some (Message.id latest)) (time_at (host w) (clock w))
             assistant "" false in
  let c' := Chat.with_updated (time_at (host w) (S (clock w)))
              (Chat.with_messages
                 (MessageTree.addMessage r (Chat.messages c)) c) in
  getReply messages w =
  Threw UnhandledError
    (set_heap (<[l := c']> (heap w))
       (set_clock (S (S (clock w))) (set_uuids (S (uuids w)) w))).
Proof.
  intros Hlast Hget Hc Hid r c'. unfold getReply. rewrite Hlast.
  run_step. rewrite Hget. do 6 run_step.
  rewrite bind_emit_error by emit_name.
  by rewrite list_insert_insert_eq.
Qed.

Lemma sendMessage_runs message w l c :
  JsMap.get (sub_chatID message) (chats w) = Some l ->
  heap w !! l = Some c ->
  Chat.id c = sub_chatID message ->
  Chat.id c <> "error" ->
  let newMessage :=
    Message.mk (uuid_at (host w) (uuids w)) (Chat.id c) (sub_parentID message)
      (time_at (host w) (clock w)) user (sub_content message) true in
  let tr := MessageTree.addMessage newMessage (Chat.messages c) in
  let c1 := Chat.with_updated (time_at (host w) (S (clock w)))
              (Chat.with_messages tr c) in
  let chain :=
    match sub_parentID message with
    | Some p => if Js.truthy p then MessageTree.getMessageChainTo p tr else []
    | None => []
    end in
  let r :=
    Message.mk (uuid_at (host w) (S (uuids w))) (Chat.id c)
      (Some (Message.id newMessage)) (time_at (host w) (S (S (clock w))))
      assistant "" false in
  let c2 := Chat.with_updated (time_at (host w) (S (S (S (clock w)))))
              (Chat.with_messages (MessageTree.addMessage r tr) c1) in
  exists w',
    sendMessage message w = Returned (mkTurn r l (chain ++ [newMessage])) w' /\
    heap w' = <[l := c2]> (heap w) /\
    chats w' = chats w /\
    host w' = host w /\
    clock w' = S (S (S (S (clock w)))) /\
    posted w' = posted w ++ [ChatUpdate c1; ChatUpdate c2].
Proof.
  intros Hget Hc Hid Hne newMessage tr c1 chain r c2.
  unfold sendMessage. run_step. rewrite Hget. do 10 run_step.
  match goal with |- context [getReply ?ms ?w0] =>
    destruct (getReply_runs ms newMessage w0 l c1) as (w' & Hrun & Hh & Hch & Hho & Hcl & Hpo)
  end.
  - apply last_snoc.
  - fields. cbn [Message.chatID newMessage]. by rewrite Hid.
  - heap_lookup.
  - exact Hne.
  - revert Hrun Hh Hch Hho Hcl Hpo. fields.
    intros Hrun Hh Hch Hho Hcl Hpo.
    exists w'. split; [exact Hrun|].
    rewrite Hh, Hch, Hho, Hcl, Hpo.
    repeat (fields; rewrite ?list_insert_insert_eq).
    rewrite <- app_assoc. repeat split.
Qed.

Lemma sendMessage_throws message w l c :
  JsMap.get (sub_chatID message) (chats w) = Some l ->
  heap w !! l = Some c ->
  Chat.id c = "error" ->
  let newMessage :=
    Message.mk (uuid_at (host w) (uuids w)) (Chat.id c) (sub_parentID message)
      (time_at (host w) (clock w)) user (sub_content message) true in
  let c1 := Chat.with_updated (time_at (host w) (S (clock w)))
              (Chat.with_messages
                 (MessageTree.addMessage newMessage (Chat.messages c)) c) in
  sendMessage message w =
  Threw UnhandledError
    (set_heap (<[l := c1]> (heap w))
       (set_clock (S (S (clock w))) (set_uuids (S (uuids w)) w))).
Proof.
  intros Hget Hc Hid newMessage c1.
  unfold sendMessage. run_step. rewrite Hget. do 6 run_step.
  rewrite bind_emit_error by emit_name.
  by rewrite list_insert_insert_eq.
Qed.

(** ** The tree under updates *)
Lemma get_updateMessage m i tr :
  MessageTree.get i (MessageTree.updateMessage m tr) =
  (fun n =>
     if String.eqb (Message.id n) (Message.id m)
     then Message.with_done (Message.done m)
            (Message.with_content (Message.content m) n)
     else n) <$> MessageTree.get i tr.
Proof.
  destruct tr as [ns]. unfold MessageTree.get, MessageTree.updateMessage.
  cbn [MessageTree.nodes].
  induction ns as [|n ns IH]; [done|]. cbn [List.map find].
  destruct (String.eqb (Message.id n) (Message.id m)) eqn:E;
    cbn [Message.id Message.with_done Message.with_content];
    destruct (String.eqb (Message.id n) i); try done;
    cbn [fmap option_fmap option_map]; by rewrite E.
Qed.

(** ** The error event *)
Lemma deliver_all_app es es' t w :
  deliver_all (es ++ es') t w =
  (t' <- deliver_all es t ;; deliver_all es' t') w.
Proof.
  revert t w. induction es as [|e es IH]; intros t w; [reflexivity|].
  cbn [app deliver_all]. unfold bind in *.
  destruct (deliver e t w) as [t' w'|x w']; [|done]. apply IH.
Qed.

(** A run of data events goes through, and leaves the last text on the
    reply. *)
Lemma deliver_data_runs ds t w c :
  heap w !! turn_chat t = Some c ->
  Chat.id c <> "error" ->
  exists t' w' c',
    deliver_all (List.map Data ds) t w = Returned t' w' /\
    turn_chat t' = turn_chat t /\
    heap w' !! turn_chat t = Some c' /\
    Chat.id c' = Chat.id c /\
    Message.id (reply t') = Message.id (reply t) /\
    Message.content (reply t') = default (Message.content (reply t)) (last ds).
Proof.
  revert t w c. induction ds as [|d ds IH]; intros t w c Hc Hid.
  - exists t, w, c. by repeat split.
  - destruct (on_data_runs d t w c Hc Hid) as (w1 & Hrun & Hh & _).
    cbn [List.map deliver_all deliver]. unfold bind. rewrite Hrun.
    set (t1 := with_reply (Message.with_content d (reply t)) t) in *.
    assert (Hc1 : heap w1 !! turn_chat t1 = Some
              (Chat.with_messages
                 (MessageTree.updateMessage (Message.with_content d (reply t))
                    (Chat.messages c)) c)).
    { rewrite Hh. by eapply heap_assigned. }
    destruct (IH t1 w1 _ Hc1 Hid)
      as (t' & w' & c' & Hrun' & Hl & Hc' & Hid' & Hmid & Hcontent).
    exists t', w', c'. split; [exact Hrun'|]. subst t1.
    cbn [turn_chat reply with_reply Message.id Message.content
         Message.with_content Chat.id Chat.with_messages] in *.
    do 4 (split; [done|]). rewrite Hcontent.
    destruct ds as [|d' ds]; [done|].
    change (last (d :: d' :: ds)) with (last (d' :: ds)).
    destruct (last (d' :: ds)) eqn:E; [done|]. by apply last_None in E.
Qed.

(** C1.  For a reply turn whose chat object exists: an error event that
    finds the reply's content empty makes the content the fixed apology
    text and [done] true, on the reply and on its node of the tree; an
    error event that finds content is ignored, the turn and the world stay
    as they are.  After its assignments the handler emits the chat's id:
    for a chat whose id is the event name 'error' that throws, and the
    node of the tree carries the apology and [done] by then.  For a chat
    with another id and a stream of data events followed by an error
    event: when the last text delivered is not empty the error changes
    nothing and that text stays; when nothing was delivered (or the last
    text is empty) the reply ends as the apology with [done] true. *)
Theorem error_event_policy (t : Turn) (w : World) (c : Chat.t) :
  heap w !! turn_chat t = Some c ->
  (Message.content (reply t) = "" ->
   exists w' c',
     heap w' !! turn_chat t = Some c' /\
     (forall n,
        MessageTree.get (Message.id (reply t)) (Chat.messages c) = Some n ->
        MessageTree.get (Message.id (reply t)) (Chat.messages c') =
        Some (Message.with_done true (Message.with_content apology n))) /\
     if String.eqb (Chat.id c) "error"
     then on_error t w = Threw UnhandledError w'
     else
       exists t',
         on_error t w = Returned t' w' /\
         Message.content (reply t') = apology /\
         Message.done (reply t') = true) /\
  (Message.content (reply t) <> "" -> on_error t w = Returned t w) /\
  (Chat.id c <> "error" ->
   forall ds,
   exists t1 w1,
     deliver_all (List.map Data ds) t w = Returned t1 w1 /\
     Message.content (reply t1) = default (Message.content (reply t)) (last ds) /\
     (Message.content (reply t1) <> "" ->
      deliver_all (List.map Data ds ++ [Error]) t w = Returned t1 w1) /\
     (Message.content (reply t1) = "" ->
      exists t2 w2,
        deliver_all (List.map Data ds ++ [Error]) t w = Returned t2 w2 /\
        Message.content (reply t2) = apology /\
        Message.done (reply t2) = true)).
Proof.
  intros Hc. split; [|split].
  - intros Hempty.
    set (r := Message.with_done true (Message.with_content apology (reply t))).
    set (c' := Chat.with_updated (time_at (host w) (clock w))
                 (Chat.with_messages
                    (MessageTree.updateMessage r (Chat.messages c)) c)).
    assert (Hnode : forall n,
      MessageTree.get (Message.id (reply t)) (Chat.messages c) = Some n ->
      MessageTree.get (Message.id (reply t)) (Chat.messages c') =
      Some (Message.with_done true (Message.with_content apology n))).
    { intros n Hn. cbn [Chat.messages Chat.with_updated Chat.with_messages c'].
      rewrite get_updateMessage.
      cbn [Message.id Message.with_done Message.with_content r].
      rewrite Hn. cbn [fmap option_fmap option_map].
      unfold MessageTree.get in Hn. apply find_some in Hn as [_ Hn].
      by rewrite Hn. }
    destruct (String.eqb_spec (Chat.id c) "error") as [Hid|Hid].
    + eexists _, c'.
      split; [|split; [exact Hnode|]];
        [|exact (on_error_empty_throws t w c Hc Hempty Hid)].
      cbn [heap set_heap set_clock]. by eapply heap_assigned.
    + destruct (on_error_empty_runs t w c Hc Hempty Hid) as (w' & Hrun & Hh & _).
      exists w', c'. split; [rewrite Hh; by eapply heap_assigned|].
      split; [exact Hnode|]. exists (with_reply r t). by split.
  - apply on_error_ignored.
  - intros Hid ds.
    destruct (deliver_data_runs ds t w c Hc Hid)
      as (t1 & w1 & c1 & Hrun & Hl & Hc1 & Hid1 & _ & Hcontent).
    exists t1, w1. split; [exact Hrun|]. split; [exact Hcontent|].
    assert (Hthen : deliver_all (List.map Data ds ++ [Error]) t w =
                    on_error t1 w1).
    { rewrite deliver_all_app. unfold bind at 1. rewrite Hrun.
      cbn [deliver_all deliver]. unfold bind.
      by destruct (on_error t1 w1). }
    rewrite Hthen. split.
    + apply on_error_ignored.
    + intros Hempty. rewrite <- Hl in Hc1. rewrite <- Hid1 in Hid.
      destruct (on_error_empty_runs t1 w1 c1 Hc1 Hempty Hid) as (w2 & Hrun2 & _).
      eexists _, w2. rewrite Hrun2. by repeat split.
Qed.

Lemma error_event_policy_witness :
  let w := world_with [talk] in
  (exists t' w',
     on_error pending_turn w = Returned t' w' /\
     Message.content (reply t') = apology /\
     Message.done (reply t') = true) /\
  (exists t1 w1,
     deliver_all [Data "H"; Data "Hi"] pending_turn w = Returned t1 w1 /\
     Message.content (reply t1) = "Hi" /\
     deliver_all [Data "H"; Data "Hi"; Error] pending_turn w = Returned t1 w1).
Proof.
  intros w.
  destruct (error_event_policy pending_turn w talk eq_refl) as (H1 & _ & H3).
  split.
  - destruct (H1 eq_refl) as (w' & c' & _ & _ & t' & Hrun & Hc & Hd).
    exists t', w'. auto.
  - destruct (H3 ltac:(discriminate) ["H"; "Hi"])
      as (t1 & w1 & Hrun & Hcontent & Hfull & _).
    exists t1, w1. split; [exact Hrun|]. split; [exact Hcontent|].
    apply Hfull. rewrite Hcontent. discriminate.
Defined.

(** ** The [updated] timestamp *)

(** C5 (amended).  For a chat object [c] at [l]: [sendMessage] leaves
    [updated] at the reading of [Date.now] taken after the insertion of
    the pending reply, the error event on an empty reply and the done
    event set it to the reading they take, and a data event replaces the
    reply's content in the tree and leaves [updated] as it was, without
    reading the clock.  Each of them emits the chat's id after its
    assignments; for a chat whose id is the event name 'error' that
    throws, with [updated] set as for any chat, except that [sendMessage]
    stops at the reading taken after the insertion of the user message.
    When the clock does not run backwards and [c] is not from the future,
    every such reading is at least [updated c]. *)
Theorem updated_bump_policy (w : World) (l : loc) (c : Chat.t) :
  heap w !! l = Some c ->
  let unheard := String.eqb (Chat.id c) "error" in
  (forall message,
      JsMap.get (sub_chatID message) (chats w) = Some l ->
      Chat.id c = sub_chatID message ->
      exists t w' c',
        sendMessage message w =
          (if unheard then Threw UnhandledError w' else Returned t w') /\
        heap w' !! l = Some c' /\
        clock w' = (if unheard then 2 else 4) + clock w /\
        Chat.updated c' =
          time_at (host w) ((if unheard then 1 else 3) + clock w)) /\
  (forall t, turn_chat t = l -> Message.content (reply t) = "" ->
      exists t' w' c',
        on_error t w =
          (if unheard then Threw UnhandledError w' else Returned t' w') /\
        heap w' !! l = Some c' /\
        clock w' = 1 + clock w /\
        Chat.updated c' = time_at (host w) (clock w)) /\
  (forall t, turn_chat t = l ->
      exists r w' c',
        on_done t w =
          (if unheard then Threw UnhandledError w' else Returned r w') /\
        heap w' !! l = Some c' /\
        clock w' = 1 + clock w /\
        Chat.updated c' = time_at (host w) (clock w)) /\
  (forall t d, turn_chat t = l ->
      exists t' w' c',
        on_data d t w =
          (if unheard then Threw UnhandledError w' else Returned t' w') /\
        heap w' !! l = Some c' /\
        Chat.messages c' =
          MessageTree.updateMessage (Message.with_content d (reply t))
            (Chat.messages c) /\
        clock w' = clock w /\
        Chat.updated c' = Chat.updated c) /\
  ((forall i j, i <= j -> (time_at (host w) i <= time_at (host w) j)%Z) ->
   (Chat.updated c <= time_at (host w) (clock w))%Z ->
   forall k, (Chat.updated c <= time_at (host w) (k + clock w))%Z).
Proof.
  intros Hc unheard. subst unheard.
  destruct (String.eqb_spec (Chat.id c) "error") as [Hne|Hne];
    (split; [|split; [|split; [|split]]]).
  - intros message Hget Hid.
    eexists (mkTurn (reply pending_turn) l []), _, _.
    split; [exact (sendMessage_throws message w l c Hget Hc Hne)|].
    split; [cbn [heap set_heap set_clock set_uuids]; by eapply heap_assigned|].
    by split.
  - intros t <- Hempty. eexists t, _, _.
    split; [exact (on_error_empty_throws t w c Hc Hempty Hne)|].
    split; [cbn [heap set_heap set_clock]; by eapply heap_assigned|].
    by split.
  - intros t <-. eexists (t, true), _, _.
    split; [exact (on_done_throws t w c Hc Hne)|].
    split; [cbn [heap set_heap set_clock]; by eapply heap_assigned|].
    by split.
  - intros t d <-. eexists t, _, _.
    split; [exact (on_data_throws d t w c Hc Hne)|].
    split; [cbn [heap set_heap]; by eapply heap_assigned|].
    by repeat split.
  - intros Hmono Hpast k. etrans; [exact Hpast|]. apply Hmono. lia.
  - intros message Hget Hid.
    destruct (sendMessage_runs message w l c Hget Hc Hid Hne)
      as (w' & Hrun & Hh & _ & _ & Hcl & _).
    eexists _, w', _. split; [exact Hrun|].
    split; [rewrite Hh; by eapply heap_assigned|]. by split.
  - intros t <- Hempty.
    destruct (on_error_empty_runs t w c Hc Hempty Hne)
      as (w' & Hrun & Hh & _ & _ & Hcl & _).
    eexists _, w', _. split; [exact Hrun|].
    split; [rewrite Hh; by eapply heap_assigned|]. by split.
  - intros t <-.
    destruct (on_done_runs t w c Hc Hne) as (w' & Hrun & Hh & _ & _ & Hcl & _).
    eexists _, w', _. split; [exact Hrun|].
    split; [rewrite Hh; by eapply heap_assigned|]. by split.
  - intros t d <-.
    destruct (on_data_runs d t w c Hc Hne) as (w' & Hrun & Hh & _ & _ & Hcl & _).
    eexists _, w', _. split; [exact Hrun|].
    split; [rewrite Hh; by eapply heap_assigned|]. by repeat split.
  - intros Hmono Hpast k. etrans; [exact Hpast|]. apply Hmono. lia.
Qed.

Lemma updated_bump_policy_witness :
  let w := world_with [talk] in
  (exists r w' c',
     on_done pending_turn w = Returned r w' /\
     heap w' !! 0 = Some c' /\
     Chat.updated c' = 1000%Z) /\
  (exists t' w' c',
     on_data "Hi" pending_turn w = Returned t' w' /\
     heap w' !! 0 = Some c' /\
     Chat.updated c' = 5%Z).
Proof.
  intros w.
  destruct (updated_bump_policy w 0 talk eq_refl) as (_ & _ & Hdone & Hdata & _).
  split.
  - destruct (Hdone pending_turn eq_refl) as (r & w' & c' & Hrun & Hc & _ & Hup).
    exists r, w', c'. split; [exact Hrun|]. auto.
  - destruct (Hdata pending_turn "Hi" eq_refl)
      as (t' & w' & c' & Hrun & Hc & _ & _ & Hup).
    exists t', w', c'. split; [exact Hrun|]. auto.
Defined.

(** C5 as stated fails on the data event: it replaces the content of the
    streaming reply in the chat's tree and leaves [updated] at its old
    value, which is not the time of the event. *)
Lemma data_event_keeps_updated :
  let w := world_with [talk] in
  exists (t' : Turn) (w' : World) (c' : Chat.t),
    on_data "Hi" pending_turn w = Returned t' w' /\
    heap w' !! 0 = Some c' /\
    (Message.content <$> MessageTree.get "r1" (Chat.messages talk)) = Some "" /\
    (Message.content <$> MessageTree.get "r1" (Chat.messages c')) = Some "Hi" /\
    Chat.updated c' = Chat.updated talk /\
    Chat.updated c' <> time_at (host w') (clock w').
Proof.
  intros w. eexists _, _, _.
  split; [vm_compute; reflexivity|].
  split; [vm_compute; reflexivity|].
  split; [reflexivity|].
  split; [reflexivity|].
  split; [reflexivity|].
  discriminate.
Qed.

(** ** Frames: what a computation leaves alone *)
Section frames.
Context (P : World -> World -> Prop) `{!PreOrder P}.

Lemma keeps_ret {A} (a : A) : keeps P (ret a).
Proof. intros w. reflexivity. Qed.

Lemma keeps_throw {A} e : keeps P (@throw A e).
Proof. intros w. reflexivity. Qed.

Lemma keeps_gets {A} (f : World -> A) : keeps P (gets f).
Proof. intros w. reflexivity. Qed.

Lemma keeps_deref l : keeps P (deref l).
Proof. intros w. unfold deref. destruct (heap w !! l); reflexivity. Qed.

Lemma keeps_modify f : (forall w, P w (f w)) -> keeps P (modify f).
Proof. intros H w. apply H. Qed.

Lemma keeps_bind {A B} (c : M A) (k : A -> M B) :
  keeps P c -> (forall a, keeps P (k a)) -> keeps P (bind c k).
Proof.
  intros Hc Hk w. unfold bind. specialize (Hc w).
  destruct (c w) as [a w'|e w']; cbn [world_of] in *; [|done].
  etrans; [exact Hc|]. apply Hk.
Qed.

Lemma keeps_deref_all ls : keeps P (deref_all ls).
Proof.
  induction ls as [|l ls IH]; cbn [deref_all]; [apply keeps_ret|].
  apply keeps_bind; [apply keeps_deref|]. intros c.
  apply keeps_bind; [exact IH|]. intros cs. apply keeps_ret.
Qed.
End frames.

(** ** The background loop *)

#[local] Instance same_persistence_preorder : PreOrder same_persistence.
Proof.
  split.
  - by intros w.
  - intros w1 w2 w3 (H1 & H2 & H3) (H4 & H5 & H6).
    repeat split; congruence.
Qed.

Lemma emit_keeps_persistence name args : keeps same_persistence (emit name args).
Proof.
  intros w. rewrite emit_outcome.
  destruct (String.eqb name "error"); cbn [world_of]; [done|].
  repeat split;
    [apply idb_calls_after_emit | apply store_after_emit
    | apply loop_alive_after_emit].
Qed.

Lemma loadChat_keeps_persistence l : keeps same_persistence (loadChat l).
Proof.
  unfold loadChat. apply (keeps_bind same_persistence); [apply (keeps_deref same_persistence)|]. intros c.
  destruct (negb (Js.truthy (Chat.id c))); [apply (keeps_ret same_persistence)|].
  apply (keeps_bind same_persistence); [by apply (keeps_modify same_persistence)|]. intros _.
  apply (keeps_bind same_persistence); [|intros _; apply emit_keeps_persistence].
  unfold search_update. apply (keeps_bind same_persistence); [apply (keeps_deref same_persistence)|].
  intros c'. by apply (keeps_modify same_persistence).
Qed.

Lemma load_each_keeps_persistence stored :
  keeps same_persistence (load_each stored).
Proof.
  induction stored as [|s stored IH]; cbn [load_each]; [apply (keeps_ret same_persistence)|].
  apply (keeps_bind same_persistence).
  - unfold alloc. apply (keeps_bind same_persistence); [apply (keeps_gets same_persistence)|]. intros l.
    apply (keeps_bind same_persistence); [by apply (keeps_modify same_persistence)|]. intros _. apply (keeps_ret same_persistence).
  - intros l. apply (keeps_bind same_persistence); [apply loadChat_keeps_persistence|].
    intros _. exact IH.
Qed.

Lemma load_keeps_persistence : keeps same_persistence load.
Proof.
  unfold load. apply (keeps_bind same_persistence); [apply (keeps_gets same_persistence)|]. intros [stored|].
  - apply (keeps_bind same_persistence); [|intros _; by apply (keeps_modify same_persistence)].
    apply (keeps_bind same_persistence); [apply load_each_keeps_persistence|].
    intros _. apply emit_keeps_persistence.
  - apply (keeps_bind same_persistence); [apply (keeps_ret same_persistence)|]. intros _. by apply (keeps_modify same_persistence).
Qed.

Lemma wake_ended answer w : loop_alive w = false -> wake answer w = w.
Proof. intros H. unfold wake. by rewrite H. Qed.

Lemma step_after_end e w :
  loop_alive w = false -> same_persistence w (step e w).
Proof.
  intros Hdead. destruct e as [answer|name|]; cbn [step].
  - by rewrite wake_ended.
  - apply emit_keeps_persistence.
  - apply load_keeps_persistence.
Qed.

Lemma run_after_end es w :
  loop_alive w = false -> same_persistence w (run es w).
Proof.
  revert w. induction es as [|e es IH]; intros w Hdead; [done|].
  cbn [run fold_left]. pose proof (step_after_end e w Hdead) as Hs.
  etrans; [exact Hs|]. apply IH. destruct Hs as (_ & _ & ->). exact Hdead.
Qed.

(** Reading all objects of a well-formed map. *)
Lemma deref_all_runs ls w :
  Forall (fun l => l < length (heap w)) ls ->
  exists cs,
    deref_all ls w = Returned cs w /\
    List.map fst cs = ls /\
    Forall (fun p => heap w !! fst p = Some (snd p)) cs.
Proof.
  induction 1 as [|l ls Hl _ (cs & Hrun & Hfst & Hall)].
  - exists []. by repeat split.
  - destruct (lookup_lt_is_Some_2 _ _ Hl) as [c Hc].
    exists ((l, c) :: cs). cbn [deref_all].
    rewrite (bind_deref l c _ w Hc). unfold bind at 1. rewrite Hrun.
    split; [done|]. split; [cbn; by rewrite Hfst|].
    by constructor.
Qed.

Lemma save_runs answer w :
  refs_ok w ->
  exists ser,
    Forall2 (fun l s => exists c, heap w !! l = Some c /\ s = serialize_chat c)
      (JsMap.values (chats w)) ser /\
    save answer w =
    match answer with
    | Ack =>
        Returned tt
          (set_store (Some ser) (set_idb_calls (idb_calls w ++ [ser]) w))
    | Rejected =>
        Threw StoreRejected (set_idb_calls (idb_calls w ++ [ser]) w)
    end.
Proof.
  intros Hrefs.
  destruct (deref_all_runs _ w Hrefs) as (cs & Hrun & Hfst & Hall).
  exists (List.map (fun p => serialize_chat (snd p)) cs). split.
  - rewrite <- Hfst. clear Hrun Hfst.
    induction Hall as [|[l c] cs Hc _ IH]; cbn [List.map]; constructor; eauto.
  - unfold save. rewrite bind_gets. unfold bind at 1. rewrite Hrun.
    rewrite bind_modify. by destruct answer.
Qed.

(** C9 (amended).  One wake-up of the background loop hands a snapshot to
    the durable store only if the loop still runs, the initial load has
    completed and the dirty flag is set.  It then clears the flag and
    hands over the serialized form of every chat of the map.  When the
    store acknowledges, the snapshot is stored and the loop goes on, so a
    later wake-up flushes again once the flag is set again.  When the
    store rejects, the exception ends the loop: whatever happens later,
    nothing is handed to the store any more. *)
Theorem flush_policy (answer : IdbAnswer) (w : World) :
  (idb_calls (wake answer w) <> idb_calls w ->
   loop_alive w = true /\ loaded w = true /\ changed w = true) /\
  (loop_alive w = true -> loaded w = true -> changed w = true -> refs_ok w ->
   exists ser,
     Forall2 (fun l s => exists c, heap w !! l = Some c /\ s = serialize_chat c)
       (JsMap.values (chats w)) ser /\
     idb_calls (wake answer w) = idb_calls w ++ [ser] /\
     changed (wake answer w) = false /\
     match answer with
     | Ack =>
         store (wake answer w) = Some ser /\ loop_alive (wake answer w) = true
     | Rejected =>
         store (wake answer w) = store w /\ loop_alive (wake answer w) = false
     end) /\
  (loop_alive w = false ->
   forall es,
     idb_calls (run es w) = idb_calls w /\
     store (run es w) = store w /\
     loop_alive (run es w) = false).
Proof.
  split; [|split].
  - intros Hflush. unfold wake, loop_body in Hflush.
    destruct (loop_alive w); [|done].
    rewrite !bind_gets in Hflush.
    destruct (loaded w); [|done]. destruct (changed w); done.
  - intros Halive Hloaded Hchanged Hrefs.
    assert (Hrefs' : refs_ok (set_changed false w)) by exact Hrefs.
    destruct (save_runs answer (set_changed false w) Hrefs')
      as (ser & Hser & Hsave).
    exists ser. split; [exact Hser|].
    unfold wake, loop_body. rewrite Halive, !bind_gets, Hloaded, Hchanged.
    cbn [andb]. rewrite bind_modify, Hsave.
    destruct answer; cbn; by rewrite ?Halive.
  - intros Hdead es.
    destruct (run_after_end es w Hdead) as (H1 & H2 & H3).
    repeat split; congruence.
Qed.

Lemma flush_policy_witness :
  let w := set_changed true (world_with [talk]) in
  exists ser,
    idb_calls (wake Rejected w) = [ser] /\
    loop_alive (wake Rejected w) = false /\
    forall es, idb_calls (run es (wake Rejected w)) = [ser].
Proof.
  intros w.
  destruct (flush_policy Rejected w) as (_ & Hflush & _).
  destruct Hflush as (ser & _ & Hcalls & _ & _ & Hdead);
    [reflexivity..| |].
  { repeat constructor. }
  exists ser. split; [exact Hcalls|]. split; [exact Hdead|].
  intros es.
  destruct (flush_policy Rejected (wake Rejected w)) as (_ & _ & Hend).
  destruct (Hend Hdead es) as (-> & _). exact Hcalls.
Defined.

(** C9 as stated fails: after a save that the store rejects, the flag is
    set again and the loop would wake up twice more, and no second
    attempt is made; after a save that the store acknowledges, the same
    events do flush again. *)
Lemma failed_flush_is_not_retried :
  let w := world_with [talk] in
  let after_failure :=
    run [Emit "update"; Wake Rejected; Emit "update"; Wake Ack; Wake Ack] w in
  let after_success :=
    run [Emit "update"; Wake Ack; Emit "update"; Wake Ack; Wake Ack] w in
  (loaded after_failure = true /\
   changed after_failure = true /\
   length (idb_calls after_failure) = 1 /\
   store after_failure = None) /\
  (changed after_success = false /\
   length (idb_calls after_success) = 2 /\
   store after_success = Some [serialize_chat talk]).
Proof. vm_compute. repeat split. Qed.

(** ** The tree: serialize and reconstruct *)
Lemma has_false i tr :
  MessageTree.has i tr = false <-> i ∉ tree_ids tr.
Proof.
  destruct tr as [ns]. unfold MessageTree.has, MessageTree.get, tree_ids.
  cbn [MessageTree.nodes].
  induction ns as [|n ns IH]; cbn [find List.map].
  - split; [intros _; apply not_elem_of_nil|done].
  - rewrite not_elem_of_cons.
    destruct (String.eqb (Message.id n) i) eqn:E.
    + apply String.eqb_eq in E. split; [done|]. intros [Hne _]. congruence.
    + apply String.eqb_neq in E. rewrite IH. split; [|tauto].
      intros H. split; [congruence|done].
Qed.

Lemma tree_ids_addMessage m tr :
  MessageTree.has (Message.id m) tr = false ->
  tree_ids (MessageTree.addMessage m tr) = tree_ids tr ++ [Message.id m].
Proof.
  intros H. unfold MessageTree.addMessage. rewrite H.
  unfold tree_ids. cbn [MessageTree.nodes]. by rewrite map_app.
Qed.

Lemma tree_ids_updateMessage m tr :
  tree_ids (MessageTree.updateMessage m tr) = tree_ids tr.
Proof.
  unfold tree_ids, MessageTree.updateMessage. cbn [MessageTree.nodes].
  rewrite map_map. apply map_ext. intros n.
  by destruct (String.eqb (Message.id n) (Message.id m)).
Qed.

Lemma built_NoDup tr : built tr -> NoDup (tree_ids tr).
Proof.
  induction 1 as [|m tr _ IH (_ & Hnew & _)|m tr _ IH].
  - constructor.
  - rewrite tree_ids_addMessage by done.
    apply NoDup_app. split; [done|]. split; [|apply NoDup_singleton].
    intros i Hi Hin. apply list_elem_of_singleton in Hin. subst i.
    by apply has_false in Hnew.
  - by rewrite tree_ids_updateMessage.
Qed.

Lemma reconstruct_from acc ms :
  NoDup (List.map Message.id (acc ++ ms)) ->
  fold_left (fun messages m => MessageTree.addMessage m messages) ms
    (MessageTree.mk acc) = MessageTree.mk (acc ++ ms).
Proof.
  revert acc. induction ms as [|m ms IH]; intros acc Hnd; cbn [fold_left].
  - by rewrite app_nil_r.
  - assert (Hnew : MessageTree.has (Message.id m) (MessageTree.mk acc) = false).
    { apply has_false. unfold tree_ids. cbn [MessageTree.nodes].
      rewrite map_app in Hnd. apply NoDup_app in Hnd as (_ & Hdisj & _).
      intros Hin. apply (Hdisj _ Hin). cbn [List.map]. apply list_elem_of_here. }
    unfold MessageTree.addMessage at 2. rewrite Hnew. cbn [MessageTree.nodes].
    rewrite IH; rewrite <- app_assoc; done.
Qed.

Lemma reconstruct_built tr :
  built tr -> reconstruct (MessageTree.serialize tr) = tr.
Proof.
  intros Hb. pose proof (built_NoDup tr Hb) as Hnd. destruct tr as [ns].
  unfold reconstruct, MessageTree.serialize, MessageTree.empty.
  cbn [MessageTree.nodes]. by rewrite reconstruct_from.
Qed.

(** What [load] allocates for a chat that [save] serialized is that chat. *)
Lemma load_restores_chat c :
  built (Chat.messages c) ->
  Chat.mk (s_id (serialize_chat c)) (s_title (serialize_chat c))
    (reconstruct (s_messages (serialize_chat c)))
    (s_created (serialize_chat c)) (s_updated (serialize_chat c)) = c.
Proof.
  intros Hb. cbn [serialize_chat s_id s_title s_messages s_created s_updated].
  rewrite reconstruct_built by done. by destruct c.
Qed.

(** C6.  For a tree built from valid insertions and updates in place,
    inserting the messages of its serialized form one by one into an
    empty tree gives the tree back: the same ids in the same order, the
    same message under every id (so the same content and [done]), and the
    same parent link for every node. *)
Theorem reconstruct_serialize (tr : MessageTree.t) :
  built tr ->
  reconstruct (MessageTree.serialize tr) = tr /\
  tree_ids (reconstruct (MessageTree.serialize tr)) = tree_ids tr /\
  (forall i,
      MessageTree.get i (reconstruct (MessageTree.serialize tr)) =
      MessageTree.get i tr) /\
  (forall n,
      MessageTree.parent n (reconstruct (MessageTree.serialize tr)) =
      MessageTree.parent n tr).
Proof.
  intros Hb. rewrite (reconstruct_built tr Hb). done.
Qed.

Lemma valid_insertion_sample1 :
  valid_insertion (opening "c1/1" "c1" "Hello") MessageTree.empty.
Proof. by repeat split. Qed.

Lemma valid_insertion_sample2 :
  valid_insertion pending_reply
    (MessageTree.addMessage (opening "c1/1" "c1" "Hello") MessageTree.empty).
Proof. by repeat split. Qed.

Lemma built_sample :
  built (MessageTree.updateMessage (Message.with_content "Hi" pending_reply)
           (Chat.messages talk)).
Proof.
  apply built_update. apply built_add; [|exact valid_insertion_sample2].
  apply built_add; [apply built_empty|exact valid_insertion_sample1].
Qed.

Lemma reconstruct_serialize_witness :
  let tr := MessageTree.updateMessage (Message.with_content "Hi" pending_reply)
              (Chat.messages talk) in
  reconstruct (MessageTree.serialize tr) = tr /\
  (Message.content <$> MessageTree.get "r1" (reconstruct (MessageTree.serialize tr)))
    = Some "Hi".
Proof.
  intros tr.
  destruct (reconstruct_serialize tr built_sample) as (Heq & _ & Hget & _).
  split; [exact Heq|]. by rewrite Hget.
Defined.

(** ** The chain to a message *)
Lemma get_Some i tr n :
  MessageTree.get i tr = Some n -> n ∈ MessageTree.nodes tr /\ Message.id n = i.
Proof.
  unfold MessageTree.get. intros H. apply find_some in H as [Hin Heq].
  split; [by apply list_elem_of_In|by apply String.eqb_eq].
Qed.

Lemma get_of_lookup tr k n :
  NoDup (tree_ids tr) ->
  MessageTree.nodes tr !! k = Some n ->
  MessageTree.get (Message.id n) tr = Some n.
Proof.
  destruct tr as [ns]. unfold tree_ids, MessageTree.get.
  cbn [MessageTree.nodes]. revert k.
  induction ns as [|x ns IH]; intros k Hnd Hk; [done|].
  cbn [List.map] in Hnd. apply NoDup_cons in Hnd as [Hx Hnd].
  cbn [find]. destruct k as [|k]; cbn in Hk.
  - injection Hk as ->. by rewrite String.eqb_refl.
  - destruct (String.eqb (Message.id x) (Message.id n)) eqn:E.
    + apply String.eqb_eq in E. exfalso. apply Hx. rewrite E.
      apply list_elem_of_In, in_map, list_elem_of_In.
      by eapply list_elem_of_lookup_2.
    + by eapply IH.
Qed.

Lemma built_parents_first tr : built tr -> parents_first tr.
Proof.
  induction 1 as [|m tr Hb IH (_ & Hnew & Hparent)|m tr Hb IH].
  - intros k n p Hk. done.
  - unfold MessageTree.addMessage. rewrite Hnew.
    intros k n p Hk Hp Ht. cbn [MessageTree.nodes] in *.
    destruct (decide (k < length (MessageTree.nodes tr))) as [Hlt|Hge].
    + rewrite lookup_app_l in Hk by done.
      destruct (IH k n p Hk Hp Ht) as (j & pn & Hj & Hpn & Hid).
      exists j, pn. split; [done|]. split; [|done].
      rewrite lookup_app_l by lia. done.
    + rewrite lookup_app_r in Hk by lia.
      destruct (k - length (MessageTree.nodes tr)) as [|d] eqn:Hd; [|done].
      cbn in Hk. injection Hk as <-. rewrite Hp in Hparent.
      specialize (Hparent Ht). unfold MessageTree.has in Hparent.
      destruct (MessageTree.get p tr) as [pn|] eqn:Hget; [|done].
      apply get_Some in Hget as [Hin Hid].
      apply list_elem_of_lookup in Hin as [j Hj].
      exists j, pn. split; [|split; [|done]].
      * apply lookup_lt_Some in Hj. lia.
      * by apply lookup_app_l_Some.
  - intros k n p Hk Hp Ht. unfold MessageTree.updateMessage in *.
    cbn [MessageTree.nodes] in *.
    set (g := fun n0 : Message.t =>
                if String.eqb (Message.id n0) (Message.id m)
                then Message.with_done (Message.done m)
                       (Message.with_content (Message.content m) n0)
                else n0) in *.
    assert (Hg : forall x, Message.id (g x) = Message.id x /\
                           Message.parentID (g x) = Message.parentID x).
    { intros x. unfold g. by destruct (String.eqb _ _). }
    change (List.map g (MessageTree.nodes tr))
      with (g <$> MessageTree.nodes tr) in *.
    rewrite list_lookup_fmap in Hk.
    destruct (MessageTree.nodes tr !! k) as [n0|] eqn:Hk0; [|done].
    cbn in Hk. injection Hk as <-.
    destruct (Hg n0) as [_ Hpar]. rewrite Hpar in Hp.
    destruct (IH k n0 p Hk0 Hp Ht) as (j & pn & Hj & Hpn & Hid).
    exists j, (g pn). split; [done|]. split.
    + by rewrite list_lookup_fmap, Hpn.
    + by rewrite (proj1 (Hg pn)).
Qed.

Lemma chain_up_path tr :
  NoDup (tree_ids tr) ->
  parents_first tr ->
  forall fuel k n acc,
    MessageTree.nodes tr !! k = Some n ->
    k < fuel ->
    exists ms,
      MessageTree.chain_up fuel tr (Message.id n) acc = ms ++ acc /\
      chain_to tr n ms.
Proof.
  intros Hnd Hpf. induction fuel as [|fuel IH]; intros k n acc Hk Hlt; [lia|].
  pose proof (get_of_lookup tr k n Hnd Hk) as Hget.
  cbn [MessageTree.chain_up]. rewrite Hget.
  destruct (Message.parentID n) as [p|] eqn:Hp.
  - destruct (Js.truthy p) eqn:Ht.
    + destruct (Hpf k n p Hk Hp Ht) as (j & pn & Hj & Hpn & <-).
      destruct (IH j pn (n :: acc) Hpn ltac:(lia)) as (ms & Hrun & Hchain).
      exists (ms ++ [n]). rewrite Hrun, <- app_assoc. split; [done|].
      apply chain_step with pn; [done| |done].
      unfold MessageTree.parent. rewrite Hp, Ht.
      by eapply get_of_lookup.
    + exists [n]. split; [done|]. apply chain_root; [done|].
      unfold MessageTree.parent. by rewrite Hp, Ht.
  - exists [n]. split; [done|]. apply chain_root; [done|].
    unfold MessageTree.parent. by rewrite Hp.
Qed.

(** In a tree built from valid insertions, [getMessageChainTo] returns
    the path from a root down to the message asked for. *)
Lemma getMessageChainTo_path tr i n :
  built tr ->
  MessageTree.get i tr = Some n ->
  chain_to tr n (MessageTree.getMessageChainTo i tr).
Proof.
  intros Hb Hget. apply get_Some in Hget as [Hin <-].
  apply list_elem_of_lookup in Hin as [k Hk].
  destruct (chain_up_path tr (built_NoDup tr Hb) (built_parents_first tr Hb)
              (length (MessageTree.nodes tr)) k n [] Hk)
    as (ms & Hrun & Hchain).
  { by eapply lookup_lt_Some. }
  unfold MessageTree.getMessageChainTo. rewrite Hrun, app_nil_r. exact Hchain.
Qed.

(** ** Sending a message *)

Lemma context_is_path (m : Message.t) (tr : MessageTree.t) :
  built tr ->
  valid_insertion m tr ->
  chain_to (MessageTree.addMessage m tr) m
    (match Message.parentID m with
     | Some p =>
         if Js.truthy p
         then MessageTree.getMessageChainTo p (MessageTree.addMessage m tr)
         else []
     | None => []
     end ++ [m]).
Proof.
  intros Hb Hvalid.
  pose proof (built_add m tr Hb Hvalid) as Hb'.
  pose proof (built_NoDup _ Hb') as Hnd'.
  destruct Hvalid as (_ & Hnew & Hparent).
  assert (Hnodes : MessageTree.nodes (MessageTree.addMessage m tr) =
                   MessageTree.nodes tr ++ [m]).
  { unfold MessageTree.addMessage. by rewrite Hnew. }
  assert (Hm : MessageTree.get (Message.id m) (MessageTree.addMessage m tr)
               = Some m).
  { apply (get_of_lookup _ (length (MessageTree.nodes tr))); [done|].
    rewrite Hnodes. apply list_lookup_middle. done. }
  destruct (Message.parentID m) as [p|] eqn:Hp.
  - destruct (Js.truthy p) eqn:Ht.
    + specialize (Hparent eq_refl). unfold MessageTree.has in Hparent.
      destruct (MessageTree.get p tr) as [pn|] eqn:Hget; [|done].
      apply get_Some in Hget as [Hin <-].
      apply list_elem_of_lookup in Hin as [j Hj].
      assert (Hpn : MessageTree.get (Message.id pn) (MessageTree.addMessage m tr)
                    = Some pn).
      { apply (get_of_lookup _ j); [done|].
        rewrite Hnodes. by apply lookup_app_l_Some. }
      apply chain_step with pn; [done| |].
      * unfold MessageTree.parent. by rewrite Hp, Ht.
      * by apply getMessageChainTo_path.
    + apply chain_root; [done|]. unfold MessageTree.parent. by rewrite Hp, Ht.
  - apply chain_root; [done|]. unfold MessageTree.parent. by rewrite Hp.
Qed.

(** C4 (amended).  [sendMessage] on a chat that exists inserts a user
    message whose [parentID] is the parent the submission states; with no
    stated parent the new message has no parent link, it is a root of its
    own.  After the insertion [sendMessage] emits the chat's id: for a chat
    whose id is the event name 'error' that throws, the message is in the
    tree, nothing was posted and no reply turn starts.  For every other
    chat a reply turn starts.  With a stated parent its context is the
    chain to that parent, read after the insertion, with the new message
    appended; with no stated parent the context is the new message alone.
    When the tree was built from valid insertions and the new message is
    one, the context is the path from a root of the tree down to the new
    message. *)
Theorem sendMessage_context (message : UserSubmittedMessage) (w : World)
    (l : loc) (c : Chat.t) :
  JsMap.get (sub_chatID message) (chats w) = Some l ->
  heap w !! l = Some c ->
  Chat.id c = sub_chatID message ->
  exists (w' : World) (newMessage : Message.t) (c' : Chat.t),
    Message.id newMessage = uuid_at (host w) (uuids w) /\
    Message.parentID newMessage = sub_parentID message /\
    Message.role newMessage = user /\
    Message.content newMessage = sub_content message /\
    let tr := MessageTree.addMessage newMessage (Chat.messages c) in
    heap w' !! l = Some c' /\
    (Js.truthy_opt (sub_parentID message) = false ->
     MessageTree.parent newMessage tr = None) /\
    if String.eqb (Chat.id c) "error"
    then
      sendMessage message w = Threw UnhandledError w' /\
      Chat.messages c' = tr /\
      posted w' = posted w
    else
      exists (t : Turn),
        sendMessage message w = Returned t w' /\
        Chat.messages c' = MessageTree.addMessage (reply t) tr /\
        Message.parentID (reply t) = Some (Message.id newMessage) /\
        context t =
          match sub_parentID message with
          | Some p =>
              if Js.truthy p then MessageTree.getMessageChainTo p tr else []
          | None => []
          end ++ [newMessage] /\
        (Js.truthy_opt (sub_parentID message) = false ->
         context t = [newMessage]) /\
        (built (Chat.messages c) ->
         valid_insertion newMessage (Chat.messages c) ->
         chain_to tr newMessage (context t)).
Proof.
  intros Hget Hc Hid.
  set (newMessage :=
    Message.mk (uuid_at (host w) (uuids w)) (Chat.id c) (sub_parentID message)
      (time_at (host w) (clock w)) user (sub_content message) true).
  assert (Hroot : Js.truthy_opt (sub_parentID message) = false ->
    MessageTree.parent newMessage
      (MessageTree.addMessage newMessage (Chat.messages c)) = None).
  { intros Hnone. unfold MessageTree.parent. cbn [Message.parentID newMessage].
    destruct (sub_parentID message) as [p|]; [|done].
    cbn [Js.truthy_opt] in Hnone. by rewrite Hnone. }
  destruct (String.eqb_spec (Chat.id c) "error") as [Hne|Hne].
  - eexists _, newMessage, _.
    do 4 (split; [reflexivity|]). cbn zeta.
    split; [|split; [exact Hroot|]];
      [|split; [exact (sendMessage_throws message w l c Hget Hc Hne)|]].
    + cbn [heap set_heap set_clock set_uuids]. by eapply heap_assigned.
    + by split.
  - destruct (sendMessage_runs message w l c Hget Hc Hid Hne)
      as (w' & Hrun & Hh & _).
    eexists w', newMessage, _.
    do 4 (split; [reflexivity|]). cbn zeta.
    split; [rewrite Hh; by eapply heap_assigned|].
    split; [exact Hroot|].
    eexists. split; [exact Hrun|].
    cbn [Message.id Message.parentID Message.role Message.content reply
         context newMessage].
    do 3 (split; [reflexivity|]). split.
    + intros Hnone. destruct (sub_parentID message) as [p|]; [|done].
      cbn [Js.truthy_opt] in Hnone. by rewrite Hnone.
    + apply context_is_path.
Qed.

Lemma sendMessage_context_witness :
  let w := world_with [chat_with "c1" None "Hello" 5] in
  exists (t : Turn) (w' : World),
    sendMessage (mkSubmission "c1" (Some "c1/1") "And then?") w = Returned t w' /\
    List.map Message.content (context t) = ["Hello"; "And then?"].
Proof.
  intros w.
  destruct (sendMessage_context (mkSubmission "c1" (Some "c1/1") "And then?") w 0
              (chat_with "c1" None "Hello" 5) eq_refl eq_refl eq_refl)
    as (w' & newMessage & c' & Hid & _ & _ & Hcontent & _ & _ & t & Hrun & _ & _
        & Hctx & _ & _).
  exists t, w'. split; [exact Hrun|].
  rewrite Hctx. destruct newMessage. cbn in Hid, Hcontent. subst.
  reflexivity.
Defined.

(** C4 as stated fails: on a chat that already has a root, a submission
    without a parent is not put under that root.  The new message has no
    parent, and the context is the new message alone, without the root. *)
Lemma sendMessage_without_parent_is_root :
  let w := world_with [chat_with "c1" None "Hello" 5] in
  let root := opening "c1/1" "c1" "Hello" in
  exists (t : Turn) (w' : World) (c' : Chat.t) (newMessage : Message.t),
    sendMessage (mkSubmission "c1" None "Another start") w = Returned t w' /\
    heap w' !! 0 = Some c' /\
    MessageTree.first (Chat.messages c') = Some root /\
    MessageTree.get "00000000-0000-4000-8000-000000000000" (Chat.messages c') =
      Some newMessage /\
    Message.content newMessage = "Another start" /\
    Message.parentID newMessage <> Some (Message.id root) /\
    MessageTree.parent newMessage (Chat.messages c') = None /\
    context t = [newMessage] /\
    root ∉ context t.
Proof.
  intros w root. eexists _, _, _, _.
  split; [vm_compute; reflexivity|].
  split; [vm_compute; reflexivity|].
  split; [vm_compute; reflexivity|].
  split; [vm_compute; reflexivity|].
  split; [reflexivity|].
  split; [discriminate|].
  split; [reflexivity|].
  split; [reflexivity|].
  intros Hin. apply list_elem_of_singleton in Hin. discriminate.
Qed.

(** ** Search results *)
Lemma truthy_append a b : Js.truthy (a +:+ b) = Js.truthy a || Js.truthy b.
Proof. by destruct a. Qed.

Lemma ellipsize_truthy s n : Js.truthy (ellipsize s n) = Js.truthy s.
Proof.
  unfold ellipsize. case_decide as H; [|done].
  rewrite truthy_append. destruct s; [cbn in H; lia|].
  cbn. by rewrite orb_true_r.
Qed.

Lemma length_substring_le n s : String.length (String.substring 0 n s) <= n.
Proof.
  revert s. induction n as [|n IH]; intros [|a s]; cbn; try lia.
  specialize (IH s). lia.
Qed.

Lemma length_append a b :
  String.length (a +:+ b) = String.length a + String.length b.
Proof.
  induction a as [|x a IH]; [done|].
  change (S (String.length (a +:+ b)) = S (String.length a + String.length b)).
  by rewrite IH.
Qed.

Lemma ellipsize_length s n : String.length (ellipsize s n) <= n + 3.
Proof.
  unfold ellipsize. case_decide as H; [|lia].
  rewrite length_append. pose proof (length_substring_le n s).
  cbn. lia.
Qed.

Lemma or_empty_truthy o : Js.truthy (Js.or_empty o) = Js.truthy_opt o.
Proof. destruct o as [s|]; [|done]. cbn. by destruct (Js.truthy s) eqn:E. Qed.

Lemma heap_fresh (h : list Chat.t) c : (h ++ [c]) !! length h = Some c.
Proof. by rewrite lookup_app_r, Nat.sub_diag. Qed.

Lemma heap_fresh_assign (h : list Chat.t) c c' :
  <[length h := c']> (h ++ [c]) = h ++ [c'].
Proof. by rewrite insert_app_r_alt, Nat.sub_diag. Qed.

Lemma processSearchResult_runs item w chatID stored c :
  item_id item w = Returned chatID w ->
  JsMap.get chatID (chats w) = Some stored ->
  heap w !! stored = Some c ->
  processSearchResult item w =
  Returned
    (if negb (Js.truthy_opt (Chat.title (titled_copy c)))
        || negb (Js.truthy (described c))
     then None
     else Some (mkOutput chatID (Js.or_empty (Chat.title (titled_copy c)))
                  (described c)))
    (set_heap (heap w ++ [titled_copy c]) w).
Proof.
  intros Hitem Hget Hc. unfold processSearchResult.
  unfold bind at 1. rewrite Hitem. rewrite bind_gets, Hget.
  rewrite (bind_deref stored c _ w Hc).
  unfold alloc. unfold bind at 1. rewrite bind_gets, bind_modify.
  unfold ret at 1.
  erewrite bind_deref by (cbn [heap set_heap]; apply heap_fresh).
  fold (described c). unfold titled_copy.
  destruct (Js.truthy_opt (Chat.title c)) eqn:Htitle; cbn [negb].
  - unfold bind at 1. unfold ret at 1.
    erewrite bind_deref by (cbn [heap set_heap]; apply heap_fresh).
    rewrite Htitle. cbn [negb orb].
    by destruct (Js.truthy (described c)).
  - erewrite bind_assign by (cbn [heap set_heap]; apply heap_fresh).
    cbn [heap set_heap]. rewrite heap_fresh_assign.
    erewrite bind_deref by (cbn [heap set_heap]; apply heap_fresh).
    cbn [Chat.title Chat.with_title Js.truthy_opt].
    destruct (Js.truthy (ellipsize (described c) 100)),
      (Js.truthy (described c)); cbn [negb orb]; unfold ret; f_equal.
Qed.

(** C8 (amended).  For a hit whose chat the map holds, with [description]
    the first message's content cut to 400 code units plus the marker:
    the hit is kept exactly when the description is not empty, that is
    when the first message has content; a title alone does not keep it.
    A kept hit carries the chat's title, or, when the chat has none, the
    description cut to 100 code units plus the marker. *)
Theorem processSearchResult_policy (item : Item) (w : World) (chatID : string)
    (stored : loc) (c : Chat.t) :
  item_id item w = Returned chatID w ->
  JsMap.get chatID (chats w) = Some stored ->
  heap w !! stored = Some c ->
  let content :=
    Js.or_empty (Message.content <$> MessageTree.first (Chat.messages c)) in
  let description := ellipsize content 400 in
  let title :=
    if Js.truthy_opt (Chat.title c) then Js.or_empty (Chat.title c)
    else ellipsize description 100 in
  exists w',
    processSearchResult item w =
      Returned
        (if Js.truthy description
         then Some (mkOutput chatID title description)
         else None) w' /\
    (Js.truthy description = true <-> content <> "") /\
    (Js.truthy description = true -> Js.truthy title = true) /\
    String.length description <= 403 /\
    (Js.truthy_opt (Chat.title c) = false -> String.length title <= 103).
Proof.
  intros Hitem Hget Hc content description title.
  eexists. split.
  - rewrite (processSearchResult_runs item w chatID stored c Hitem Hget Hc).
    f_equal. fold content. fold description. unfold titled_copy.
    change (described c) with description. subst title.
    destruct (Js.truthy_opt (Chat.title c)) eqn:Htitle.
    + rewrite Htitle. cbn [negb orb]. by destruct (Js.truthy description).
    + cbn [Chat.title Chat.with_title Js.truthy_opt Js.or_empty].
      rewrite ellipsize_truthy.
      by destruct (Js.truthy description).
  - split; [|split; [|split]].
    + subst description. rewrite ellipsize_truthy. apply truthy_true.
    + intros Hd. subst title.
      destruct (Js.truthy_opt (Chat.title c)) eqn:Htitle.
      * by rewrite or_empty_truthy.
      * by rewrite ellipsize_truthy.
    + apply (ellipsize_length content 400).
    + intros Htitle. subst title. rewrite Htitle.
      apply (ellipsize_length description 100).
Qed.

Lemma processSearchResult_policy_witness :
  let w := world_with [chat_with "c1" None "Hello" 5] in
  exists w',
    processSearchResult (Hit "c1") w =
    Returned (Some (mkOutput "c1" "Hello" "Hello")) w'.
Proof.
  intros w.
  destruct (processSearchResult_policy (Hit "c1") w "c1" 0
              (chat_with "c1" None "Hello" 5) eq_refl eq_refl eq_refl)
    as (w' & Hrun & _).
  exists w'. exact Hrun.
Defined.

(** C8 as stated fails: a chat that has a usable title and no usable
    description is dropped, though it does not lack both; the whole
    result of the query is empty. *)
Lemma titled_hit_without_description_is_dropped :
  let w := world_with [titled_empty_chat] in
  Chat.title titled_empty_chat = Some "Plans" /\
  described titled_empty_chat = "" /\
  (exists w', processSearchResult (Hit "c1") w = Returned None w') /\
  (exists w', query "" w = Returned [] w').
Proof.
  intros w. split; [reflexivity|]. split; [reflexivity|].
  split; eexists; vm_compute; reflexivity.
Qed.

(** ** Queries leave the chats alone *)
#[local] Instance grows_preorder : PreOrder grows.
Proof.
  split.
  - intros w. exists []. rewrite app_nil_r. by destruct w.
  - intros w1 w2 w3 [e1 ->] [e2 ->]. exists (e1 ++ e2).
    cbn [heap set_heap]. by rewrite app_assoc.
Qed.

Lemma processSearchResult_grows item : keeps grows (processSearchResult item).
Proof.
  intros w.
  assert (Hbody : forall chatID,
             item_id item w = Returned chatID w ->
             grows w (world_of (processSearchResult item w))).
  { intros chatID Hitem.
    destruct (JsMap.get chatID (chats w)) as [stored|] eqn:Hget.
    - destruct (heap w !! stored) as [c|] eqn:Hc.
      + rewrite (processSearchResult_runs item w chatID stored c Hitem Hget Hc).
        by eexists.
      + unfold processSearchResult. unfold bind at 1.
        rewrite Hitem, bind_gets, Hget. unfold bind, deref. rewrite Hc.
        reflexivity.
    - unfold processSearchResult. unfold bind at 1.
      rewrite Hitem, bind_gets, Hget. reflexivity. }
  destruct item as [l|i].
  - destruct (heap w !! l) as [c|] eqn:Hc.
    + apply (Hbody (Chat.id c)). cbn [item_id].
      by rewrite (bind_deref l c _ w Hc).
    + unfold processSearchResult, bind, item_id, bind, deref. rewrite Hc.
      reflexivity.
  - by apply (Hbody i).
Qed.

Lemma processSearchResults_loop_grows items output :
  keeps grows (processSearchResults_loop items output).
Proof.
  revert output. induction items as [|item items IH]; intros output;
    cbn [processSearchResults_loop].
  - apply (keeps_ret grows).
  - apply (keeps_bind grows); [apply processSearchResult_grows|].
    intros [o|]; apply IH.
Qed.

Lemma query_grows q : keeps grows (query q).
Proof.
  unfold query. case_decide.
  - apply (keeps_bind grows).
    + unfold recent_chats. apply (keeps_bind grows); [apply (keeps_gets grows)|].
      intros ls. apply (keeps_bind grows); [apply (keeps_deref_all grows)|].
      intros cs. apply (keeps_ret grows).
    + intros rs. apply processSearchResults_loop_grows.
  - apply (keeps_bind grows); [apply (keeps_gets grows)|]. intros rs.
    apply (keeps_bind grows); [apply processSearchResults_loop_grows|].
    intros [|o output]; [|apply (keeps_ret grows)].
    apply (keeps_bind grows); [apply (keeps_gets grows)|]. intros rs'.
    apply processSearchResults_loop_grows.
Qed.

(** C10.  Whatever the query, and whether it returns or throws, the map
    of chats is the same afterwards and every chat object that existed
    before the call is unchanged, its title included: the fallback title
    goes to a copy.  Nothing is posted or stored either. *)
Theorem query_leaves_chats (q : string) (w : World) :
  chats (world_of (query q w)) = chats w /\
  (forall l c, heap w !! l = Some c ->
               heap (world_of (query q w)) !! l = Some c) /\
  (forall k l c,
      JsMap.get k (chats w) = Some l -> heap w !! l = Some c ->
      JsMap.get k (chats (world_of (query q w))) = Some l /\
      heap (world_of (query q w)) !! l = Some c) /\
  posted (world_of (query q w)) = posted w /\
  changed (world_of (query q w)) = changed w /\
  store (world_of (query q w)) = store w.
Proof.
  destruct (query_grows q w) as [extra ->]. cbn [chats heap set_heap posted changed store].
  assert (Hheap : forall l c, heap w !! l = Some c ->
                              (heap w ++ extra) !! l = Some c).
  { intros l c Hc. rewrite lookup_app_l; [done|]. by eapply lookup_lt_Some. }
  repeat split; auto.
Qed.

Lemma query_leaves_chats_witness :
  let w := world_with [chat_with "c1" None "Hello" 5] in
  (exists w', query "" w = Returned [mkOutput "c1" "Hello" "Hello"] w') /\
  (Chat.title <$> heap (world_of (query "" w)) !! 0) = Some None.
Proof.
  intros w. split; [eexists; vm_compute; reflexivity|].
  destruct (query_leaves_chats "" w) as (_ & Hheap & _).
  by rewrite (Hheap 0 (chat_with "c1" None "Hello" 5) eq_refl).
Defined.

(** ** Sorting *)
Section sorting.
Context {A : Type} (cmp : A -> A -> Z).

Hypothesis cmp_total : forall a b, (0 < cmp a b)%Z -> (cmp b a <= 0)%Z.
Hypothesis cmp_trans : forall a b c, before cmp a b -> before cmp b c -> before cmp a c.

Lemma sort_insert_perm a l : sort_insert cmp a l ≡ₚ a :: l.
Proof.
  induction l as [|b l IH]; cbn [sort_insert]; [done|].
  destruct (cmp a b <=? 0)%Z; [done|].
  rewrite IH. apply Permutation_swap.
Qed.

Lemma js_sort_perm l : js_sort cmp l ≡ₚ l.
Proof.
  induction l as [|a l IH]; [done|].
  cbn [js_sort foldr]. rewrite sort_insert_perm. by f_equiv.
Qed.

Lemma sort_insert_sorted a l :
  StronglySorted (before cmp) l -> StronglySorted (before cmp) (sort_insert cmp a l).
Proof.
  induction 1 as [|b l Hs IH Hb]; cbn [sort_insert].
  - repeat constructor.
  - destruct (cmp a b <=? 0)%Z eqn:E.
    + apply Z.leb_le in E. constructor; [by constructor|].
      constructor; [exact E|].
      eapply Forall_impl; [exact Hb|]. intros x Hx. by eapply cmp_trans.
    + apply Z.leb_gt in E. constructor; [exact IH|].
      rewrite sort_insert_perm. constructor; [by apply cmp_total|exact Hb].
Qed.

Lemma js_sort_sorted l : StronglySorted (before cmp) (js_sort cmp l).
Proof.
  induction l as [|a l IH]; [constructor|].
  cbn [js_sort foldr]. by apply sort_insert_sorted.
Qed.
End sorting.

Lemma by_updated_desc_before a b :
  before by_updated_desc a b <->
  (Chat.updated (snd b) <= Chat.updated (snd a))%Z.
Proof. unfold before, by_updated_desc. lia. Qed.

Lemma recent_sorted cs :
  StronglySorted (before by_updated_desc) (js_sort by_updated_desc cs).
Proof.
  apply js_sort_sorted.
  - intros a b. unfold by_updated_desc. lia.
  - intros a b c. unfold before, by_updated_desc. lia.
Qed.

(** ** Computations that do not look at the search index *)
Section commuting.
Context (f : World -> World).
Hypothesis heap_f : forall w, heap (f w) = heap w.
Hypothesis chats_f : forall w, chats (f w) = chats w.
Hypothesis set_heap_f : forall h w, set_heap h (f w) = f (set_heap h w).

Lemma commutes_ret {A} (a : A) : commutes f (ret a).
Proof. by intros w. Qed.

Lemma commutes_bind {A B} (c : M A) (k : A -> M B) :
  commutes f c -> (forall a, commutes f (k a)) -> commutes f (bind c k).
Proof.
  intros Hc Hk w. unfold bind. rewrite Hc.
  destruct (c w) as [a w'|e w']; cbn [outcome_map]; [apply Hk|done].
Qed.

Lemma commutes_gets {A} (g : World -> A) :
  (forall w, g (f w) = g w) -> commutes f (gets g).
Proof. intros Hg w. unfold gets. cbn [outcome_map]. by rewrite Hg. Qed.

Lemma commutes_deref l : commutes f (deref l).
Proof. intros w. unfold deref. rewrite heap_f. by destruct (heap w !! l). Qed.

Lemma commutes_alloc c : commutes f (alloc c).
Proof.
  intros w. unfold alloc. rewrite !bind_gets, !bind_modify.
  unfold ret. cbn [outcome_map]. by rewrite heap_f, set_heap_f.
Qed.

Lemma commutes_assign l g : commutes f (assign l g).
Proof.
  intros w. unfold assign, bind, deref. rewrite heap_f.
  destruct (heap w !! l); [|done].
  unfold modify. cbn [outcome_map]. by rewrite heap_f, set_heap_f.
Qed.

Lemma commutes_deref_all ls : commutes f (deref_all ls).
Proof.
  induction ls as [|l ls IH]; cbn [deref_all]; [apply commutes_ret|].
  apply commutes_bind; [apply commutes_deref|]. intros c.
  apply commutes_bind; [exact IH|]. intros cs. apply commutes_ret.
Qed.

Lemma commutes_processSearchResult item : commutes f (processSearchResult item).
Proof.
  unfold processSearchResult. apply commutes_bind.
  { destruct item as [l|i]; cbn [item_id]; [|apply commutes_ret].
    apply commutes_bind; [apply commutes_deref|]. intros c.
    apply commutes_ret. }
  intros chatID. apply commutes_bind.
  { apply commutes_gets. intros w. by rewrite chats_f. }
  intros [stored|]; [|apply commutes_ret].
  apply commutes_bind; [apply commutes_deref|]. intros c.
  apply commutes_bind; [apply commutes_alloc|]. intros chat.
  apply commutes_bind; [apply commutes_deref|]. intros c0.
  apply commutes_bind.
  { destruct (negb (Js.truthy_opt (Chat.title c0)));
      [apply commutes_assign|apply commutes_ret]. }
  intros _. apply commutes_bind; [apply commutes_deref|]. intros c1.
  destruct (negb (Js.truthy_opt (Chat.title c1)) || _); apply commutes_ret.
Qed.

Lemma commutes_processSearchResults items :
  commutes f (processSearchResults items).
Proof.
  unfold processSearchResults. generalize (@nil SearchOutput).
  induction items as [|item items IH]; intros output;
    cbn [processSearchResults_loop]; [apply commutes_ret|].
  apply commutes_bind; [apply commutes_processSearchResult|].
  intros [o|]; apply IH.
Qed.

Lemma commutes_recent_chats : commutes f recent_chats.
Proof.
  unfold recent_chats. apply commutes_bind.
  { apply commutes_gets. intros w. by rewrite chats_f. }
  intros ls. apply commutes_bind; [apply commutes_deref_all|].
  intros cs. apply commutes_ret.
Qed.
End commuting.

Lemma recent_chats_runs w :
  refs_ok w ->
  exists cs,
    Forall2 (fun l p => fst p = l /\ heap w !! l = Some (snd p))
      (JsMap.values (chats w)) cs /\
    recent_chats w = Returned (take 10 (js_sort by_updated_desc cs)) w.
Proof.
  intros Hrefs.
  destruct (deref_all_runs _ w Hrefs) as (cs & Hrun & Hfst & Hall).
  exists cs. split.
  - rewrite <- Hfst. clear Hrun Hfst.
    induction Hall as [|[l c] cs Hc _ IH]; cbn [List.map]; constructor; eauto.
  - unfold recent_chats. rewrite bind_gets. unfold bind. by rewrite Hrun.
Qed.

(** ** The results follow the order of the items *)
Lemma get_values {V} (k : string) (v : V) (m : JsMap.t V) :
  JsMap.get k m = Some v -> v ∈ JsMap.values m.
Proof.
  induction m as [|[k' v'] m IH]; cbn [JsMap.get JsMap.values List.map];
    [done|].
  destruct (String.eqb k' k).
  - intros [= ->]. apply list_elem_of_here.
  - intros H. apply list_elem_of_further. by apply IH.
Qed.

Lemma refs_ok_lookup w k l :
  refs_ok w -> JsMap.get k (chats w) = Some l -> is_Some (heap w !! l).
Proof.
  intros Hrefs Hget. apply lookup_lt_is_Some_2.
  unfold refs_ok in Hrefs. rewrite Forall_forall in Hrefs.
  apply Hrefs. by eapply get_values.
Qed.

Lemma refs_ok_grows w w' : refs_ok w -> grows w w' -> refs_ok w'.
Proof.
  intros Hrefs [extra ->]. unfold refs_ok in *. cbn [chats heap set_heap].
  eapply Forall_impl; [exact Hrefs|]. intros l Hl. cbn beta in Hl. rewrite length_app. lia.
Qed.

Lemma item_id_grows item i w w' :
  item_id item w = Returned i w -> grows w w' -> item_id item w' = Returned i w'.
Proof.
  intros Hid [extra ->]. destruct item as [l|j]; cbn [item_id] in *.
  - unfold bind, deref in *. cbn [heap set_heap].
    destruct (heap w !! l) as [c|] eqn:Hc; [|done].
    rewrite (lookup_app_l_Some _ _ _ _ Hc). unfold ret in *. congruence.
  - unfold ret in *. congruence.
Qed.

Lemma processSearchResult_total item i w :
  refs_ok w ->
  item_id item w = Returned i w ->
  exists r w',
    processSearchResult item w = Returned r w' /\
    grows w w' /\
    match r with
    | Some o => out_chatID o = i
    | None => True
    end.
Proof.
  intros Hrefs Hitem.
  destruct (JsMap.get i (chats w)) as [stored|] eqn:Hget.
  - destruct (refs_ok_lookup w i stored Hrefs Hget) as [c Hc].
    rewrite (processSearchResult_runs item w i stored c Hitem Hget Hc).
    eexists _, _. split; [reflexivity|].
    split; [by exists [titled_copy c]|].
    by destruct (_ || _).
  - exists None, w. unfold processSearchResult. unfold bind at 1.
    rewrite Hitem, bind_gets, Hget. by repeat split.
Qed.

Lemma processSearchResults_loop_total items ids :
  forall output w,
    refs_ok w ->
    Forall2 (fun item i => item_id item w = Returned i w) items ids ->
    exists extra w',
      processSearchResults_loop items output w = Returned (output ++ extra) w' /\
      grows w w' /\
      List.map out_chatID extra `sublist_of` ids.
Proof.
  revert ids. induction items as [|item items IH]; intros ids output w Hrefs Hids.
  - apply Forall2_nil_inv_l in Hids as ->. exists [], w.
    cbn [processSearchResults_loop]. rewrite app_nil_r. by repeat split.
  - apply Forall2_cons_inv_l in Hids as (i & ids' & Hitem & Hids & ->).
    destruct (processSearchResult_total item i w Hrefs Hitem)
      as (r & w1 & Hrun & Hgrow & Hr).
    assert (Hids1 : Forall2 (fun item i => item_id item w1 = Returned i w1)
                      items ids').
    { eapply Forall2_impl; [exact Hids|]. intros it j Hit. cbn beta in *.
      eapply item_id_grows; [exact Hit|exact Hgrow]. }
    pose proof (refs_ok_grows w w1 Hrefs Hgrow) as Hrefs1.
    cbn [processSearchResults_loop]. unfold bind. rewrite Hrun.
    destruct r as [o|].
    + destruct (IH ids' (output ++ [o]) w1 Hrefs1 Hids1)
        as (extra & w' & Hloop & Hgrow' & Hsub).
      exists (o :: extra), w'. rewrite Hloop, <- app_assoc.
      split; [done|]. split; [by etrans|].
      cbn [List.map]. rewrite Hr. by apply sublist_skip.
    + destruct (IH ids' output w1 Hrefs1 Hids1)
        as (extra & w' & Hloop & Hgrow' & Hsub).
      exists extra, w'. split; [done|]. split; [by etrans|].
      by apply sublist_cons.
Qed.

Lemma StronglySorted_weaken {A} (R R' : A -> A -> Prop) l :
  (forall a b, R a b -> R' a b) -> StronglySorted R l -> StronglySorted R' l.
Proof.
  intros HR. induction 1 as [|a l _ IH Ha]; constructor; [done|].
  eapply Forall_impl; [exact Ha|]. intros b. apply HR.
Qed.

Lemma chat_items_ids w (ps : list (loc * Chat.t)) :
  Forall (fun p => heap w !! fst p = Some (snd p)) ps ->
  Forall2 (fun item i => item_id item w = Returned i w)
    (List.map (fun p => ChatItem (fst p)) ps)
    (List.map (fun p => Chat.id (snd p)) ps).
Proof.
  induction 1 as [|p ps Hp _ IH]; cbn [List.map]; constructor; [|done].
  cbn [item_id]. by rewrite (bind_deref _ _ _ w Hp).
Qed.

(** C7.  For a query that is empty or only white space, on a map whose
    references are in order: the result is the post-processing of at most
    ten chats of the map, taken from the front of all chats sorted by
    [updated], newest first, so no chat left out is newer than a chat
    taken.  The query returns, with at most ten results, in the order of
    the chats taken.  The search index and MiniSearch play no part: with
    any other index and search function the query returns the same. *)
Theorem query_blank_recent (q : string) (w : World) :
  Js.trim q = "" ->
  refs_ok w ->
  exists (cs recent rest : list (loc * Chat.t)),
    Forall2 (fun l p => fst p = l /\ heap w !! l = Some (snd p))
      (JsMap.values (chats w)) cs /\
    recent ++ rest ≡ₚ cs /\
    length recent <= 10 /\
    (rest <> [] -> length recent = 10) /\
    StronglySorted
      (fun a b => (Chat.updated (snd b) <= Chat.updated (snd a))%Z) recent /\
    (forall a b, a ∈ recent -> b ∈ rest ->
                 (Chat.updated (snd b) <= Chat.updated (snd a))%Z) /\
    query q w =
      processSearchResults (List.map (fun p => ChatItem (fst p)) recent) w /\
    (exists output w',
        query q w = Returned output w' /\
        length output <= 10 /\
        List.map out_chatID output
          `sublist_of` List.map (fun p => Chat.id (snd p)) recent) /\
    (forall idx ms,
        query q (with_search idx ms w) =
        outcome_map (with_search idx ms) (query q w)).
Proof.
  intros Hblank Hrefs.
  destruct (recent_chats_runs w Hrefs) as (cs & Hcs & Hrun).
  pose proof (recent_sorted cs) as Hsorted.
  set (sorted := js_sort by_updated_desc cs) in *.
  exists cs, (take 10 sorted), (drop 10 sorted).
  rewrite <- (take_drop 10 sorted) in Hsorted.
  apply StronglySorted_app in Hsorted as (Hcross & Htake & Hdrop).
  split; [exact Hcs|].
  split; [rewrite take_drop; apply js_sort_perm|].
  split; [rewrite length_take; lia|].
  split.
  { intros Hrest. rewrite length_take.
    destruct (decide (length sorted <= 10)) as [Hle|]; [|lia].
    by rewrite drop_ge in Hrest. }
  split.
  { eapply StronglySorted_weaken; [|exact Htake].
    intros a b. apply by_updated_desc_before. }
  split.
  { intros a b Ha Hb. apply by_updated_desc_before. by apply Hcross. }
  assert (Hq : forall w0, query q w0 =
                 (searchResults <- recent_chats ;;
                  processSearchResults
                    (List.map (fun p => ChatItem (fst p)) searchResults)) w0).
  { intros w0. unfold query. rewrite Hblank. by case_decide. }
  assert (Hrun' : query q w =
            processSearchResults
              (List.map (fun p => ChatItem (fst p)) (take 10 sorted)) w).
  { rewrite Hq. unfold bind. by rewrite Hrun. }
  split; [exact Hrun'|]. split.
  - assert (Hobjs : Forall (fun p => heap w !! fst p = Some (snd p))
                      (take 10 sorted)).
    { apply Forall_take. unfold sorted. rewrite js_sort_perm.
      eapply Forall2_Forall_r; [exact Hcs|].
      apply Forall_forall. intros l _ p [<- Hl]. exact Hl. }
    assert (Hids : Forall2 (fun item i => item_id item w = Returned i w)
                     (List.map (fun p => ChatItem (fst p)) (take 10 sorted))
                     (List.map (fun p => Chat.id (snd p)) (take 10 sorted))).
    { by apply chat_items_ids. }
    destruct (processSearchResults_loop_total _ _ [] w Hrefs Hids)
      as (output & w' & Hloop & _ & Hsub).
    exists output, w'. rewrite Hrun'. split; [exact Hloop|].
    split; [|exact Hsub].
    apply sublist_length in Hsub. rewrite !length_map in Hsub.
    rewrite length_take in Hsub. lia.
  - intros idx ms. rewrite !Hq.
    apply (commutes_bind (with_search idx ms)).
    + by apply commutes_recent_chats.
    + intros rs. by apply commutes_processSearchResults.
Qed.

Lemma four_chats_refs_ok : refs_ok (world_with four_chats).
Proof. repeat constructor. Qed.

Lemma query_blank_recent_witness :
  let w := world_with four_chats in
  (List.map Chat.updated (heap w) = [5; 3; 8; 1]%Z) /\
  (exists cs recent rest : list (loc * Chat.t),
      recent ++ rest ≡ₚ cs /\
      query "  " w =
        processSearchResults (List.map (fun p => ChatItem (fst p)) recent) w) /\
  (List.map out_chatID <$> result_of (query "  " w)) =
    Some ["eight"; "five"; "three"; "one"] /\
  (List.map out_chatID <$> result_of (query "" w)) =
    Some ["eight"; "five"; "three"; "one"].
Proof.
  intros w. split; [reflexivity|]. split.
  - destruct (query_blank_recent "  " w eq_refl four_chats_refs_ok)
      as (cs & recent & rest & _ & Hperm & _ & _ & _ & _ & Hq & _ & _).
    exists cs, recent, rest. by split.
  - split; vm_compute; reflexivity.
Defined.

(** * Further properties of the manager *)

Lemma changed_after_emit name args w :
  changed (after_emit name args w) = String.eqb name "update" || changed w.
Proof. unfold after_emit. by destruct (String.eqb name "update"). Qed.

Lemma emitted_after_emit name args w :
  emitted (after_emit name args w) = emitted w ++ [mkEmitted name args].
Proof. unfold after_emit. by destruct (String.eqb name "update"). Qed.

Lemma wake_clean answer w : changed w = false -> wake answer w = w.
Proof.
  intros H. unfold wake, loop_body. destruct (loop_alive w); [|done].
  rewrite !bind_gets, H, andb_false_r. done.
Qed.

Lemma createChat_runs w :
  let id := uuid_at (host w) (uuids w) in
  let c := Chat.mk id None MessageTree.empty (time_at (host w) (clock w))
             (time_at (host w) (S (clock w))) in
  createChat w =
  Returned id
    (set_posted (posted w ++ [ChatUpdate c])
       (set_index (JsMap.set id (search_document c) (index w))
          (set_chats (JsMap.set id (length (heap w)) (chats w))
             (set_heap (heap w ++ [c])
                (set_clock (S (S (clock w))) (set_uuids (S (uuids w)) w)))))).
Proof.
  intros id c. unfold createChat.
  rewrite bind_uuidv4, !bind_Date_now. fields.
  unfold alloc at 1. unfold bind at 1. rewrite bind_gets, bind_modify.
  unfold ret at 1. rewrite bind_modify. fields.
  unfold search_update.
  unfold bind at 1. erewrite bind_deref by (fields; apply heap_fresh).
  unfold modify at 1. fields.
  erewrite bind_postMessage by (fields; apply heap_fresh).
  reflexivity.
Qed.

Lemma keys_set_absent {V} (k : string) (v : V) (m : JsMap.t V) :
  JsMap.get k m = None -> JsMap.keys (JsMap.set k v m) = JsMap.keys m ++ [k].
Proof.
  induction m as [|[k' v'] m IH]; cbn [JsMap.get JsMap.set]; [done|].
  destruct (String.eqb k' k); [done|]. intros H.
  unfold JsMap.keys in *. cbn [List.map app fst]. f_equal. by apply IH.
Qed.

(** X1.  [createChat] returns the next id of the host and registers under
    it a new chat object with an empty tree, no title, and [created] and
    [updated] from two successive readings of the clock.  The chat is
    indexed and broadcast once.  The other entries of the map and the
    objects that existed stay; a new id goes to the end of the map.
    Nothing is emitted and the dirty flag is not touched, so a manager
    that was clean stays clean: the loop does not store the new chat. *)
Theorem createChat_registers (w : World) :
  let id := uuid_at (host w) (uuids w) in
  let c := Chat.mk id None MessageTree.empty (time_at (host w) (clock w))
             (time_at (host w) (S (clock w))) in
  exists (w' : World) (l : loc),
    createChat w = Returned id w' /\
    JsMap.get id (chats w') = Some l /\
    heap w' !! l = Some c /\
    (forall k, k <> id -> JsMap.get k (chats w') = JsMap.get k (chats w)) /\
    (JsMap.get id (chats w) = None ->
     JsMap.keys (chats w') = JsMap.keys (chats w) ++ [id]) /\
    (forall l0 c0, heap w !! l0 = Some c0 -> heap w' !! l0 = Some c0) /\
    JsMap.get id (index w') = Some (search_document c) /\
    posted w' = posted w ++ [ChatUpdate c] /\
    emitted w' = emitted w /\
    changed w' = changed w /\
    (changed w = false -> forall answer, wake answer w' = w').
Proof.
  intros id c. eexists _, (length (heap w)).
  split; [apply createChat_runs|]. fold id. fold c.
  cbn [chats heap index posted emitted changed set_posted set_index set_chats
       set_heap set_clock set_uuids].
  split; [apply get_set_eq|]. split; [apply heap_fresh|].
  split; [intros k Hk; by apply get_set_ne|].
  split; [apply keys_set_absent|].
  split; [intros l0 c0 H0; by apply lookup_app_l_Some|].
  split; [apply get_set_eq|]. do 3 (split; [done|]).
  intros Hclean answer. by apply wake_clean.
Qed.

(** ** Regenerating *)
Lemma chain_to_last tr n ms : chain_to tr n ms -> last ms = Some n.
Proof. destruct 1; [done|apply last_snoc]. Qed.

(** X2.  [regenerate] fails without any effect in two cases: on a message
    whose chat id the map does not hold it throws 'Chat not found'; on a
    message of a known chat that has no parent the context is empty and
    reading the latest message of it throws a TypeError.  The world is
    unchanged in both. *)
Theorem regenerate_failures (message : Message.t) (w : World) :
  (JsMap.get (Message.chatID message) (chats w) = None ->
   regenerate message w = Threw ChatNotFound w) /\
  (forall l c,
      JsMap.get (Message.chatID message) (chats w) = Some l ->
      heap w !! l = Some c ->
      Js.truthy_opt (Message.parentID message) = false ->
      regenerate message w = Threw TypeError w).
Proof.
  split.
  - intros H. unfold regenerate. by rewrite bind_gets, H.
  - intros l c Hget Hc Hp. unfold regenerate.
    rewrite bind_gets, Hget. rewrite (bind_deref l c _ w Hc).
    destruct (Message.parentID message) as [p|]; [|done].
    cbn [Js.truthy_opt] in Hp. by rewrite Hp.
Qed.

Lemma regenerate_failures_witness :
  let w := world_with [talk] in
  regenerate (opening "c1/1" "c9" "Hello") w = Threw ChatNotFound w /\
  regenerate (opening "c1/1" "c1" "Hello") w = Threw TypeError w.
Proof.
  intros w. split.
  - apply (proj1 (regenerate_failures (opening "c1/1" "c9" "Hello") w)).
    reflexivity.
  - apply (proj2 (regenerate_failures (opening "c1/1" "c1" "Hello") w) 0 talk);
      reflexivity.
Defined.

(** X3.  [regenerate] on a message of a known chat whose parent is a node
    of the chat's tree (a tree built from valid insertions, the parent
    carrying the chat's id), the chat's id not being the event name
    'error': the context is the chain to the parent, it ends in the parent
    and no user message is added; the chat's tree gets the pending reply
    (empty, not done, role assistant) under the parent, beside the
    message; [updated] is set from the clock and one snapshot is
    broadcast. *)
Theorem regenerate_branches (message : Message.t) (w : World) (l : loc)
    (c : Chat.t) (p : string) (pn : Message.t) :
  JsMap.get (Message.chatID message) (chats w) = Some l ->
  heap w !! l = Some c ->
  Chat.id c <> "error" ->
  Message.parentID message = Some p ->
  Js.truthy p = true ->
  built (Chat.messages c) ->
  MessageTree.get p (Chat.messages c) = Some pn ->
  Message.chatID pn = Message.chatID message ->
  exists (t : Turn) (w' : World) (c' : Chat.t),
    regenerate message w = Returned t w' /\
    context t = MessageTree.getMessageChainTo p (Chat.messages c) /\
    last (context t) = Some pn /\
    turn_chat t = l /\
    Message.parentID (reply t) = Some p /\
    Message.role (reply t) = assistant /\
    Message.content (reply t) = "" /\
    Message.done (reply t) = false /\
    heap w' !! l = Some c' /\
    Chat.messages c' = MessageTree.addMessage (reply t) (Chat.messages c) /\
    Chat.updated c' = time_at (host w) (S (clock w)) /\
    posted w' = posted w ++ [ChatUpdate c'].
Proof.
  intros Hget Hc Hne Hp Ht Hb Hpn Hchat.
  pose proof (chain_to_last _ _ _ (getMessageChainTo_path _ p pn Hb Hpn))
    as Hlast.
  assert (Hget' : JsMap.get (Message.chatID pn) (chats w) = Some l)
    by (by rewrite Hchat).
  destruct (getReply_runs _ pn w l c Hlast Hget' Hc Hne)
    as (w' & Hrun & Hh & _ & _ & _ & Hpo).
  eexists _, w', _. split.
  { unfold regenerate. rewrite bind_gets, Hget, (bind_deref l c _ w Hc).
    rewrite Hp, Ht. exact Hrun. }
  cbn [context reply turn_chat Message.parentID Message.role Message.content
       Message.done].
  apply get_Some in Hpn as [_ Hid]. rewrite Hid.
  do 7 (split; [done|]).
  split; [rewrite Hh; by eapply heap_assigned|].
  cbn [Chat.messages Chat.updated Chat.with_updated Chat.with_messages].
  rewrite Hpo, Hid. by repeat split.
Qed.

Lemma regenerate_branches_witness :
  let w := world_with [talk] in
  exists t w',
    regenerate pending_reply w = Returned t w' /\
    List.map Message.content (context t) = ["Hello"] /\
    Message.parentID (reply t) = Some "c1/1".
Proof.
  intros w.
  destruct (regenerate_branches pending_reply w 0 talk "c1/1"
              (opening "c1/1" "c1" "Hello") eq_refl eq_refl)
    as (t & w' & c' & Hrun & Hctx & _ & _ & Hp & _).
  - discriminate.
  - reflexivity.
  - reflexivity.
  - apply built_add; [|exact valid_insertion_sample2].
    apply built_add; [apply built_empty|exact valid_insertion_sample1].
  - reflexivity.
  - reflexivity.
  - exists t, w'. split; [exact Hrun|]. split; [by rewrite Hctx|exact Hp].
Defined.

(** ** What the handlers do to the flags and the logs *)
Ltac all_fields :=
  repeat progress
    (fields;
     rewrite ?changed_after_emit, ?emitted_after_emit;
     cbn [String.eqb Ascii.eqb Bool.eqb orb andb]).

Ltac settle_all :=
  eexists; split; [reflexivity|];
  repeat (all_fields; rewrite ?list_insert_insert_eq, <- ?app_assoc);
  repeat split.

Lemma on_data_effects d t w c :
  heap w !! turn_chat t = Some c ->
  Chat.id c <> "error" ->
  exists w',
    on_data d t w = Returned (with_reply (Message.with_content d (reply t)) t) w' /\
    changed w' = String.eqb (Chat.id c) "update" || changed w /\
    emitted w' = emitted w ++ [mkEmitted (Chat.id c) NoArgs] /\
    index w' = index w /\
    loaded w' = loaded w /\
    loop_alive w' = loop_alive w /\
    idb_calls w' = idb_calls w /\
    store w' = store w.
Proof. intros Hc Hne. unfold on_data. do 4 run_step. settle_all. Qed.

Lemma on_error_effects t w c :
  heap w !! turn_chat t = Some c ->
  Message.content (reply t) = "" ->
  Chat.id c <> "error" ->
  let r := Message.with_done true (Message.with_content apology (reply t)) in
  exists w',
    on_error t w = Returned (with_reply r t) w' /\
    changed w' = String.eqb (Chat.id c) "update" || changed w /\
    emitted w' =
      emitted w ++ [mkEmitted (Chat.id c) NoArgs;
                    mkEmitted "messages" (Messages [r])] /\
    index w' = index w /\
    loaded w' = loaded w /\
    loop_alive w' = loop_alive w /\
    idb_calls w' = idb_calls w /\
    store w' = store w.
Proof.
  intros Hc Hempty Hne r.
  unfold on_error. rewrite Hempty. cbn [Js.truthy negb].
  cbn [Message.content Message.with_content]. rewrite trim_apology.
  do 7 run_step. settle_all.
Qed.

Lemma on_done_effects t w c :
  heap w !! turn_chat t = Some c ->
  Chat.id c <> "error" ->
  let r := Message.with_done true (reply t) in
  exists w',
    on_done t w =
      Returned (with_reply r t, negb (Js.truthy_opt (Chat.title c))) w' /\
    changed w' = true /\
    emitted w' =
      emitted w ++ [mkEmitted (Chat.id c) NoArgs;
                    mkEmitted "messages" (Messages [r]);
                    mkEmitted "update" NoArgs] /\
    index w' = index w /\
    loaded w' = loaded w /\
    loop_alive w' = loop_alive w /\
    idb_calls w' = idb_calls w /\
    store w' = store w.
Proof. intros Hc Hne r. unfold on_done. do 8 run_step. settle_all. Qed.

Lemma getReply_effects messages latest w l c :
  last messages = Some latest ->
  JsMap.get (Message.chatID latest) (chats w) = Some l ->
  heap w !! l = Some c ->
  Chat.id c <> "error" ->
  exists t w',
    getReply messages w = Returned t w' /\
    changed w' = String.eqb (Chat.id c) "update" || changed w /\
    emitted w' = emitted w ++ [mkEmitted (Chat.id c) NoArgs] /\
    index w' = index w /\
    loaded w' = loaded w /\
    loop_alive w' = loop_alive w /\
    idb_calls w' = idb_calls w /\
    store w' = store w.
Proof.
  intros Hlast Hget Hc Hne. unfold getReply. rewrite Hlast.
  run_step. rewrite Hget. do 8 run_step. eexists. settle_all.
Qed.

Lemma sendMessage_effects message w l c :
  JsMap.get (sub_chatID message) (chats w) = Some l ->
  heap w !! l = Some c ->
  Chat.id c = sub_chatID message ->
  Chat.id c <> "error" ->
  exists t w',
    sendMessage message w = Returned t w' /\
    changed w' = String.eqb (Chat.id c) "update" || changed w /\
    length (emitted w') = 3 + length (emitted w) /\
    index w' = index w /\
    loaded w' = loaded w /\
    loop_alive w' = loop_alive w /\
    idb_calls w' = idb_calls w /\
    store w' = store w.
Proof.
  intros Hget Hc Hid Hne.
  set (newMessage :=
         Message.mk (uuid_at (host w) (uuids w)) (Chat.id c)
           (sub_parentID message) (time_at (host w) (clock w)) user
           (sub_content message) true).
  set (c1 := Chat.with_updated (time_at (host w) (S (clock w)))
               (Chat.with_messages
                  (MessageTree.addMessage newMessage (Chat.messages c)) c)).
  unfold sendMessage. run_step. rewrite Hget. do 10 run_step.
  match goal with |- context [getReply ?ms ?w0] =>
    destruct (getReply_effects ms newMessage w0 l c1)
      as (t & w' & Hrun & Hch & Hem & Hrest)
  end.
  - apply last_snoc.
  - fields. subst newMessage. cbn [Message.chatID]. by rewrite Hid.
  - heap_lookup.
  - exact Hne.
  - exists t, w'. split; [exact Hrun|].
    revert Hch Hem Hrest. all_fields. intros Hch Hem Hrest.
    subst c1. cbn [Chat.id Chat.with_updated Chat.with_messages] in *.
    split; [rewrite Hch; by destruct (String.eqb (Chat.id c) "update")|].
    split; [rewrite Hem, !length_app; cbn; lia|]. exact Hrest.
Qed.

(** X4.  Of the events of a turn only the done event marks the manager
    dirty.  For a chat whose id is neither the event name 'update' nor
    the event name 'error', [sendMessage], a data event and the error
    event leave the dirty flag as it was and hand nothing to the store;
    on a clean manager the next wake-up of the loop then stores nothing.
    The done event sets the flag. *)
Theorem only_done_marks_dirty (w : World) (l : loc) (c : Chat.t) :
  heap w !! l = Some c ->
  Chat.id c <> "update" ->
  Chat.id c <> "error" ->
  (forall message,
      JsMap.get (sub_chatID message) (chats w) = Some l ->
      Chat.id c = sub_chatID message ->
      exists t w',
        sendMessage message w = Returned t w' /\
        changed w' = changed w /\ idb_calls w' = idb_calls w /\
        (changed w = false -> forall answer, wake answer w' = w')) /\
  (forall t d, turn_chat t = l ->
      exists t' w',
        on_data d t w = Returned t' w' /\
        changed w' = changed w /\ idb_calls w' = idb_calls w /\
        (changed w = false -> forall answer, wake answer w' = w')) /\
  (forall t, turn_chat t = l -> Message.content (reply t) = "" ->
      exists t' w',
        on_error t w = Returned t' w' /\
        changed w' = changed w /\ idb_calls w' = idb_calls w /\
        (changed w = false -> forall answer, wake answer w' = w')) /\
  (forall t, turn_chat t = l ->
      exists r w', on_done t w = Returned r w' /\ changed w' = true).
Proof.
  intros Hc Hid Hne. apply String.eqb_neq in Hid.
  split; [|split; [|split]].
  - intros message Hget Hcid.
    destruct (sendMessage_effects message w l c Hget Hc Hcid Hne)
      as (t & w' & Hrun & Hch & _ & _ & _ & _ & Hcalls & _).
    rewrite Hid in Hch. cbn [orb] in Hch. exists t, w'. split; [done|]. split; [done|].
    split; [done|]. intros Hclean answer. apply wake_clean. congruence.
  - intros t d <-.
    destruct (on_data_effects d t w c Hc Hne)
      as (w' & Hrun & Hch & _ & _ & _ & _ & Hcalls & _).
    rewrite Hid in Hch. cbn [orb] in Hch. eexists _, w'. split; [done|]. split; [done|].
    split; [done|]. intros Hclean answer. apply wake_clean. congruence.
  - intros t <- Hempty.
    destruct (on_error_effects t w c Hc Hempty Hne)
      as (w' & Hrun & Hch & _ & _ & _ & _ & Hcalls & _).
    rewrite Hid in Hch. cbn [orb] in Hch. eexists _, w'. split; [done|]. split; [done|].
    split; [done|]. intros Hclean answer. apply wake_clean. congruence.
  - intros t <-.
    destruct (on_done_effects t w c Hc Hne) as (w' & Hrun & Hch & _).
    eexists _, w'. by split.
Qed.

Lemma only_done_marks_dirty_witness :
  let w := world_with [talk] in
  (exists t' w',
     on_error pending_turn w = Returned t' w' /\
     changed w' = false /\ wake Ack w' = w') /\
  (exists r w', on_done pending_turn w = Returned r w' /\ changed w' = true).
Proof.
  intros w.
  destruct (only_done_marks_dirty w 0 talk eq_refl) as (_ & _ & Herr & Hdone);
    [discriminate|discriminate|].
  split.
  - destruct (Herr pending_turn eq_refl eq_refl)
      as (t' & w' & Hrun & Hch & _ & Hwake).
    exists t', w'. split; [exact Hrun|]. split; [exact Hch|].
    by apply Hwake.
  - exact (Hdone pending_turn eq_refl).
Defined.

(** ** A turn from its first data event to its end *)
Lemma node_updated m tr n :
  MessageTree.get (Message.id m) tr = Some n ->
  MessageTree.get (Message.id m) (MessageTree.updateMessage m tr) =
  Some (Message.with_done (Message.done m)
          (Message.with_content (Message.content m) n)).
Proof.
  intros Hn. rewrite get_updateMessage, Hn. cbn [fmap option_fmap option_map].
  apply get_Some in Hn as [_ Hid]. by rewrite Hid, String.eqb_refl.
Qed.

Lemma deliver_data_tree ds t w c :
  heap w !! turn_chat t = Some c ->
  Chat.id c <> "error" ->
  exists t' w' c',
    deliver_all (List.map Data ds) t w = Returned t' w' /\
    turn_chat t' = turn_chat t /\
    Message.id (reply t') = Message.id (reply t) /\
    Message.content (reply t') = default (Message.content (reply t)) (last ds) /\
    heap w' !! turn_chat t = Some c' /\
    Chat.id c' = Chat.id c /\
    Chat.title c' = Chat.title c /\
    Chat.updated c' = Chat.updated c /\
    host w' = host w /\
    clock w' = clock w /\
    (forall n,
        MessageTree.get (Message.id (reply t)) (Chat.messages c) = Some n ->
        exists n',
          MessageTree.get (Message.id (reply t)) (Chat.messages c') = Some n' /\
          same_identity n n').
Proof.
  revert t w c. induction ds as [|d ds IH]; intros t w c Hc Hne.
  - exists t, w, c. do 10 (split; [done|]). intros n Hn. exists n.
    by repeat split.
  - destruct (on_data_runs d t w c Hc Hne) as (w1 & Hrun & Hh & _ & Hho & Hcl & _).
    cbn [List.map deliver_all deliver]. unfold bind. rewrite Hrun.
    set (r := Message.with_content d (reply t)) in *.
    set (c1 := Chat.with_messages
                 (MessageTree.updateMessage r (Chat.messages c)) c) in *.
    assert (Hc1 : heap w1 !! turn_chat (with_reply r t) = Some c1).
    { rewrite Hh. by eapply heap_assigned. }
    destruct (IH (with_reply r t) w1 c1 Hc1 Hne)
      as (t' & w' & c' & Hrun' & Hl & Hid & Hcontent & Hc' & Hcid & Htitle
          & Hup & Hho' & Hcl' & Hnode).
    exists t', w', c'. split; [exact Hrun'|].
    cbn [turn_chat reply with_reply] in *. subst r c1.
    cbn [Message.id Message.content Message.with_content Chat.id Chat.title
         Chat.updated Chat.messages Chat.with_messages] in *.
    do 2 (split; [done|]). split.
    { rewrite Hcontent. destruct ds as [|d' ds]; [done|].
      change (last (d :: d' :: ds)) with (last (d' :: ds)).
      destruct (last (d' :: ds)) eqn:E; [done|]. by apply last_None in E. }
    split; [done|]. do 3 (split; [done|]).
    split; [congruence|]. split; [congruence|].
    intros n Hn.
    pose proof (node_updated (Message.with_content d (reply t)) _ n Hn) as Hn1.
    cbn [Message.id Message.with_content] in Hn1.
    destruct (Hnode _ Hn1) as (n' & Hn' & Hsame). exists n'.
    split; [exact Hn'|]. destruct Hsame as (H1 & H2 & H3 & H4 & H5).
    by repeat split.
Qed.

(** X5.  A stream of data events that ends with the done event, for a
    chat whose id is not the event name 'error': the reply carries the
    last text delivered and [done] true, and so does its node of the
    chat's tree, which keeps its id, parent, role and timestamp;
    [updated] is the reading of the clock the done handler takes, the
    manager is dirty, and a title is requested exactly when the chat has
    none. *)
Theorem stream_done_completes (ds : list string) (t : Turn) (w : World)
    (c : Chat.t) (n : Message.t) :
  heap w !! turn_chat t = Some c ->
  Chat.id c <> "error" ->
  MessageTree.get (Message.id (reply t)) (Chat.messages c) = Some n ->
  let final := default (Message.content (reply t)) (last ds) in
  exists (t' : Turn) (w' : World) (c' : Chat.t),
    (t1 <- deliver_all (List.map Data ds) t ;; on_done t1) w =
      Returned (t', negb (Js.truthy_opt (Chat.title c))) w' /\
    Message.content (reply t') = final /\
    Message.done (reply t') = true /\
    heap w' !! turn_chat t = Some c' /\
    MessageTree.get (Message.id (reply t)) (Chat.messages c') =
      Some (Message.mk (Message.id n) (Message.chatID n) (Message.parentID n)
              (Message.timestamp n) (Message.role n) final true) /\
    Chat.updated c' = time_at (host w) (clock w) /\
    changed w' = true.
Proof.
  intros Hc Hne Hn final.
  destruct (deliver_data_tree ds t w c Hc Hne)
    as (t1 & w1 & c1 & Hrun & Hl & Hid & Hcontent & Hc1 & Hcid & Htitle & _
        & Hho & Hcl & Hnode).
  destruct (Hnode n Hn) as (n1 & Hn1 & H1 & H2 & H3 & H4 & H5).
  rewrite <- Hl in Hc1. rewrite <- Hcid in Hne.
  destruct (on_done_runs t1 w1 c1 Hc1 Hne)
    as (w' & Hdone & Hh & _ & _ & _ & Hch & _).
  eexists _, w', _. split.
  { unfold bind. rewrite Hrun, Hdone, Htitle. reflexivity. }
  cbn [reply with_reply Message.content Message.done Message.with_done].
  split; [exact Hcontent|]. split; [done|].
  split; [rewrite Hh, <- Hl; by eapply heap_assigned|].
  cbn [Chat.messages Chat.updated Chat.with_updated Chat.with_messages].
  split.
  - rewrite <- Hid in Hn1 |- *.
    pose proof (node_updated (Message.with_done true (reply t1)) _ n1 Hn1) as Hu.
    cbn [Message.id Message.with_done Message.done Message.content] in Hu.
    rewrite Hu, Hcontent. unfold Message.with_done, Message.with_content.
    cbn [Message.id Message.chatID Message.parentID Message.timestamp
         Message.role Message.content Message.done].
    by rewrite H1, H2, H3, H4, H5.
  - split; [by rewrite Hho, Hcl|exact Hch].
Qed.

Lemma stream_done_completes_witness :
  let w := world_with [talk] in
  exists t' w' c',
    (t1 <- deliver_all [Data "H"; Data "Hi"] pending_turn ;; on_done t1) w =
      Returned (t', true) w' /\
    heap w' !! 0 = Some c' /\
    MessageTree.get "r1" (Chat.messages c') =
      Some (Message.mk "r1" "c1" (Some "c1/1") 2 assistant "Hi" true).
Proof.
  intros w.
  destruct (stream_done_completes ["H"; "Hi"] pending_turn w talk pending_reply
              eq_refl)
    as (t' & w' & c' & Hrun & _ & _ & Hc' & Hnode & _).
  - discriminate.
  - reflexivity.
  - exists t', w', c'. split; [exact Hrun|]. split; [exact Hc'|exact Hnode].
Defined.

(** ** The title *)

(** X6.  When the title generator answers for a chat object [c]: a
    non-empty title is assigned to the chat, a 'title' event carries the
    chat id and the title, the manager is marked dirty and one snapshot
    with the title is broadcast; the tree and [updated] stay as they
    are.  With no title (or an empty one) nothing is emitted or
    broadcast and the dirty flag stays, the chat's title is the falsy
    answer.  For a chat whose id is the event name 'error' a non-empty
    title is assigned too, but the emit of the id throws: nothing is
    emitted or broadcast and the dirty flag stays. *)
Theorem on_title_policy (answer : option string) (t : Turn) (w : World)
    (c : Chat.t) :
  heap w !! turn_chat t = Some c ->
  let unheard := String.eqb (Chat.id c) "error" in
  exists (w' : World),
    on_title answer t w =
      (if Js.truthy_opt answer && unheard then Threw UnhandledError w'
       else Returned tt w') /\
    heap w' !! turn_chat t = Some (Chat.with_title answer c) /\
    clock w' = clock w /\
    if Js.truthy_opt answer && negb unheard
    then
      emitted w' =
        emitted w ++ [mkEmitted (Chat.id c) NoArgs;
                      mkEmitted "title" (Title (Chat.id c) (Js.or_empty answer));
                      mkEmitted "update" NoArgs] /\
      changed w' = true /\
      posted w' = posted w ++ [ChatUpdate (Chat.with_title answer c)]
    else
      emitted w' = emitted w /\ changed w' = changed w /\ posted w' = posted w.
Proof.
  intros Hc unheard. subst unheard. unfold on_title. do 2 run_step.
  cbn [Chat.title Chat.with_title Chat.id].
  destruct answer as [title|]; cbn [Js.truthy_opt andb].
  - destruct (Js.truthy title) eqn:Ht; cbn [andb].
    + destruct (String.eqb_spec (Chat.id c) "error") as [Hne|Hne]; cbn [negb].
      * rewrite bind_emit_error by emit_name.
        eexists. split; [reflexivity|]. all_fields.
        split; [by eapply heap_assigned|]. by repeat split.
      * do 3 run_step.
        erewrite run_postMessage by heap_lookup.
        eexists. split; [reflexivity|]. all_fields.
        split; [by eapply heap_assigned|]. split; [done|].
        cbn [Js.or_empty]. rewrite Ht, <- !app_assoc. by repeat split.
    + eexists. split; [reflexivity|]. all_fields.
      split; [by eapply heap_assigned|]. by repeat split.
  - eexists. split; [reflexivity|]. all_fields.
    split; [by eapply heap_assigned|]. by repeat split.
Qed.

Lemma on_title_policy_witness :
  let w := world_with [talk] in
  exists w',
    on_title (Some "Greeting") pending_turn w = Returned tt w' /\
    (Chat.title <$> heap w' !! 0) = Some (Some "Greeting") /\
    changed w' = true.
Proof.
  intros w.
  destruct (on_title_policy (Some "Greeting") pending_turn w talk eq_refl)
    as (w' & Hrun & Hc & _ & _ & Hch & _).
  exists w'. split; [exact Hrun|].
  split; [exact (f_equal (fmap Chat.title) Hc)|exact Hch].
Defined.

(** ** Loading chats *)
Lemma set_set_eq {V} (k : string) (v : V) (m : JsMap.t V) :
  JsMap.set k v (JsMap.set k v m) = JsMap.set k v m.
Proof.
  induction m as [|[k' v'] m IH]; cbn [JsMap.set].
  - by rewrite String.eqb_refl.
  - destruct (String.eqb k' k) eqn:E; cbn [JsMap.set].
    + by rewrite String.eqb_refl.
    + by rewrite E, IH.
Qed.

Lemma loadChat_outcome l c w :
  heap w !! l = Some c ->
  let w1 := set_index (JsMap.set (Chat.id c) (search_document c) (index w))
              (set_chats (JsMap.set (Chat.id c) l (chats w)) w) in
  loadChat l w =
  if Js.truthy (Chat.id c)
  then
    if String.eqb (Chat.id c) "error" then Threw UnhandledError w1
    else Returned tt (after_emit (Chat.id c) NoArgs w1)
  else Returned tt w.
Proof.
  intros Hc. unfold loadChat. rewrite (bind_deref l c _ w Hc).
  destruct (Js.truthy (Chat.id c)); cbn [negb]; [|done].
  rewrite bind_modify. unfold search_update.
  unfold bind at 1. erewrite bind_deref by (fields; exact Hc).
  unfold modify at 1. by rewrite emit_outcome.
Qed.

Lemma loadChat_runs l c w :
  heap w !! l = Some c ->
  Chat.id c <> "error" ->
  loadChat l w =
  Returned tt
    (if Js.truthy (Chat.id c)
     then after_emit (Chat.id c) NoArgs
            (set_index (JsMap.set (Chat.id c) (search_document c) (index w))
               (set_chats (JsMap.set (Chat.id c) l (chats w)) w))
     else w).
Proof.
  intros Hc Hne. apply String.eqb_neq in Hne.
  rewrite (loadChat_outcome l c w Hc), Hne.
  by destruct (Js.truthy (Chat.id c)).
Qed.

(** X7.  [loadChat] on a chat object without id does nothing at all.
    Otherwise it puts the object into the map under its id, replaces or
    adds the chat's document in the index and emits the id; the other
    entries stay, no object changes and nothing is broadcast.  Loading
    the same object again leaves the map and the index as they are.  For
    a chat whose id is the event name 'error' the emit throws: the map
    and the index are written by then, and nothing is emitted. *)
Theorem loadChat_policy (l : loc) (c : Chat.t) (w : World) :
  heap w !! l = Some c ->
  let unheard := String.eqb (Chat.id c) "error" in
  (Chat.id c = "" -> loadChat l w = Returned tt w) /\
  (Chat.id c <> "" ->
   exists w',
     loadChat l w =
       (if unheard then Threw UnhandledError w' else Returned tt w') /\
     JsMap.get (Chat.id c) (chats w') = Some l /\
     (forall k, k <> Chat.id c -> JsMap.get k (chats w') = JsMap.get k (chats w)) /\
     JsMap.get (Chat.id c) (index w') = Some (search_document c) /\
     (forall k, k <> Chat.id c -> JsMap.get k (index w') = JsMap.get k (index w)) /\
     heap w' = heap w /\
     posted w' = posted w /\
     emitted w' =
       (if unheard then emitted w
        else emitted w ++ [mkEmitted (Chat.id c) NoArgs]) /\
     exists w'',
       loadChat l w' =
         (if unheard then Threw UnhandledError w'' else Returned tt w'') /\
       chats w'' = chats w' /\ index w'' = index w').
Proof.
  intros Hc unheard. subst unheard. split.
  - intros Hid. rewrite (loadChat_outcome l c w Hc). by rewrite Hid.
  - intros Hid. apply truthy_true in Hid.
    rewrite (loadChat_outcome l c w Hc), Hid.
    destruct (String.eqb (Chat.id c) "error") eqn:E;
      (eexists; split; [reflexivity|]); all_fields;
      (split; [apply get_set_eq|]);
      (split; [intros k Hk; by apply get_set_ne|]);
      (split; [apply get_set_eq|]);
      (split; [intros k Hk; by apply get_set_ne|]);
      do 3 (split; [done|]);
      (rewrite (loadChat_outcome l c); [|fields; exact Hc]); rewrite Hid, E;
      (eexists; split; [reflexivity|]); all_fields;
      by rewrite !set_set_eq.
Qed.

Lemma loadChat_policy_witness :
  let w := set_heap [talk; Chat.mk "" None MessageTree.empty 0 0]
             (blank_world sample_host) in
  loadChat 1 w = Returned tt w /\
  exists w', loadChat 0 w = Returned tt w' /\ JsMap.get "c1" (chats w') = Some 0.
Proof.
  intros w. split.
  - apply (proj1 (loadChat_policy 1 (Chat.mk "" None MessageTree.empty 0 0) w
                    eq_refl)). reflexivity.
  - destruct (proj2 (loadChat_policy 0 talk w eq_refl)) as (w' & Hrun & Hget & _);
      [discriminate|].
    exists w'. by split.
Defined.

Lemma load_each_runs ss :
  forall w,
  Forall (fun s => s_id s <> "error") ss ->
  exists w',
    load_each ss w = Returned tt w' /\
    heap w' = heap w ++ List.map restore ss /\
    chats w' = registered (length (heap w)) ss (chats w) /\
    index w' = documented ss (index w) /\
    posted w' = posted w /\
    store w' = store w /\
    idb_calls w' = idb_calls w /\
    loop_alive w' = loop_alive w /\
    loaded w' = loaded w /\
    host w' = host w /\
    clock w' = clock w.
Proof.
  induction ss as [|s ss IH]; intros w Hne.
  - exists w. cbn [load_each List.map registered documented].
    rewrite app_nil_r. by repeat split.
  - apply Forall_cons in Hne as [Hs Hne].
    cbn [load_each]. unfold alloc at 1. unfold bind at 1.
    rewrite bind_gets, bind_modify. unfold ret at 1.
    unfold bind at 1.
    rewrite (loadChat_runs (length (heap w)) (restore s));
      [|cbn [heap set_heap]; apply heap_fresh|exact Hs].
    cbn [restore Chat.id] in *. fold (restore s).
    match goal with |- context [load_each ss ?w1] =>
      destruct (IH w1 Hne) as (w' & Hrun & Hh & Hch & Hix & Hpo & Hst & Hcalls
                               & Hal & Hlo & Hho & Hcl)
    end.
    exists w'. split; [exact Hrun|].
    rewrite Hh, Hch, Hix, Hpo, Hst, Hcalls, Hal, Hlo, Hho, Hcl.
    cbn [registered documented List.map].
    destruct (Js.truthy (s_id s)); all_fields;
      rewrite length_app, Nat.add_1_r, <- app_assoc; by repeat split.
Qed.

Lemma registered_other k b ss m :
  (forall s, s ∈ ss -> s_id s <> k) ->
  JsMap.get k (registered b ss m) = JsMap.get k m.
Proof.
  revert b m. induction ss as [|s ss IH]; intros b m Hk; [done|].
  cbn [registered]. rewrite IH.
  - destruct (Js.truthy (s_id s)); [|done].
    apply get_set_ne. intros Heq. apply (Hk s); [apply list_elem_of_here|done].
  - intros s' Hs'. apply Hk. by apply list_elem_of_further.
Qed.

Lemma registered_lookup b ss m i s :
  NoDup (List.map s_id ss) ->
  ss !! i = Some s ->
  Js.truthy (s_id s) = true ->
  JsMap.get (s_id s) (registered b ss m) = Some (b + i).
Proof.
  revert b m i. induction ss as [|s0 ss IH]; intros b m i Hnd Hi Ht; [done|].
  cbn [List.map] in Hnd. apply NoDup_cons in Hnd as [Hnew Hnd].
  cbn [registered]. destruct i as [|i]; cbn in Hi.
  - injection Hi as ->. rewrite Ht, registered_other.
    + rewrite get_set_eq. f_equal. lia.
    + intros s' Hs' Heq. apply Hnew. rewrite <- Heq.
      by apply list_elem_of_In, in_map, list_elem_of_In.
  - rewrite (IH (S b) _ i Hnd Hi Ht). f_equal. lia.
Qed.

Lemma values_set {V} (P : V -> Prop) k v (m : JsMap.t V) :
  Forall P (JsMap.values m) -> P v -> Forall P (JsMap.values (JsMap.set k v m)).
Proof.
  intros Hm Hv. induction m as [|[k' v'] m IH]; cbn [JsMap.set].
  - by repeat constructor.
  - unfold JsMap.values in *. cbn [List.map snd] in Hm.
    apply Forall_cons in Hm as [Hv' Hm].
    destruct (String.eqb k' k); cbn [List.map snd]; constructor; auto.
Qed.

Lemma registered_values (P : loc -> Prop) b ss m :
  Forall P (JsMap.values m) ->
  (forall j, b <= j < b + length ss -> P j) ->
  Forall P (JsMap.values (registered b ss m)).
Proof.
  revert b m. induction ss as [|s ss IH]; intros b m Hm Hb; [done|].
  cbn [registered]. apply IH.
  - destruct (Js.truthy (s_id s)); [|done].
    apply values_set; [done|]. apply Hb. cbn [length]. lia.
  - intros j Hj. apply Hb. cbn [length]. lia.
Qed.

Lemma registered_keys b ss m :
  NoDup (JsMap.keys m ++ List.map s_id ss) ->
  Forall (fun s => Js.truthy (s_id s) = true) ss ->
  JsMap.keys (registered b ss m) = JsMap.keys m ++ List.map s_id ss.
Proof.
  revert b m. induction ss as [|s ss IH]; intros b m Hnd Ht.
  - cbn. by rewrite app_nil_r.
  - apply Forall_cons in Ht as [Hs Ht]. cbn [registered]. rewrite Hs.
    assert (Habsent : JsMap.get (s_id s) m = None).
    { destruct (JsMap.get (s_id s) m) as [v|] eqn:E; [|done]. exfalso.
      apply NoDup_app in Hnd as (_ & Hdisj & _).
      apply (Hdisj (s_id s)).
      - clear -E. induction m as [|[k' v'] m IH]; [done|].
        cbn [JsMap.get] in E. unfold JsMap.keys. cbn [List.map fst].
        destruct (String.eqb k' (s_id s)) eqn:E'.
        + apply String.eqb_eq in E'. subst. apply list_elem_of_here.
        + apply list_elem_of_further. by apply IH.
      - cbn [List.map]. apply list_elem_of_here. }
    rewrite IH; [|by rewrite keys_set_absent, <- app_assoc|done].
    rewrite keys_set_absent by done. by rewrite <- app_assoc.
Qed.

Lemma load_runs w :
  match store w with
  | None => load w = Returned tt (set_loaded true w)
  | Some ss =>
      Forall (fun s => s_id s <> "error") ss ->
      exists w',
        load w = Returned tt w' /\
        loaded w' = true /\
        changed w' = true /\
        heap w' = heap w ++ List.map restore ss /\
        chats w' = registered (length (heap w)) ss (chats w) /\
        index w' = documented ss (index w) /\
        posted w' = posted w /\
        store w' = store w /\
        idb_calls w' = idb_calls w /\
        loop_alive w' = loop_alive w
  end.
Proof.
  unfold load. rewrite bind_gets. destruct (store w) as [ss|] eqn:Hs.
  - intros Hne. destruct (load_each_runs ss w Hne)
      as (w1 & Hrun & Hh & Hch & Hix & Hpo & Hst & Hcalls & Hal & _).
    unfold bind at 1. unfold bind at 1. rewrite Hrun, run_emit by discriminate.
    eexists. split; [reflexivity|]. all_fields.
    rewrite Hh, Hch, Hix, Hpo, Hst, Hcalls, Hal, Hs. by repeat split.
  - reflexivity.
Qed.

Lemma registered_falsy k b ss m :
  Js.truthy k = false ->
  JsMap.get k (registered b ss m) = JsMap.get k m.
Proof.
  intros Hk. revert b m. induction ss as [|s ss IH]; intros b m; [done|].
  cbn [registered]. rewrite IH.
  destruct (Js.truthy (s_id s)) eqn:E; [|done].
  apply get_set_ne. intros ->. congruence.
Qed.

Lemma wake_flushes w :
  loop_alive w = true -> loaded w = true -> changed w = true -> refs_ok w ->
  exists ser,
    Forall2 (fun l s => exists c, heap w !! l = Some c /\ s = serialize_chat c)
      (JsMap.values (chats w)) ser /\
    wake Ack w =
    set_store (Some ser)
      (set_idb_calls (idb_calls w ++ [ser]) (set_changed false w)).
Proof.
  intros Halive Hloaded Hchanged Hrefs.
  assert (Hrefs' : refs_ok (set_changed false w)) by exact Hrefs.
  destruct (save_runs Ack (set_changed false w) Hrefs') as (ser & Hser & Hsave).
  exists ser. split; [exact Hser|].
  unfold wake, loop_body. rewrite Halive, !bind_gets, Hloaded, Hchanged.
  cbn [andb]. by rewrite bind_modify, Hsave.
Qed.

(** X8.  [load] with nothing in the durable store only marks the manager
    loaded.  With a stored list (an empty one too) none of whose chats has
    the event name 'error' for id, every stored chat gets a new object,
    a stored chat with an id is in the map under it (when the stored ids
    differ), chats without id are not registered, entries under other ids
    and the objects that existed stay, nothing is broadcast, and the
    manager ends loaded and dirty: the next wake-up of the loop hands a
    snapshot of all chats back to the store. *)
Theorem load_then_flush (w : World) :
  (store w = None -> load w = Returned tt (set_loaded true w)) /\
  (forall ss, store w = Some ss ->
   Forall (fun s => s_id s <> "error") ss ->
   exists w',
     load w = Returned tt w' /\
     loaded w' = true /\
     changed w' = true /\
     posted w' = posted w /\
     heap w' = heap w ++ List.map restore ss /\
     (NoDup (List.map s_id ss) ->
      forall i s, ss !! i = Some s -> s_id s <> "" ->
                  JsMap.get (s_id s) (chats w') = Some (length (heap w) + i)) /\
     (forall k, (forall s, s ∈ ss -> s_id s <> k) ->
                JsMap.get k (chats w') = JsMap.get k (chats w)) /\
     JsMap.get "" (chats w') = JsMap.get "" (chats w) /\
     (loop_alive w = true -> refs_ok w ->
      exists ser,
        length ser = length (JsMap.values (chats w')) /\
        idb_calls (wake Ack w') = idb_calls w ++ [ser] /\
        store (wake Ack w') = Some ser /\
        changed (wake Ack w') = false)).
Proof.
  pose proof (load_runs w) as Hload. split.
  - intros Hs. by rewrite Hs in Hload.
  - intros ss Hs Hne. rewrite Hs in Hload.
    destruct (Hload Hne) as (w' & Hrun & Hlo & Hch & Hh & Hchats & _ & Hpo & _
                             & Hcalls & Hal).
    exists w'. do 5 (split; [done|]).
    split.
    { intros Hnd i s Hi Hid. rewrite Hchats.
      apply registered_lookup; [done|done|by apply truthy_true]. }
    split; [intros k Hk; rewrite Hchats; by apply registered_other|].
    split; [rewrite Hchats; by apply registered_falsy|].
    intros Halive Hrefs.
    assert (Hrefs' : refs_ok w').
    { unfold refs_ok. rewrite Hchats, Hh, length_app, length_map.
      apply registered_values.
      - eapply Forall_impl; [exact Hrefs|]. intros l Hl. cbn beta in Hl. lia.
      - intros j Hj. lia. }
    destruct (wake_flushes w') as (ser & Hser & Hwake);
      [congruence|done|done|done|].
    exists ser. rewrite Hwake. cbn [idb_calls store changed set_store
      set_idb_calls set_changed]. rewrite Hcalls.
    split; [symmetry; by eapply Forall2_length|]. by repeat split.
Qed.

Lemma load_then_flush_witness :
  let second := chat_with "c2" None "Hi" 7 in
  let w := set_store (Some [serialize_chat talk; serialize_chat second])
             (blank_world sample_host) in
  exists w',
    load w = Returned tt w' /\
    heap w' = [talk; second] /\
    JsMap.get "c2" (chats w') = Some 1 /\
    changed w' = true /\
    exists ser, idb_calls (wake Ack w') = [ser].
Proof.
  intros second w.
  destruct (proj2 (load_then_flush w)
              [serialize_chat talk; serialize_chat second] eq_refl)
    as (w' & Hrun & _ & Hch & _ & Hh & Hget & _ & _ & Hwake).
  - repeat constructor; discriminate.
  - exists w'. split; [exact Hrun|]. split; [exact Hh|].
    split.
    { assert (Hnd : NoDup ["c1"; "c2"]).
      { apply NoDup_cons. split; [|apply NoDup_singleton].
        intros H. apply list_elem_of_singleton in H. discriminate. }
      apply (Hget Hnd 1 (serialize_chat second) eq_refl). discriminate. }
    split; [exact Hch|].
    destruct Hwake as (ser & _ & Hcalls & _); [reflexivity|constructor|].
    exists ser. exact Hcalls.
Defined.

(** ** Saving and loading again *)

Lemma get_lookup {V} k (v : V) (m : JsMap.t V) :
  JsMap.get k m = Some v -> exists i, m !! i = Some (k, v).
Proof.
  induction m as [|[k' v'] m IH]; cbn [JsMap.get]; [done|].
  destruct (String.eqb k' k) eqn:E.
  - intros [= ->]. apply String.eqb_eq in E. subst. by exists 0.
  - intros H. destruct (IH H) as [i Hi]. by exists (S i).
Qed.

Lemma restore_serialize c :
  built (Chat.messages c) -> restore (serialize_chat c) = c.
Proof. apply load_restores_chat. Qed.

Lemma saved_entries w ser :
  savable w ->
  Forall2 (fun l s => exists c, heap w !! l = Some c /\ s = serialize_chat c)
    (JsMap.values (chats w)) ser ->
  List.map s_id ser = JsMap.keys (chats w) /\
  forall i k l c,
    chats w !! i = Some (k, l) -> heap w !! l = Some c ->
    ser !! i = Some (serialize_chat c) /\ built (Chat.messages c) /\
    Chat.id c = k /\ k <> "".
Proof.
  unfold savable, JsMap.values, JsMap.keys.
  generalize (chats w) as m. intros m Hsav. revert ser.
  induction Hsav as [|[k0 l0] m (c0 & Hc0 & Hid0 & Hne0 & Hb0) _ IH];
    intros ser Hser; cbn [List.map fst snd] in *.
  - apply Forall2_nil_inv_l in Hser as ->. by split.
  - apply Forall2_cons_inv_l in Hser as (s & ser' & (c1 & Hc1 & ->) & Hser & ->).
    assert (c1 = c0) as -> by congruence.
    destruct (IH ser' Hser) as [Hids Hlook]. split.
    + cbn [List.map serialize_chat s_id]. by rewrite Hid0, Hids.
    + intros [|i] k l c Hi Hc; cbn in Hi.
      * injection Hi as <- <-. assert (c = c0) as -> by congruence. done.
      * by apply (Hlook i k l c).
Qed.

(** X9.  What [save] hands to the durable store is enough for [load] to
    bring every chat back.  For a manager whose map has one entry per id,
    none of them the event name 'error', each naming a chat object with
    that id, a non-empty one, and a tree built from valid insertions:
    when a manager loads what that [save] stored, every chat of the
    saving manager is in its map under the same id, as an equal object
    (same title, timestamps and tree); a manager that held no chats gets
    the ids in the same order. *)
Theorem save_then_load (w w1 w0 : World) :
  savable w ->
  NoDup (JsMap.keys (chats w)) ->
  "error" ∉ JsMap.keys (chats w) ->
  save Ack w = Returned tt w1 ->
  store w0 = store w1 ->
  exists w',
    load w0 = Returned tt w' /\
    loaded w' = true /\
    (forall k l c,
        JsMap.get k (chats w) = Some l -> heap w !! l = Some c ->
        exists l', JsMap.get k (chats w') = Some l' /\ heap w' !! l' = Some c) /\
    (chats w0 = [] -> JsMap.keys (chats w') = JsMap.keys (chats w)).
Proof.
  intros Hsav Hnd Hheard Hsave Hstore.
  assert (Hrefs : refs_ok w).
  { unfold refs_ok, JsMap.values. apply Forall_fmap.
    eapply Forall_impl; [exact Hsav|]. intros [k l] (c & Hc & _). cbn.
    by eapply lookup_lt_Some. }
  destruct (save_runs Ack w Hrefs) as (ser & Hser & Hsave').
  rewrite Hsave in Hsave'. injection Hsave' as ->.
  cbn [store set_store] in Hstore.
  destruct (saved_entries w ser Hsav Hser) as [Hids Hlook].
  pose proof (load_runs w0) as Hload. rewrite Hstore in Hload.
  destruct Hload as (w' & Hrun & Hlo & _ & Hh & Hchats & _).
  { apply Forall_forall. intros s Hs Herr. apply Hheard.
    rewrite <- Hids, <- Herr.
    by apply list_elem_of_In, in_map, list_elem_of_In. }
  exists w'. do 2 (split; [done|]). split.
  - intros k l c Hget Hc. apply get_lookup in Hget as [i Hi].
    destruct (Hlook i k l c Hi Hc) as (Hs & Hb & Hid & Hne).
    exists (length (heap w0) + i). split.
    + rewrite Hchats. rewrite <- Hid.
      change (Chat.id c) with (s_id (serialize_chat c)).
      apply registered_lookup; [by rewrite Hids|done|].
      cbn [serialize_chat s_id]. apply truthy_true. congruence.
    + rewrite Hh, lookup_app_r by lia.
      replace (length (heap w0) + i - length (heap w0)) with i by lia.
      change (List.map restore ser) with (restore <$> ser).
      rewrite list_lookup_fmap, Hs. cbn. by rewrite restore_serialize.
  - intros Hempty. rewrite Hchats, Hempty.
    rewrite registered_keys; [by rewrite Hids| by rewrite Hids|].
    apply Forall_forall. intros s Hs.
    apply list_elem_of_lookup in Hs as [i Hs].
    assert (Hi : i < length (chats w)).
    { apply lookup_lt_Some in Hs.
      rewrite <- (length_map s_id), Hids in Hs.
      unfold JsMap.keys in Hs. by rewrite length_map in Hs. }
    destruct (lookup_lt_is_Some_2 _ _ Hi) as [[k l] Hkl].
    destruct (proj1 (Forall_lookup _ _) Hsav i (k, l) Hkl) as (c & Hc & _).
    destruct (Hlook i k l c Hkl Hc) as (Hs' & _ & Hid & Hne).
    rewrite Hs in Hs'. injection Hs' as ->.
    cbn [serialize_chat s_id]. apply truthy_true. congruence.
Qed.

Lemma savable_sample : savable (world_with [talk]).
Proof.
  repeat constructor. exists talk. repeat split; [discriminate|].
  apply built_add; [|exact valid_insertion_sample2].
  apply built_add; [apply built_empty|exact valid_insertion_sample1].
Qed.

Lemma save_then_load_witness :
  let w := world_with [talk] in
  let w0 := set_store (store (world_of (save Ack w))) (blank_world sample_host) in
  exists w' l',
    load w0 = Returned tt w' /\
    JsMap.get "c1" (chats w') = Some l' /\ heap w' !! l' = Some talk.
Proof.
  intros w w0.
  destruct (save_then_load w (world_of (save Ack w)) w0 savable_sample)
    as (w' & Hrun & _ & Hchats & _).
  - repeat constructor. intros H. by apply not_elem_of_nil in H.
  - intros H. apply list_elem_of_singleton in H. discriminate.
  - reflexivity.
  - reflexivity.
  - destruct (Hchats "c1" 0 talk eq_refl eq_refl) as (l' & Hget & Hl').
    exists w', l'. by repeat split.
Defined.

(** ** Snapshots from other replicas *)

(** X10.  Receiving a snapshot is silent: nothing is broadcast in
    return, the search index is not touched, no existing object changes
    (the chat that was in the map is replaced, not overwritten), nothing
    is stored, and the dirty flag is set only if the chat's id is the
    event name 'update'.  A chat under a new id goes to the end of the
    map.  The handler throws when the chat's id is the event name
    'error', after the map was written and with nothing emitted. *)
Theorem onmessage_is_silent (data : Chat.t) (w : World) :
  let unheard := String.eqb (Chat.id data) "error" in
  exists (w' : World),
    onmessage (ChatUpdate data) w =
      (if unheard then Threw UnhandledError w' else Returned tt w') /\
    posted w' = posted w /\
    index w' = index w /\
    (forall l c, heap w !! l = Some c -> heap w' !! l = Some c) /\
    emitted w' =
      (if unheard then emitted w
       else emitted w ++ [mkEmitted (Chat.id data) NoArgs]) /\
    changed w' = String.eqb (Chat.id data) "update" || changed w /\
    idb_calls w' = idb_calls w /\
    store w' = store w /\
    (JsMap.get (Chat.id data) (chats w) = None ->
     JsMap.keys (chats w') = JsMap.keys (chats w) ++ [Chat.id data]).
Proof.
  intros unheard. subst unheard. rewrite onmessage_outcome.
  destruct (String.eqb_spec (Chat.id data) "error") as [Hid|Hid];
    (eexists; split; [reflexivity|]); all_fields;
    do 2 (split; [done|]);
    (split; [intros l c Hc; by apply lookup_app_l_Some|]);
    (split; [done|]);
    (split; [try done; by rewrite Hid|]);
    do 2 (split; [done|]); apply keys_set_absent.
Qed.

(** X11.  A snapshot that arrives during a turn does not reach the turn:
    the handlers of the turn hold the chat object they started with.
    After the snapshot replaced the chat in the map, a data event still
    writes the text to the replaced object and broadcasts that object;
    the chat of the map stays the received snapshot, without the text.
    Neither chat has the event name 'error' for id. *)
Theorem stream_after_replacement (data : Chat.t) (d : string) (t : Turn)
    (w : World) (c : Chat.t) :
  heap w !! turn_chat t = Some c ->
  Chat.id data <> "error" ->
  Chat.id c <> "error" ->
  let streamed :=
    Chat.with_messages
      (MessageTree.updateMessage (Message.with_content d (reply t))
         (Chat.messages c)) c in
  exists (t' : Turn) (w' : World) (l' : loc),
    (onmessage (ChatUpdate data) ;; on_data d t) w = Returned t' w' /\
    JsMap.get (Chat.id data) (chats w') = Some l' /\
    l' <> turn_chat t /\
    heap w' !! l' = Some data /\
    heap w' !! turn_chat t = Some streamed /\
    posted w' = posted w ++ [ChatUpdate streamed].
Proof.
  intros Hc Hdata Hne streamed.
  pose proof (lookup_lt_Some _ _ _ Hc) as Hlt.
  unfold bind. rewrite onmessage_runs by exact Hdata.
  match goal with |- context [on_data d t ?w1] =>
    destruct (on_data_runs d t w1 c) as (w' & Hrun & Hh & Hch & _ & _ & Hpo)
  end.
  { all_fields. by apply lookup_app_l_Some. }
  { exact Hne. }
  revert Hh Hch Hpo. all_fields. intros Hh Hch Hpo.
  eexists _, w', (length (heap w)). split; [exact Hrun|].
  rewrite Hh, Hch, Hpo.
  split; [apply get_set_eq|]. split; [lia|].
  split.
  - rewrite list_lookup_insert_ne by lia. apply heap_fresh.
  - split; [|done]. apply list_lookup_insert_eq. rewrite length_app. lia.
Qed.

Lemma stream_after_replacement_witness :
  let w := world_with [talk] in
  let data := chat_with "c1" (Some "Elsewhere") "Hello" 9 in
  exists t' w' l',
    (onmessage (ChatUpdate data) ;; on_data "Hi" pending_turn) w
      = Returned t' w' /\
    JsMap.get "c1" (chats w') = Some l' /\
    heap w' !! l' = Some data /\
    (Message.content <$> MessageTree.get "r1" (Chat.messages data)) = None.
Proof.
  intros w data.
  destruct (stream_after_replacement data "Hi" pending_turn w talk eq_refl)
    as (t' & w' & l' & Hrun & Hget & _ & Hl' & _);
    [discriminate|discriminate|].
  exists t', w', l'. by repeat split.
Defined.

(** ** What a query returns *)

Lemma result_of_chat_back w w' o :
  refs_ok w -> grows w w' -> result_of_chat w' o -> result_of_chat w o.
Proof.
  intros Hrefs [extra ->] (l & c & Hget & Hc & Hrest).
  cbn [chats heap set_heap] in *. exists l, c. split; [exact Hget|].
  split; [|exact Hrest].
  destruct (refs_ok_lookup w _ l Hrefs Hget) as [c0 Hc0].
  rewrite (lookup_app_l_Some _ _ _ _ Hc0) in Hc. congruence.
Qed.

Lemma processSearchResult_wellformed item i w :
  refs_ok w ->
  item_id item w = Returned i w ->
  exists r w',
    processSearchResult item w = Returned r w' /\
    grows w w' /\
    match r with
    | Some o => out_chatID o = i /\ result_of_chat w o
    | None => True
    end.
Proof.
  intros Hrefs Hitem.
  destruct (JsMap.get i (chats w)) as [stored|] eqn:Hget.
  - destruct (refs_ok_lookup w i stored Hrefs Hget) as [c Hc].
    rewrite (processSearchResult_runs item w i stored c Hitem Hget Hc).
    eexists _, _. split; [reflexivity|].
    split; [by exists [titled_copy c]|].
    destruct (negb (Js.truthy_opt (Chat.title (titled_copy c))))
      eqn:Ht; cbn [orb]; [done|].
    destruct (negb (Js.truthy (described c))) eqn:Hd; [done|].
    apply negb_false_iff in Ht, Hd. cbn [out_chatID]. split; [done|].
    exists stored, c. cbn [out_chatID out_description out_title].
    split; [done|]. split; [done|]. split; [done|].
    split; [by apply truthy_true|].
    split.
    { apply truthy_true. rewrite or_empty_truthy. exact Ht. }
    unfold titled_copy in *. destruct (Js.truthy_opt (Chat.title c)); [done|].
    cbn [Chat.title Chat.with_title Js.truthy_opt Js.or_empty] in *.
    by rewrite Ht.
  - exists None, w. unfold processSearchResult. unfold bind at 1.
    rewrite Hitem, bind_gets, Hget. by repeat split.
Qed.

Lemma processSearchResults_loop_wellformed items ids :
  forall output w,
    refs_ok w ->
    Forall2 (fun item i => item_id item w = Returned i w) items ids ->
    exists extra w',
      processSearchResults_loop items output w = Returned (output ++ extra) w' /\
      grows w w' /\
      List.map out_chatID extra `sublist_of` ids /\
      Forall (result_of_chat w) extra.
Proof.
  revert ids. induction items as [|item items IH]; intros ids output w Hrefs Hids.
  - apply Forall2_nil_inv_l in Hids as ->. exists [], w.
    cbn [processSearchResults_loop]. rewrite app_nil_r. by repeat split.
  - apply Forall2_cons_inv_l in Hids as (i & ids' & Hitem & Hids & ->).
    destruct (processSearchResult_wellformed item i w Hrefs Hitem)
      as (r & w1 & Hrun & Hgrow & Hr).
    assert (Hids1 : Forall2 (fun item i => item_id item w1 = Returned i w1)
                      items ids').
    { eapply Forall2_impl; [exact Hids|]. intros it j Hit. cbn beta in *.
      eapply item_id_grows; [exact Hit|exact Hgrow]. }
    pose proof (refs_ok_grows w w1 Hrefs Hgrow) as Hrefs1.
    cbn [processSearchResults_loop]. unfold bind. rewrite Hrun.
    destruct r as [o|].
    + destruct Hr as [Hid Ho].
      destruct (IH ids' (output ++ [o]) w1 Hrefs1 Hids1)
        as (extra & w' & Hloop & Hgrow' & Hsub & Hall).
      exists (o :: extra), w'. rewrite Hloop, <- app_assoc.
      split; [done|]. split; [by etrans|]. split.
      * cbn [List.map]. rewrite Hid. by apply sublist_skip.
      * constructor; [done|]. eapply Forall_impl; [exact Hall|].
        intros o'. by apply result_of_chat_back.
    + destruct (IH ids' output w1 Hrefs1 Hids1)
        as (extra & w' & Hloop & Hgrow' & Hsub & Hall).
      exists extra, w'. split; [done|]. split; [by etrans|].
      split; [by apply sublist_cons|].
      eapply Forall_impl; [exact Hall|].
      intros o'. by apply result_of_chat_back.
Qed.

Lemma hits_ids w ids :
  Forall2 (fun item i => item_id item w = Returned i w) (List.map Hit ids) ids.
Proof. induction ids; cbn [List.map]; by constructor. Qed.

(** X12.  In a world whose map names objects, a query never throws, and
    every result stands for a chat that is in the map: it has a non-empty
    description derived from that chat and a non-empty title, the chat's
    own or the fallback.  For a query that is not blank the results
    follow the order of the fuzzy hits; the prefix search is consulted
    only when no fuzzy hit was kept, and then the results follow the
    prefix hits. *)
Theorem query_results (q : string) (w : World) :
  refs_ok w ->
  exists (output : list SearchOutput) (w' : World),
    query q w = Returned output w' /\
    Forall (result_of_chat w) output /\
    (Js.trim q <> "" ->
     let fuzzy := minisearch (host w) (index w) q Fuzzy in
     let prefix := minisearch (host w) (index w) q Prefix in
     (output <> [] /\ List.map out_chatID output `sublist_of` fuzzy) \/
     (result_of (processSearchResults (List.map Hit fuzzy) w) = Some [] /\
      List.map out_chatID output `sublist_of` prefix)).
Proof.
  intros Hrefs. unfold query. case_decide as Hblank.
  - destruct (recent_chats_runs w Hrefs) as (cs & Hcs & Hrun).
    set (recent := take 10 (js_sort by_updated_desc cs)) in *.
    assert (Hobjs : Forall (fun p => heap w !! fst p = Some (snd p)) recent).
    { apply Forall_take. rewrite js_sort_perm.
      eapply Forall2_Forall_r; [exact Hcs|].
      apply Forall_forall. intros l _ p [<- Hl]. exact Hl. }
    destruct (processSearchResults_loop_wellformed _ _ [] w Hrefs
                (chat_items_ids w recent Hobjs))
      as (output & w' & Hloop & _ & _ & Hall).
    exists output, w'. unfold bind. rewrite Hrun.
    split; [exact Hloop|]. split; [exact Hall|].
    intros Hq. exfalso. apply Hq. by destruct (Js.trim q).
  - unfold index_search. rewrite bind_gets.
    set (fuzzy := minisearch (host w) (index w) q Fuzzy).
    set (prefix := minisearch (host w) (index w) q Prefix).
    destruct (processSearchResults_loop_wellformed _ _ [] w Hrefs
                (hits_ids w fuzzy))
      as (out1 & w1 & Hloop1 & Hgrow1 & Hsub1 & Hall1).
    unfold bind at 1. unfold processSearchResults at 1. rewrite Hloop1.
    cbn [app]. destruct out1 as [|o out1].
    + rewrite bind_gets.
      assert (Hsame : minisearch (host w1) (index w1) q Prefix = prefix).
      { destruct Hgrow1 as [extra ->]. reflexivity. }
      rewrite Hsame.
      pose proof (refs_ok_grows w w1 Hrefs Hgrow1) as Hrefs1.
      destruct (processSearchResults_loop_wellformed _ _ [] w1 Hrefs1
                  (hits_ids w1 prefix))
        as (out2 & w2 & Hloop2 & _ & Hsub2 & Hall2).
      exists out2, w2. split; [exact Hloop2|]. split.
      * eapply Forall_impl; [exact Hall2|].
        intros o'. by apply result_of_chat_back.
      * intros _. right. split; [|exact Hsub2].
        unfold processSearchResults. by rewrite Hloop1.
    + exists (o :: out1), w1. split; [done|]. split; [exact Hall1|].
      intros _. left. by split.
Qed.

Lemma query_results_witness :
  let found (_ : JsMap.t string) (q : string) (mode : SearchMode) :=
    match mode with
    | Fuzzy => if String.eqb q "e" then ["eight"; "ghost"; "three"] else ["ghost"]
    | Prefix => ["one"]
    end in
  let w := with_search [] found (world_with four_chats) in
  (exists output w',
     query "e" w = Returned output w' /\
     List.map out_chatID output = ["eight"; "three"] /\
     List.map out_title output = ["Eight"; "c"] /\
     Forall (result_of_chat w) output /\
     List.map out_chatID output `sublist_of` ["eight"; "ghost"; "three"]) /\
  (exists output w',
     query "on" w = Returned output w' /\
     List.map out_chatID output = ["one"] /\
     Forall (result_of_chat w) output /\
     List.map out_chatID output `sublist_of` ["one"]).
Proof.
  intros found w.
  assert (Hrefs : refs_ok w) by repeat constructor.
  split.
  - destruct (query_results "e" w Hrefs) as (output & w' & Hrun & Hall & Horder).
    assert (Hq : result_of (query "e" w) =
                 Some [mkOutput "eight" "Eight" "h"; mkOutput "three" "c" "c"])
      by (vm_compute; reflexivity).
    rewrite Hrun in Hq. injection Hq as ->.
    eexists _, w'. split; [exact Hrun|].
    do 2 (split; [reflexivity|]). split; [exact Hall|].
    destruct Horder as [[_ Hsub]|[Hnone _]]; [by vm_compute|exact Hsub|].
    vm_compute in Hnone. discriminate.
  - destruct (query_results "on" w Hrefs) as (output & w' & Hrun & Hall & Horder).
    assert (Hq : result_of (query "on" w) = Some [mkOutput "one" "a" "a"])
      by (vm_compute; reflexivity).
    rewrite Hrun in Hq. injection Hq as ->.
    eexists _, w'. split; [exact Hrun|].
    split; [reflexivity|]. split; [exact Hall|].
    destruct Horder as [[_ Hsub]|[_ Hsub]]; [by vm_compute| |exact Hsub].
    vm_compute in Hsub. apply sublist_cons_l in Hsub as (k1 & k2 & E & _).
    by destruct k1 as [|? [|? ?]].
Defined.

(** ** The map and the ids of the chats *)

#[local] Instance same_chats_preorder : PreOrder same_chats.
Proof.
  split.
  - by intros w.
  - intros w1 w2 w3 [H1 H2] [H3 H4]. split; congruence.
Qed.

Lemma coherent_same w w' : same_chats w w' -> coherent w -> coherent w'.
Proof. intros [Hh Hc]. unfold coherent. by rewrite Hh, Hc. Qed.

Lemma coherent_grows w w' : grows w w' -> coherent w -> coherent w'.
Proof.
  intros [extra ->] Hco. unfold coherent in *. cbn [heap chats set_heap].
  eapply Forall_impl; [exact Hco|]. intros p (c & Hc & Hid). exists c.
  split; [by apply lookup_app_l_Some|done].
Qed.

Lemma coherent_get w k l :
  coherent w -> JsMap.get k (chats w) = Some l ->
  exists c, heap w !! l = Some c /\ Chat.id c = k.
Proof.
  intros Hco Hget. apply get_lookup in Hget as [i Hi].
  exact (proj1 (Forall_lookup _ _) Hco i (k, l) Hi).
Qed.

Lemma entries_set {V} (Q : string * V -> Prop) k v (m : JsMap.t V) :
  Forall Q m -> Q (k, v) -> Forall Q (JsMap.set k v m).
Proof.
  intros Hm Hv. induction Hm as [|[k' v'] m Hq Hm IH]; cbn [JsMap.set].
  - by repeat constructor.
  - destruct (String.eqb k' k); constructor; auto.
Qed.

(** An object was replaced by one with the same id. *)
Lemma coherent_assigned w w' l c c' :
  coherent w -> heap w !! l = Some c -> Chat.id c' = Chat.id c ->
  heap w' = <[l := c']> (heap w) -> chats w' = chats w ->
  coherent w'.
Proof.
  intros Hco Hc Hid Hh Hch. unfold coherent in *. rewrite Hh, Hch.
  eapply Forall_impl; [exact Hco|]. intros [k l0] (c0 & Hc0 & Hid0).
  cbn [fst snd] in *. destruct (decide (l0 = l)) as [->|Hne].
  - exists c'. split; [by eapply heap_assigned|].
    pose proof (eq_trans (eq_sym Hc0) Hc) as E. injection E as ->. congruence.
  - exists c0. by rewrite list_lookup_insert_ne.
Qed.

(** An object was put into the map under its id. *)
Lemma coherent_registered w w' l c :
  coherent w -> heap w !! l = Some c ->
  heap w' = heap w -> chats w' = JsMap.set (Chat.id c) l (chats w) ->
  coherent w'.
Proof.
  intros Hco Hc Hh Hch. unfold coherent in *. rewrite Hh, Hch.
  apply entries_set; [done|]. by exists c.
Qed.

Ltac by_assignment Hco Hc Hh Hch :=
  eapply coherent_assigned; [exact Hco|exact Hc| |exact Hh|exact Hch];
  reflexivity.

(** The same where the handler threw at the emit of the chat's id. *)
Ltac by_thrown Hco Hc :=
  cbn [world_of];
  eapply coherent_assigned; [exact Hco|exact Hc| |reflexivity|reflexivity];
  reflexivity.

Lemma assign_dangling {A} l f (k : unit -> M A) w :
  heap w !! l = None -> bind (assign l f) k w = Threw BadReference w.
Proof. intros H. unfold bind, assign, bind, deref. by rewrite H. Qed.

Lemma getReply_coherent messages w :
  coherent w -> coherent (world_of (getReply messages w)).
Proof.
  intros Hco. unfold getReply.
  destruct (last messages) as [latest|] eqn:Hlast; [|done].
  rewrite bind_gets.
  destruct (JsMap.get (Message.chatID latest) (chats w)) as [l|] eqn:Hget;
    [|done].
  destruct (coherent_get w _ l Hco Hget) as (c & Hc & Hid).
  destruct (String.eqb_spec (Chat.id c) "error") as [Hne|Hne].
  - pose proof (getReply_throws messages latest w l c Hlast Hget Hc Hne) as Hrun.
    unfold getReply in Hrun. rewrite Hlast, bind_gets, Hget in Hrun.
    rewrite Hrun. by_thrown Hco Hc.
  - destruct (getReply_runs messages latest w l c Hlast Hget Hc Hne)
      as (w' & Hrun & Hh & Hch & _).
    unfold getReply in Hrun. rewrite Hlast, bind_gets, Hget in Hrun.
    rewrite Hrun. cbn [world_of].
    by_assignment Hco Hc Hh Hch.
Qed.

Lemma on_data_coherent d t w :
  coherent w -> coherent (world_of (on_data d t w)).
Proof.
  intros Hco. destruct (heap w !! turn_chat t) as [c|] eqn:Hc.
  - destruct (String.eqb_spec (Chat.id c) "error") as [Hne|Hne].
    + rewrite (on_data_throws d t w c Hc Hne). by_thrown Hco Hc.
    + destruct (on_data_runs d t w c Hc Hne) as (w' & Hrun & Hh & Hch & _).
      rewrite Hrun. by_assignment Hco Hc Hh Hch.
  - unfold on_data. by rewrite assign_dangling.
Qed.

Lemma on_error_coherent t w :
  coherent w -> coherent (world_of (on_error t w)).
Proof.
  intros Hco. destruct (Message.content (reply t)) as [|a s] eqn:Hcontent.
  - destruct (heap w !! turn_chat t) as [c|] eqn:Hc.
    + destruct (String.eqb_spec (Chat.id c) "error") as [Hne|Hne].
      * rewrite (on_error_empty_throws t w c Hc Hcontent Hne).
        by_thrown Hco Hc.
      * destruct (on_error_empty_runs t w c Hc Hcontent Hne)
          as (w' & Hrun & Hh & Hch & _).
        rewrite Hrun. by_assignment Hco Hc Hh Hch.
    + unfold on_error. rewrite Hcontent. cbn [Js.truthy negb].
      by rewrite assign_dangling.
  - rewrite on_error_ignored; [done|]. by rewrite Hcontent.
Qed.

Lemma on_done_coherent t w :
  coherent w -> coherent (world_of (on_done t w)).
Proof.
  intros Hco. destruct (heap w !! turn_chat t) as [c|] eqn:Hc.
  - destruct (String.eqb_spec (Chat.id c) "error") as [Hne|Hne].
    + rewrite (on_done_throws t w c Hc Hne). by_thrown Hco Hc.
    + destruct (on_done_runs t w c Hc Hne) as (w' & Hrun & Hh & Hch & _).
      rewrite Hrun. by_assignment Hco Hc Hh Hch.
  - unfold on_done. by rewrite assign_dangling.
Qed.

Lemma on_title_coherent answer t w :
  coherent w -> coherent (world_of (on_title answer t w)).
Proof.
  intros Hco. destruct (heap w !! turn_chat t) as [c|] eqn:Hc.
  - unfold on_title. do 2 run_step.
    assert (Hbase : coherent
              (set_heap (<[turn_chat t:=Chat.with_title answer c]> (heap w)) w)).
    { eapply coherent_assigned; [exact Hco|exact Hc| |reflexivity|reflexivity].
      reflexivity. }
    cbn [Chat.title Chat.with_title Chat.id].
    destruct answer as [title|]; [|done].
    destruct (Js.truthy title); [|done].
    destruct (String.eqb_spec (Chat.id c) "error") as [Hne|Hne].
    { by rewrite bind_emit_error by emit_name. }
    do 3 run_step. erewrite run_postMessage by heap_lookup.
    cbn [world_of]. eapply coherent_same; [|exact Hbase].
    split; by all_fields.
  - unfold on_title. by rewrite assign_dangling.
Qed.

Lemma sendMessage_coherent message w :
  coherent w -> coherent (world_of (sendMessage message w)).
Proof.
  intros Hco.
  destruct (JsMap.get (sub_chatID message) (chats w)) as [l|] eqn:Hget.
  - destruct (coherent_get w _ l Hco Hget) as (c & Hc & Hid).
    destruct (String.eqb_spec (Chat.id c) "error") as [Hne|Hne].
    + rewrite (sendMessage_throws message w l c Hget Hc Hne).
      by_thrown Hco Hc.
    + destruct (sendMessage_runs message w l c Hget Hc Hid Hne)
        as (w' & Hrun & Hh & Hch & _).
      rewrite Hrun. by_assignment Hco Hc Hh Hch.
  - unfold sendMessage. by rewrite bind_gets, Hget.
Qed.

Lemma regenerate_coherent message w :
  coherent w -> coherent (world_of (regenerate message w)).
Proof.
  intros Hco. unfold regenerate. rewrite bind_gets.
  destruct (JsMap.get (Message.chatID message) (chats w)) as [l|] eqn:Hget;
    [|done].
  destruct (coherent_get w _ l Hco Hget) as (c & Hc & Hid).
  rewrite (bind_deref l c _ w Hc). by apply getReply_coherent.
Qed.

Lemma createChat_coherent w : coherent w -> coherent (world_of (createChat w)).
Proof.
  intros Hco. rewrite createChat_runs. cbn [world_of].
  unfold coherent in *.
  cbn [chats heap set_posted set_index set_chats set_heap set_clock set_uuids].
  apply entries_set.
  - eapply Forall_impl; [exact Hco|]. intros p (c & Hc & Hid).
    exists c. split; [by apply lookup_app_l_Some|done].
  - eexists. split; [apply heap_fresh|done].
Qed.

Lemma onmessage_coherent message w :
  coherent w -> coherent (world_of (onmessage message w)).
Proof.
  intros Hco. destruct message as [data]. rewrite onmessage_outcome.
  destruct (String.eqb (Chat.id data) "error");
    cbn [world_of]; unfold coherent in *;
    rewrite ?chats_after_emit, ?heap_after_emit;
    cbn [chats heap set_chats set_heap];
    apply entries_set.
  all: first
    [ by (exists data; split; [apply heap_fresh|done])
    | (eapply Forall_impl; [exact Hco|]; intros p (c & Hc & Hid);
       exists c; split; [by apply lookup_app_l_Some|done]) ].
Qed.

Lemma loadChat_coherent l w :
  coherent w -> coherent (world_of (loadChat l w)).
Proof.
  intros Hco. destruct (heap w !! l) as [c|] eqn:Hc.
  - rewrite (loadChat_outcome l c w Hc).
    destruct (Js.truthy (Chat.id c)); [|done].
    destruct (String.eqb (Chat.id c) "error"); cbn [world_of];
      (eapply (coherent_registered w _ l c); [done|done| |]; by all_fields).
  - unfold loadChat, bind, deref. by rewrite Hc.
Qed.

Lemma alloc_loadChat_coherent c w :
  coherent w -> coherent (world_of ((l <- alloc c ;; loadChat l) w)).
Proof.
  intros Hco. unfold alloc. unfold bind at 1. rewrite bind_gets, bind_modify.
  unfold ret at 1. apply loadChat_coherent.
  apply (coherent_grows w); [by exists [c]|done].
Qed.

Lemma load_each_coherent ss w :
  coherent w -> coherent (world_of (load_each ss w)).
Proof.
  revert w. induction ss as [|s ss IH]; intros w Hco; [done|].
  cbn [load_each].
  pose proof (alloc_loadChat_coherent (restore s) w Hco) as Hstep.
  unfold bind at 1 in Hstep. unfold bind at 1.
  unfold restore in Hstep.
  destruct (alloc _ w) as [l w1|e w1]; [|exact Hstep].
  unfold bind at 1. destruct (loadChat l w1) as [[] w2|e w2]; [|exact Hstep].
  by apply IH.
Qed.

Lemma load_coherent w : coherent w -> coherent (world_of (load w)).
Proof.
  intros Hco. unfold load. rewrite bind_gets.
  destruct (store w) as [ss|].
  - pose proof (load_each_coherent ss w Hco) as Heach.
    unfold bind at 1. unfold bind at 1.
    destruct (load_each ss w) as [[] w1|e w1]; [|exact Heach].
    rewrite run_emit by discriminate. cbn [world_of modify].
    eapply coherent_same; [|exact Heach]. split; by all_fields.
  - exact Hco.
Qed.

Lemma save_same_chats answer : keeps same_chats (save answer).
Proof.
  unfold save. apply (keeps_bind same_chats); [apply (keeps_gets same_chats)|].
  intros ls. apply (keeps_bind same_chats); [apply (keeps_deref_all same_chats)|].
  intros cs. apply (keeps_bind same_chats); [by apply (keeps_modify same_chats)|].
  intros _. destruct answer; [by apply (keeps_modify same_chats)|].
  apply (keeps_throw same_chats).
Qed.

Lemma wake_same_chats answer w : same_chats w (wake answer w).
Proof.
  unfold wake. destruct (loop_alive w); [|done].
  assert (Hbody : keeps same_chats (loop_body answer)).
  { unfold loop_body.
    apply (keeps_bind same_chats); [apply (keeps_gets same_chats)|]. intros l.
    apply (keeps_bind same_chats); [apply (keeps_gets same_chats)|]. intros c.
    destruct (l && c); [|apply (keeps_ret same_chats)].
    apply (keeps_bind same_chats); [by apply (keeps_modify same_chats)|].
    intros _. apply save_same_chats. }
  specialize (Hbody w). by destruct (loop_body answer w).
Qed.

Lemma search_update_same_chats l : keeps same_chats (search_update l).
Proof.
  unfold search_update.
  apply (keeps_bind same_chats); [apply (keeps_deref same_chats)|].
  intros c. by apply (keeps_modify same_chats).
Qed.

Lemma perform_coherent a w : coherent w -> coherent (perform a w).
Proof.
  intros Hco. destruct a as [|m|m|e|c| |q|answer|e t|t|answer t|l];
    cbn [perform].
  - by apply createChat_coherent.
  - by apply sendMessage_coherent.
  - by apply regenerate_coherent.
  - by apply onmessage_coherent.
  - by apply alloc_loadChat_coherent.
  - by apply load_coherent.
  - eapply coherent_grows; [apply query_grows|done].
  - eapply coherent_same; [apply wake_same_chats|done].
  - destruct e as [d|]; cbn [deliver];
      [by apply on_data_coherent|by apply on_error_coherent].
  - by apply on_done_coherent.
  - by apply on_title_coherent.
  - eapply coherent_same; [apply search_update_same_chats|done].
Qed.

(** X13.  Whatever happens to a manager from its construction on -- calls
    of its methods with any arguments, snapshots from other replicas,
    stream events of any turn, wake-ups of the loop, the initial load --
    every id of the map names a chat object, and that object carries the
    id it is filed under: [get(id)] never returns a chat with another
    id. *)
Theorem ids_stay_coherent (h : Host) (actions : list Action) (k : string) :
  let w := perform_all actions (blank_world h) in
  coherent w /\
  forall l,
    get k w = Returned (Some l) w ->
    exists c, heap w !! l = Some c /\ Chat.id c = k.
Proof.
  assert (Hall : forall w0, coherent w0 -> coherent (perform_all actions w0)).
  { induction actions as [|a actions IH]; intros w0 Hco; [done|].
    cbn [perform_all fold_left]. apply IH. by apply perform_coherent. }
  intros w. assert (Hco : coherent w) by (apply Hall; constructor).
  split; [exact Hco|]. intros l Hget. unfold get, gets in Hget.
  injection Hget as Hget. by apply coherent_get.
Qed.

(** An identifier of [uuidv4] is not the event name 'error'. *)
Lemma uuid_heard (h : Host) (n : nat) : uuid_at h n <> "error".
Proof.
  intros E. pose proof (uuid_shape h n) as H. rewrite E in H. discriminate.
Qed.

(** X14.  A chat that was just created takes a first message: with the
    id [createChat] returned and no parent, [sendMessage] finds the chat,
    asks for a completion of the one new message, and leaves the chat with
    the user message followed by the pending reply, its [created] from the
    first reading of the clock and its [updated] from the sixth.  The two
    messages take the next two ids of the host, which must differ. *)
Theorem new_chat_takes_message (w : World) (content : string)
  (Hfresh : uuid_at (host w) (S (uuids w)) <>
            uuid_at (host w) (S (S (uuids w)))) :
  let id := uuid_at (host w) (uuids w) in
  let newMessage :=
    Message.mk (uuid_at (host w) (S (uuids w))) id None
      (time_at (host w) (S (S (clock w)))) user content true in
  let r :=
    Message.mk (uuid_at (host w) (S (S (uuids w)))) id
      (Some (Message.id newMessage)) (time_at (host w) (4 + clock w))
      assistant "" false in
  exists (w' : World) (l : loc),
    (i <- createChat ;; sendMessage (mkSubmission i None content)) w =
      Returned (mkTurn r l [newMessage]) w' /\
    JsMap.get id (chats w') = Some l /\
    heap w' !! l =
      Some (Chat.mk id None (MessageTree.mk [newMessage; r])
              (time_at (host w) (clock w)) (time_at (host w) (5 + clock w))) /\
    length (posted w') = 3 + length (posted w).
Proof.
  intros id newMessage r. unfold bind at 1. rewrite createChat_runs.
  fold id.
  set (c := Chat.mk id None MessageTree.empty (time_at (host w) (clock w))
              (time_at (host w) (S (clock w)))).
  match goal with |- context [sendMessage ?m ?w0] =>
    destruct (sendMessage_runs m w0 (length (heap w)) c)
      as (w' & Hrun & Hh & Hch & _ & _ & Hpo)
  end.
  - cbn [sub_chatID chats set_posted set_index set_chats]. apply get_set_eq.
  - cbn [heap set_posted set_index set_chats set_heap]. apply heap_fresh.
  - done.
  - apply uuid_heard.
  - revert Hrun Hh Hch Hpo.
    cbn [sub_chatID sub_parentID sub_content chats heap host clock uuids posted
         set_posted set_index set_chats set_heap set_clock set_uuids Chat.id c
         Message.id app].
    intros Hrun Hh Hch Hpo.
    exists w', (length (heap w)). split; [exact Hrun|].
    split; [rewrite Hch; apply get_set_eq|].
    split.
    + rewrite Hh, list_lookup_insert_eq
        by (rewrite length_app; cbn [length]; lia).
      f_equal. unfold Chat.with_updated, Chat.with_messages, c.
      cbn [Chat.id Chat.title Chat.created Chat.messages].
      f_equal. unfold MessageTree.addMessage, MessageTree.has, MessageTree.get.
      cbn [MessageTree.nodes MessageTree.empty find app Message.id].
      fold newMessage.
      destruct (String.eqb_spec (uuid_at (host w) (S (uuids w)))
                  (uuid_at (host w) (S (S (uuids w))))) as [E|_]; [done|].
      reflexivity.
    + rewrite Hpo, !length_app. cbn [length]. lia.
Qed.

Lemma new_chat_takes_message_witness :
  exists (w' : World) (l : loc) (t : Turn),
    (i <- createChat ;; sendMessage (mkSubmission i None "hello"))
      (blank_world sample_host) = Returned t w' /\
    context t =
      [Message.mk "00000000-0000-4000-8000-000000000001"
         "00000000-0000-4000-8000-000000000000" None 1002 user "hello" true] /\
    JsMap.get "00000000-0000-4000-8000-000000000000" (chats w') = Some l /\
    (Chat.updated <$> heap w' !! l) = Some 1005%Z.
Proof.
  destruct (new_chat_takes_message (blank_world sample_host) "hello")
    as (w' & l & Hrun & Hget & Hc & _); [done|].
  eexists w', l, _. split; [exact Hrun|]. split; [reflexivity|].
  split; [exact Hget|]. exact (f_equal (fmap Chat.updated) Hc).
Defined.

Lemma search_update_runs l c w :
  heap w !! l = Some c ->
  search_update l w =
  Returned tt
    (set_index (JsMap.set (Chat.id c) (search_document c) (index w)) w).
Proof.
  intros Hc. unfold search_update. by rewrite (bind_deref l c _ w Hc).
Qed.

Lemma has_get {V} (k : string) (m : JsMap.t V) :
  JsMap.has k m = true -> exists v, JsMap.get k m = Some v.
Proof. unfold JsMap.has. destruct (JsMap.get k m); [by eexists|done]. Qed.

(** X15.  The index follows a chat only when [Search.update] runs for it:
    the data and done events of a turn leave the index as it was.
    [Search.update] files the chat's document under the chat's id, in
    place when the id is indexed already and at the end otherwise, and
    touches nothing else; run again on the same object it changes
    nothing.  The document of a chat without title starts with the word
    [undefined]. *)
Theorem index_refresh (l : loc) (c : Chat.t) (w : World) :
  heap w !! l = Some c ->
  (forall t d, turn_chat t = l -> index (world_of (on_data d t w)) = index w) /\
  (forall t, turn_chat t = l -> index (world_of (on_done t w)) = index w) /\
  (Chat.title c = None -> exists rest, search_document c = "undefined" +:+ rest) /\
  exists w',
    search_update l w = Returned tt w' /\
    JsMap.get (Chat.id c) (index w') = Some (search_document c) /\
    (forall k, k <> Chat.id c -> JsMap.get k (index w') = JsMap.get k (index w)) /\
    JsMap.keys (index w') =
      (if JsMap.has (Chat.id c) (index w) then JsMap.keys (index w)
       else JsMap.keys (index w) ++ [Chat.id c]) /\
    chats w' = chats w /\ heap w' = heap w /\ changed w' = changed w /\
    posted w' = posted w /\ emitted w' = emitted w /\
    search_update l w' = Returned tt w'.
Proof.
  intros Hc. split; [|split; [|split]].
  - intros t d <-.
    destruct (String.eqb_spec (Chat.id c) "error") as [Hne|Hne].
    + by rewrite (on_data_throws d t w c Hc Hne).
    + destruct (on_data_effects d t w c Hc Hne) as (w' & Hrun & _ & _ & Hi & _).
      by rewrite Hrun.
  - intros t <-.
    destruct (String.eqb_spec (Chat.id c) "error") as [Hne|Hne].
    + by rewrite (on_done_throws t w c Hc Hne).
    + destruct (on_done_effects t w c Hc Hne) as (w' & Hrun & _ & _ & Hi & _).
      by rewrite Hrun.
  - intros Ht. unfold search_document. rewrite Ht. by eexists.
  - eexists. split; [by apply search_update_runs|].
    cbn [index chats heap changed posted emitted set_index].
    split; [apply get_set_eq|].
    split; [intros k Hk; by apply get_set_ne|].
    split.
    { destruct (JsMap.has (Chat.id c) (index w)) eqn:Hhas.
      - destruct (has_get _ _ Hhas) as (v & Hv). by eapply keys_set_present.
      - apply keys_set_absent. unfold JsMap.has in Hhas.
        by destruct (JsMap.get (Chat.id c) (index w)). }
    do 5 (split; [done|]).
    rewrite (search_update_runs l c) by exact Hc.
    unfold set_index. cbn [index host uuids clock heap chats loaded changed
      emitted posted store idb_calls loop_alive].
    by rewrite set_set_eq.
Qed.

Lemma index_refresh_witness :
  exists w',
    search_update 1 (world_with four_chats) = Returned tt w' /\
    JsMap.keys (index w') = ["three"] /\
    exists rest, JsMap.get "three" (index w') = Some ("undefined" +:+ rest).
Proof.
  destruct (index_refresh 1 (chat_with "three" None "c" 3)
              (world_with four_chats))
    as (_ & _ & Hundef & w' & Hrun & Hget & _ & Hkeys & _); [reflexivity|].
  destruct Hundef as (rest & Hrest); [reflexivity|].
  exists w'. split; [exact Hrun|]. split; [exact Hkeys|].
  exists rest. by rewrite <- Hrest.
Defined.

(** ** Chats whose id is the event name 'error' *)

Lemma load_each_app ss1 ss2 w :
  load_each (ss1 ++ ss2) w = (load_each ss1 ;; load_each ss2) w.
Proof.
  revert w. induction ss1 as [|s ss1 IH]; intros w; [reflexivity|].
  cbn [app load_each]. unfold bind in *.
  destruct (alloc _ w) as [l w1|e w1]; [|done].
  destruct (loadChat l w1) as [[] w2|e w2]; [|done]. apply IH.
Qed.

Lemma registered_app b ss1 ss2 m :
  registered b (ss1 ++ ss2) m =
  registered (b + length ss1) ss2 (registered b ss1 m).
Proof.
  revert b m. induction ss1 as [|s ss1 IH]; intros b m; cbn [app registered length].
  - by rewrite Nat.add_0_r.
  - rewrite IH. f_equal. lia.
Qed.

Lemma documented_app ss1 ss2 idx :
  documented (ss1 ++ ss2) idx = documented ss2 (documented ss1 idx).
Proof.
  revert idx. induction ss1 as [|s ss1 IH]; intros idx; [done|].
  cbn [app documented]. apply IH.
Qed.

Lemma load_each_throws ss1 s ss2 w :
  Forall (fun s => s_id s <> "error") ss1 ->
  s_id s = "error" ->
  exists w',
    load_each (ss1 ++ s :: ss2) w = Threw UnhandledError w' /\
    heap w' = heap w ++ List.map restore (ss1 ++ [s]) /\
    chats w' = registered (length (heap w)) (ss1 ++ [s]) (chats w) /\
    index w' = documented (ss1 ++ [s]) (index w) /\
    posted w' = posted w /\
    store w' = store w /\
    idb_calls w' = idb_calls w /\
    loop_alive w' = loop_alive w /\
    loaded w' = loaded w.
Proof.
  intros Hne Hs.
  destruct (load_each_runs ss1 w Hne)
    as (w1 & Hrun & Hh & Hch & Hix & Hpo & Hst & Hcalls & Hal & Hlo & _).
  rewrite load_each_app. unfold bind at 1. rewrite Hrun.
  cbn [load_each]. unfold alloc at 1. unfold bind at 1.
  rewrite bind_gets, bind_modify. unfold ret at 1. unfold bind at 1.
  rewrite (loadChat_outcome (length (heap w1)) (restore s));
    [|cbn [heap set_heap]; apply heap_fresh].
  cbn [restore Chat.id]. fold (restore s). rewrite Hs.
  cbn [Js.truthy String.eqb Ascii.eqb Bool.eqb andb].
  eexists. split; [reflexivity|]. all_fields.
  rewrite Hh, Hch, Hix, Hpo, Hst, Hcalls, Hal, Hlo.
  rewrite registered_app, documented_app, List.map_app, app_assoc.
  cbn [registered documented List.map]. rewrite Hs. cbn [Js.truthy].
  rewrite length_app, length_map. by repeat split.
Qed.

(** X16.  A stored chat whose id is the event name 'error' stops [load]:
    the chats stored before it are loaded, the chat itself gets its object
    and its place in the map and in the index, and then the emit of its
    id throws.  The chats stored after it get no object and no entry, the
    manager is not marked loaded, and nothing is broadcast.  A manager
    that was not loaded stays so, and the loop hands nothing to the store
    at any wake-up. *)
Theorem load_stops_at_error (w : World) (ss1 ss2 : list SerializedChat)
    (s : SerializedChat) :
  store w = Some (ss1 ++ s :: ss2) ->
  Forall (fun s => s_id s <> "error") ss1 ->
  s_id s = "error" ->
  exists w',
    load w = Threw UnhandledError w' /\
    loaded w' = loaded w /\
    heap w' = heap w ++ List.map restore (ss1 ++ [s]) /\
    JsMap.get "error" (chats w') = Some (length (heap w) + length ss1) /\
    (forall k, k <> "error" -> (forall s1, s1 ∈ ss1 -> s_id s1 <> k) ->
               JsMap.get k (chats w') = JsMap.get k (chats w)) /\
    posted w' = posted w /\
    idb_calls w' = idb_calls w /\
    (loaded w = false ->
     forall answers, run (List.map Wake answers) w' = w').
Proof.
  intros Hstore Hne Hs.
  destruct (load_each_throws ss1 s ss2 w Hne Hs)
    as (w' & Hrun & Hh & Hch & _ & Hpo & _ & Hcalls & _ & Hlo).
  exists w'. split.
  { unfold load. rewrite bind_gets, Hstore.
    unfold bind at 1. unfold bind at 1. by rewrite Hrun. }
  do 2 (split; [done|]). split.
  { rewrite Hch, registered_app. cbn [registered]. rewrite Hs.
    cbn [Js.truthy]. apply get_set_eq. }
  split.
  { intros k Hk Hother. rewrite Hch. apply registered_other.
    intros s1 Hs1. apply elem_of_app in Hs1 as [Hs1|Hs1]; [by apply Hother|].
    apply list_elem_of_singleton in Hs1 as ->. by rewrite Hs. }
  do 2 (split; [done|]).
  intros Hnot answers. rewrite Hnot in Hlo.
  induction answers as [|answer answers IH]; [done|].
  cbn [List.map run fold_left step].
  replace (wake answer w') with w'; [exact IH|].
  unfold wake, loop_body. destruct (loop_alive w'); [|done].
  by rewrite !bind_gets, Hlo.
Qed.

Lemma load_stops_at_error_witness :
  let lost := chat_with "c3" None "Hi" 7 in
  let unheard := chat_with "error" None "Oops" 6 in
  let w := set_store
             (Some [serialize_chat talk; serialize_chat unheard;
                    serialize_chat lost])
             (blank_world sample_host) in
  exists w',
    load w = Threw UnhandledError w' /\
    loaded w' = false /\
    heap w' = [talk; unheard] /\
    JsMap.get "error" (chats w') = Some 1 /\
    JsMap.get "c3" (chats w') = None /\
    run [Wake Ack; Wake Ack] w' = w'.
Proof.
  intros lost unheard w.
  destruct (load_stops_at_error w [serialize_chat talk] [serialize_chat lost]
              (serialize_chat unheard) eq_refl)
    as (w' & Hrun & Hlo & Hh & Hget & Hother & _ & _ & Hwake).
  - repeat constructor. discriminate.
  - reflexivity.
  - exists w'. split; [exact Hrun|]. split; [exact Hlo|]. split; [exact Hh|].
    split; [exact Hget|]. split.
    + rewrite Hother; [reflexivity|discriminate|].
      intros s1 Hs1. apply list_elem_of_singleton in Hs1 as ->. discriminate.
    + exact (Hwake eq_refl [Ack; Ack]).
Defined.


